(** * Suitter private messaging: the conversation ledger and its
      encrypt / store / verify / decrypt client pipeline.

    Two programs are embedded here.

    - [Messaging] follows [sources/messaging.move] (module
      [suitter::messaging]): the conversation registry, the per-conversation
      message vector and the read-state transition.  Move values are
      modelled as they are stored: [u64] and [address] as [N], a
      [Table<K,V>] as a finite map, a [vector<T>] as a list, an [Option<T>]
      as an [option].  A Move function that takes [&mut] arguments yields,
      next to the value it returns, the new values of those arguments; an
      abort is an explicit result, and an aborted transaction leaves the
      ledger as it was.

    - [MessageEncryption] follows the TypeScript module
      [utils/messageEncryption]: JavaScript strings are sequences of UTF-16
      code units, a [Uint8Array] is a list of bytes, and a rejected promise
      or a thrown exception is an explicit result.

    [Mentions] follows [extractMentions] of [utils/mentions]. *)

From stdpp Require Import gmap strings list.
From Equations Require Import Equations.
From Stdlib Require Import NArith Lia Sorted.

Local Open Scope N_scope.

(* ===================================================================== *)
(** * The Move ledger: [suitter::messaging]                               *)
(* ===================================================================== *)

Module Messaging.

Abbreviation u64 := N (only parsing).
Abbreviation address := N (only parsing).
Abbreviation ID := N (only parsing).

Definition MAX_U64 : N := 18446744073709551615.

(** Error constants of the module. *)
Definition ENotParticipant : u64 := 1.
Definition EMessageEmpty : u64 := 3.
Definition ECannotMessageSelf : u64 := 4.
Definition EInvalidBlobId : u64 := 5.

(** Why an execution stopped: an [assert!] of this module with its code, or
    an abort raised inside the framework ([sui::table] on a duplicate or a
    missing key, [std::vector] on an index out of bounds, arithmetic
    overflow of a [u64]), an abort of a function of [suitter::suitter], or
    a transaction that names an object the ledger does not hold. *)
Inductive abort : Type :=
| ModuleAbort (code : u64)
| EFieldAlreadyExists
| EFieldDoesNotExist
| EINDEX_OUT_OF_BOUNDS
| ArithmeticError
| ForeignAbort (code : u64)
| InputObjectNotFound.

Inductive result (A : Type) : Type :=
| Ok (a : A)
| Aborted (e : abort).
Arguments Ok {A} a.
Arguments Aborted {A} e.

Definition bind {A B} (r : result A) (k : A -> result B) : result B :=
  match r with
  | Ok a => k a
  | Aborted e => Aborted e
  end.

Notation "'do' x <- r ; k" := (bind r (fun x => k))
  (at level 10, x pattern, r at level 100, k at level 200,
   format "'[v' 'do'  x  <-  r ; '/' k ']'").

(** An [entry] function of the module returns no value: its result is the
    unit value paired with the new values of its [&mut] arguments. *)
Definition entry (S : Type) : Type := result (unit * S).

(** The value an entry function returned, when it did not abort. *)
Definition returned {S} (r : entry S) : option unit :=
  match r with
  | Ok (v, _) => Some v
  | Aborted _ => None
  end.

(** [assert!(cond, code)] *)
Definition assert (cond : bool) (code : u64) : result unit :=
  if cond then Ok tt else Aborted (ModuleAbort code).

(** Checked [u64] addition. *)
Definition u64_add (a b : u64) : result u64 :=
  if decide (a + b <= MAX_U64) then Ok (a + b) else Aborted ArithmeticError.

(** ** Structures *)

Record Message : Type := mkMessage {
  sender : address;
  encrypted_content_blob_id : string;
  content_hash : list N;
  timestamp_ms : u64;
  is_read : bool;
  media_blob_id : option string;
}.

(** The [id: UID] field is called [uid] here. *)
Record Conversation : Type := mkConversation {
  uid : ID;
  participant1 : address;
  participant2 : address;
  messages : list Message;
  last_message_timestamp_ms : u64;
}.

(** [ConversationRegistry.conversations : Table<address, Table<address, ID>>].
    The [UID]s of the registry and of the inner tables carry no information
    and are not stored; creating an inner table still draws a fresh id from
    the transaction context. *)
Abbreviation ConversationRegistry := (gmap N (gmap N N)) (only parsing).

(** The calls [emit_conversation_created] and [emit_message_sent] into
    [suitter::suitter], recorded with their arguments in the order they are
    made. *)
Inductive Event : Type :=
| ConversationCreated (conversation_id : ID) (user1 user2 : address) (ts : u64)
| MessageSent (conversation_id : ID) (from to : address) (ts : u64).

(** The transaction context, together with what a transaction leaves behind
    besides its [&mut] arguments: the events it emitted and the objects it
    shared. [object::new] draws the next unused id. *)
Record TxContext : Type := mkTx {
  tx_sender : address;
  ids_created : N;
  emitted : list Event;
  shared : list Conversation;
}.

Definition object_new (ctx : TxContext) : ID * TxContext :=
  (ids_created ctx,
   mkTx (tx_sender ctx) (ids_created ctx + 1) (emitted ctx) (shared ctx)).

Definition emit (e : Event) (ctx : TxContext) : TxContext :=
  mkTx (tx_sender ctx) (ids_created ctx) (emitted ctx ++ [e]) (shared ctx).

Definition share_object (c : Conversation) (ctx : TxContext) : TxContext :=
  mkTx (tx_sender ctx) (ids_created ctx) (emitted ctx) (shared ctx ++ [c]).

(** ** [sui::table] *)

Definition table_contains {V} (t : gmap N V) (k : N) : bool :=
  bool_decide (is_Some (t !! k)).

Definition table_borrow {V} (t : gmap N V) (k : N) : result V :=
  match t !! k with
  | Some v => Ok v
  | None => Aborted EFieldDoesNotExist
  end.

Definition table_add {V} (t : gmap N V) (k : N) (v : V) : result (gmap N V) :=
  match t !! k with
  | Some _ => Aborted EFieldAlreadyExists
  | None => Ok (<[k := v]> t)
  end.

(** ** [init]: the registry starts empty (and is shared). *)
Definition init (ctx : TxContext) : ConversationRegistry * TxContext :=
  let '(_, ctx) := object_new ctx in
  (∅, ctx).

(** ** Lookup helpers *)

Definition conversation_exists
    (registry : ConversationRegistry) (user1 user2 : address) : bool :=
  let found12 :=
    if table_contains registry user1 then
      match registry !! user1 with
      | Some user2_table => table_contains user2_table user2
      | None => false
      end
    else false in
  if found12 then true
  else
    let found21 :=
      if table_contains registry user2 then
        match registry !! user2 with
        | Some user1_table => table_contains user1_table user1
        | None => false
        end
      else false in
    if found21 then true else false.

Definition get_conversation_id_helper
    (registry : ConversationRegistry) (user1 user2 : address) : option ID :=
  let found12 :=
    if table_contains registry user1 then
      match registry !! user1 with
      | Some user2_table =>
          if table_contains user2_table user2 then user2_table !! user2
          else None
      | None => None
      end
    else None in
  match found12 with
  | Some i => Some i
  | None =>
      if table_contains registry user2 then
        match registry !! user2 with
        | Some user1_table =>
            if table_contains user1_table user1 then user1_table !! user1
            else None
        | None => None
        end
      else None
  end.

Definition get_conversation_id := get_conversation_id_helper.

(** ** [start_conversation]

    The [_global_registry] argument is not used by the function and is left
    out. *)

(** The step "make sure [owner] has an inner table, then add
    [other -> conversation_id] to it", which the source performs once for
    each direction. *)
Definition add_direction
    (registry : ConversationRegistry) (owner other : address)
    (conversation_id : ID) (ctx : TxContext)
  : result (ConversationRegistry * TxContext) :=
  do (registry, ctx) <-
     (if negb (table_contains registry owner) then
        let '(_, ctx) := object_new ctx in          (* table::new(ctx) *)
        do registry <- table_add registry owner ∅;
        Ok (registry, ctx)
      else Ok (registry, ctx));
  do inner <- table_borrow registry owner;           (* borrow_mut *)
  do inner <- table_add inner other conversation_id;
  Ok (<[owner := inner]> registry, ctx).

Definition start_conversation
    (conversation_registry : ConversationRegistry)
    (other_user : address) (clock : u64) (ctx : TxContext)
  : entry (ConversationRegistry * TxContext) :=
  let sender := tx_sender ctx in
  do _ <- assert (negb (bool_decide (sender = other_user))) ECannotMessageSelf;
  if conversation_exists conversation_registry sender other_user then
    Ok (tt, (conversation_registry, ctx))                (* return *)
  else
    let '(new_id, ctx) := object_new ctx in
    let conversation :=
      mkConversation new_id sender other_user [] clock in
    let conversation_id := uid conversation in
    do (conversation_registry, ctx) <-
       add_direction conversation_registry sender other_user conversation_id ctx;
    do (conversation_registry, ctx) <-
       add_direction conversation_registry other_user sender conversation_id ctx;
    let ctx := emit (ConversationCreated conversation_id sender other_user clock) ctx in
    let ctx := share_object conversation ctx in
    Ok (tt, (conversation_registry, ctx)).

(** ** Sending

    The [_conversation_registry] argument of the two send functions is not
    used and is left out. *)

Section WithGlobalRegistry.

(** [suitter::suitter] is a separate module: its [GlobalRegistry] and
    [increment_messages] are taken as given, and [increment_messages] is
    allowed to abort. *)
Context {GlobalRegistry : Type}.
Context (increment_messages : GlobalRegistry -> result GlobalRegistry).

Definition is_participant (conversation : Conversation) (user : address) : bool :=
  bool_decide (participant1 conversation = user)
  || bool_decide (participant2 conversation = user).

Definition vector_length {A} (v : list A) : u64 := N.of_nat (length v).

Definition send_message
    (global_registry : GlobalRegistry) (conversation : Conversation)
    (encrypted_content_blob_id : string) (content_hash : list N)
    (clock : u64) (ctx : TxContext)
  : entry (GlobalRegistry * Conversation * TxContext) :=
  let sender := tx_sender ctx in
  do _ <- assert (bool_decide (sender = participant1 conversation)
                  || bool_decide (sender = participant2 conversation))
                 ENotParticipant;
  let blob_id_length := N.of_nat (String.length encrypted_content_blob_id) in
  do _ <- assert (0 <? blob_id_length) EInvalidBlobId;
  let hash_length := vector_length content_hash in
  do _ <- assert (0 <? hash_length) EMessageEmpty;
  let timestamp_ms := clock in
  let message :=
    mkMessage sender encrypted_content_blob_id content_hash timestamp_ms
              false None in
  let conversation :=
    mkConversation (uid conversation) (participant1 conversation)
                   (participant2 conversation)
                   (messages conversation ++ [message])     (* push_back *)
                   timestamp_ms in
  let receiver :=
    if bool_decide (sender = participant1 conversation)
    then participant2 conversation else participant1 conversation in
  do global_registry <- increment_messages global_registry;
  let ctx := emit (MessageSent (uid conversation) sender receiver timestamp_ms) ctx in
  Ok (tt, (global_registry, conversation, ctx)).

Definition send_message_with_media
    (global_registry : GlobalRegistry) (conversation : Conversation)
    (encrypted_content_blob_id : string) (content_hash : list N)
    (media_blob_id : string) (clock : u64) (ctx : TxContext)
  : entry (GlobalRegistry * Conversation * TxContext) :=
  let sender := tx_sender ctx in
  do _ <- assert (bool_decide (sender = participant1 conversation)
                  || bool_decide (sender = participant2 conversation))
                 ENotParticipant;
  let blob_id_length := N.of_nat (String.length encrypted_content_blob_id) in
  do _ <- assert (0 <? blob_id_length) EInvalidBlobId;
  let media_blob_id_length := N.of_nat (String.length media_blob_id) in
  do _ <- assert (0 <? media_blob_id_length) EInvalidBlobId;
  let hash_length := vector_length content_hash in
  do _ <- assert (0 <? hash_length) EMessageEmpty;
  let timestamp_ms := clock in
  let message :=
    mkMessage sender encrypted_content_blob_id content_hash timestamp_ms
              false (Some media_blob_id) in
  let conversation :=
    mkConversation (uid conversation) (participant1 conversation)
                   (participant2 conversation)
                   (messages conversation ++ [message])     (* push_back *)
                   timestamp_ms in
  let receiver :=
    if bool_decide (sender = participant1 conversation)
    then participant2 conversation else participant1 conversation in
  do global_registry <- increment_messages global_registry;
  let ctx := emit (MessageSent (uid conversation) sender receiver timestamp_ms) ctx in
  Ok (tt, (global_registry, conversation, ctx)).

(** ** Read state *)

Definition set_is_read (message : Message) : Message :=
  mkMessage (sender message) (encrypted_content_blob_id message)
            (content_hash message) (timestamp_ms message) true
            (media_blob_id message).

(** The body of one round of the helper at [index]: borrow the message
    mutably (aborting out of bounds) and set the flag unless the reader wrote
    it. *)
Definition mark_at (messages : list Message) (reader : address) (index : u64)
  : result (list Message) :=
  match messages !! N.to_nat index with
  | None => Aborted EINDEX_OUT_OF_BOUNDS
  | Some message =>
      if negb (bool_decide (sender message = reader))
      then Ok (<[N.to_nat index := set_is_read message]> messages)
      else Ok messages
  end.

Equations? mark_messages_as_read_helper
    (messages : list Message) (reader : address) (index end_index : u64)
  : result (list Message) by wf (N.to_nat (end_index - index)) lt :=
  mark_messages_as_read_helper messages reader index end_index
    with decide (end_index <= index) => {
    | left _ := Ok messages
    | right _ with mark_at messages reader index => {
      | Aborted e := Aborted e
      | Ok messages' with decide (index + 1 <= MAX_U64) => {
        | right _ := Aborted ArithmeticError
        | left _ :=
            mark_messages_as_read_helper messages' reader (index + 1) end_index } } }.
Proof. lia. Qed.

Definition mark_messages_as_read
    (conversation : Conversation) (up_to_index : u64) (ctx : TxContext)
  : entry Conversation :=
  let reader := tx_sender ctx in
  do _ <- assert (bool_decide (reader = participant1 conversation)
                  || bool_decide (reader = participant2 conversation))
                 ENotParticipant;
  let messages_length := vector_length (messages conversation) in
  do end_index <-
     (if messages_length <=? up_to_index then Ok messages_length
      else u64_add up_to_index 1);
  do messages' <-
     mark_messages_as_read_helper (messages conversation) reader 0 end_index;
  Ok (tt, mkConversation (uid conversation) (participant1 conversation)
                         (participant2 conversation) messages'
                         (last_message_timestamp_ms conversation)).

(** ** Accessors *)

Definition get_messages (conversation : Conversation) : list Message :=
  messages conversation.

Definition get_participants (conversation : Conversation) : address * address :=
  (participant1 conversation, participant2 conversation).

Definition get_last_message_timestamp (conversation : Conversation) : u64 :=
  last_message_timestamp_ms conversation.

(** ** The ledger and its transactions

    The shared objects of the module: the one [ConversationRegistry], the
    [GlobalRegistry] and every shared [Conversation], by id.  A transaction
    names the conversation it works on by id, runs one entry function and,
    unless that aborts, commits the new values, the events and the objects
    shared. *)

Record Ledger : Type := mkLedger {
  conversation_registry : gmap N (gmap N N);
  global_registry : GlobalRegistry;
  conversations : gmap N Conversation;
  event_log : list Event;
  next_id : N;
}.

Inductive Call : Type :=
| StartConversation (other_user : address) (clock : u64)
| SendMessage (conversation : ID) (encrypted_content_blob_id : string)
              (content_hash : list N) (clock : u64)
| SendMessageWithMedia (conversation : ID) (encrypted_content_blob_id : string)
              (content_hash : list N) (media_blob_id : string) (clock : u64)
| MarkMessagesAsRead (conversation : ID) (up_to_index : u64).

Definition fresh_ctx (l : Ledger) (sender : address) : TxContext :=
  mkTx sender (next_id l) [] [].

Definition share_all (cs : list Conversation) (m : gmap N Conversation)
  : gmap N Conversation :=
  foldl (fun m c => <[uid c := c]> m) m cs.

Definition commit (l : Ledger) (registry : gmap N (gmap N N))
    (g : GlobalRegistry) (touched : option Conversation) (ctx : TxContext)
  : Ledger :=
  let objects :=
    match touched with
    | Some c => <[uid c := c]> (conversations l)
    | None => conversations l
    end in
  mkLedger registry g (share_all (shared ctx) objects)
           (event_log l ++ emitted ctx) (ids_created ctx).

Definition input_object (l : Ledger) (i : ID) : result Conversation :=
  match conversations l !! i with
  | Some c => Ok c
  | None => Aborted InputObjectNotFound
  end.

Definition execute (l : Ledger) (sender : address) (call : Call) : result Ledger :=
  let ctx := fresh_ctx l sender in
  match call with
  | StartConversation other_user clock =>
      do (_, (registry, ctx)) <-
         start_conversation (conversation_registry l) other_user clock ctx;
      Ok (commit l registry (global_registry l) None ctx)
  | SendMessage i blob hash clock =>
      do c <- input_object l i;
      do (_, (g, c, ctx)) <-
         send_message (global_registry l) c blob hash clock ctx;
      Ok (commit l (conversation_registry l) g (Some c) ctx)
  | SendMessageWithMedia i blob hash media clock =>
      do c <- input_object l i;
      do (_, (g, c, ctx)) <-
         send_message_with_media (global_registry l) c blob hash media clock ctx;
      Ok (commit l (conversation_registry l) g (Some c) ctx)
  | MarkMessagesAsRead i up_to_index =>
      do c <- input_object l i;
      do (_, c) <- mark_messages_as_read c up_to_index ctx;
      Ok (commit l (conversation_registry l) (global_registry l) (Some c) ctx)
  end.

(** What the ledger is after the transaction: an aborted transaction changes
    nothing. *)
Definition apply_tx (l : Ledger) (sender : address) (call : Call) : Ledger :=
  match execute l sender call with
  | Ok l' => l'
  | Aborted _ => l
  end.

(** The ledger after [init] has run in the publishing transaction. *)
Definition genesis (g : GlobalRegistry) : Ledger :=
  let '(registry, ctx) := init (mkTx 0 0 [] []) in
  mkLedger registry g ∅ (emitted ctx) (ids_created ctx).

Inductive reachable (g : GlobalRegistry) : Ledger -> Prop :=
| reachable_genesis : reachable g (genesis g)
| reachable_step l sender call :
    reachable g l -> reachable g (apply_tx l sender call).

End WithGlobalRegistry.

End Messaging.

(* ===================================================================== *)
(** * The client pipeline: [utils/messageEncryption]                      *)
(* ===================================================================== *)

Module MessageEncryption.

(** A JavaScript string is a sequence of UTF-16 code units (each below
    [0x10000]); a [Uint8Array] is a sequence of bytes (each below [256]). *)
Abbreviation jsstring := (list N) (only parsing).
Abbreviation Uint8Array := (list N) (only parsing).

(** An ASCII literal of the source as a JavaScript string. *)
Definition lit (s : string) : jsstring :=
  map Ascii.N_of_ascii (String.list_ascii_of_string s).

(** What a [throw] or a rejected promise carries: an [Error] with its
    message, or some other value. *)
Inductive thrown : Type :=
| Error (message : jsstring)
| NotAnError.

(** The outcome of awaiting a promise or running a [try] block. *)
Inductive outcome (A : Type) : Type :=
| Resolved (a : A)
| Thrown (t : thrown).
Arguments Resolved {A} a.
Arguments Thrown {A} t.

Definition and_then {A B} (r : outcome A) (k : A -> outcome B) : outcome B :=
  match r with
  | Resolved a => k a
  | Thrown t => Thrown t
  end.

Notation "'await' x <- r ; k" := (and_then r (fun x => k))
  (at level 10, x pattern, r at level 100, k at level 200,
   format "'[v' 'await'  x  <-  r ; '/' k ']'").

(** [error instanceof Error ? error.message : 'Unknown error'] *)
Definition message_of (t : thrown) : jsstring :=
  match t with
  | Error m => m
  | NotAnError => lit "Unknown error"
  end.

(** [try { body } catch (error) { throw new Error(prefix + message) }] *)
Definition rethrow {A} (prefix : string) (body : outcome A) : outcome A :=
  match body with
  | Resolved a => Resolved a
  | Thrown t => Thrown (Error (lit prefix ++ message_of t))
  end.

(** ** [TextEncoder] and [TextDecoder] (UTF-8) *)

Definition is_high_surrogate (u : N) : bool := (0xD800 <=? u) && (u <=? 0xDBFF).
Definition is_low_surrogate (u : N) : bool := (0xDC00 <=? u) && (u <=? 0xDFFF).

Definition REPLACEMENT : N := 0xFFFD.
Definition BOM : N := 0xFEFF.

(** The scalar values of a string: a surrogate pair is one code point, a
    lone surrogate becomes U+FFFD. *)
Fixpoint scalar_values (s : jsstring) : list N :=
  match s with
  | [] => []
  | u :: rest =>
      if is_high_surrogate u then
        match rest with
        | v :: rest' =>
            if is_low_surrogate v
            then (0x10000 + (u - 0xD800) * 0x400 + (v - 0xDC00)) :: scalar_values rest'
            else REPLACEMENT :: scalar_values rest
        | [] => [REPLACEMENT]
        end
      else if is_low_surrogate u then REPLACEMENT :: scalar_values rest
      else u :: scalar_values rest
  end.

Definition utf8_encode_scalar (cp : N) : Uint8Array :=
  if cp <? 0x80 then [cp]
  else if cp <? 0x800 then
    [N.lor 0xC0 (N.shiftr cp 6); N.lor 0x80 (N.land cp 0x3F)]
  else if cp <? 0x10000 then
    [N.lor 0xE0 (N.shiftr cp 12);
     N.lor 0x80 (N.land (N.shiftr cp 6) 0x3F);
     N.lor 0x80 (N.land cp 0x3F)]
  else
    [N.lor 0xF0 (N.shiftr cp 18);
     N.lor 0x80 (N.land (N.shiftr cp 12) 0x3F);
     N.lor 0x80 (N.land (N.shiftr cp 6) 0x3F);
     N.lor 0x80 (N.land cp 0x3F)].

(** [new TextEncoder().encode(s)] *)
Definition TextEncoder_encode (s : jsstring) : Uint8Array :=
  concat (map utf8_encode_scalar (scalar_values s)).

(** The state of the UTF-8 decoder. *)
Record utf8_state : Type := mkUtf8 {
  code_point : N;
  bytes_seen : N;
  bytes_needed : N;
  lower_boundary : N;
  upper_boundary : N;
}.

Definition utf8_initial : utf8_state := mkUtf8 0 0 0 0x80 0xBF.

(** A byte read when no sequence is open. *)
Definition utf8_lead (b : N) : list N * utf8_state :=
  if b <=? 0x7F then ([b], utf8_initial)
  else if (0xC2 <=? b) && (b <=? 0xDF) then
    ([], mkUtf8 (N.land b 0x1F) 0 1 0x80 0xBF)
  else if (0xE0 <=? b) && (b <=? 0xEF) then
    ([], mkUtf8 (N.land b 0xF) 0 2
                (if b =? 0xE0 then 0xA0 else 0x80)
                (if b =? 0xED then 0x9F else 0xBF))
  else if (0xF0 <=? b) && (b <=? 0xF4) then
    ([], mkUtf8 (N.land b 0x7) 0 3
                (if b =? 0xF0 then 0x90 else 0x80)
                (if b =? 0xF4 then 0x8F else 0xBF))
  else ([REPLACEMENT], utf8_initial).

(** One byte through the decoder: the code points it emits and the next
    state. A byte that cannot continue the open sequence ends it with U+FFFD
    and is then read again as a lead byte. *)
Definition utf8_step (st : utf8_state) (b : N) : list N * utf8_state :=
  if bytes_needed st =? 0 then utf8_lead b
  else if negb ((lower_boundary st <=? b) && (b <=? upper_boundary st)) then
    let '(out, st') := utf8_lead b in (REPLACEMENT :: out, st')
  else
    let cp := N.lor (N.shiftl (code_point st) 6) (N.land b 0x3F) in
    let seen := bytes_seen st + 1 in
    if negb (seen =? bytes_needed st)
    then ([], mkUtf8 cp seen (bytes_needed st) 0x80 0xBF)
    else ([cp], utf8_initial).

Fixpoint utf8_decode_from (st : utf8_state) (bytes : Uint8Array) : list N :=
  match bytes with
  | [] => if bytes_needed st =? 0 then [] else [REPLACEMENT]
  | b :: rest =>
      let '(out, st') := utf8_step st b in
      out ++ utf8_decode_from st' rest
  end.

(** A code point as UTF-16 code units. *)
Definition utf16_units (cp : N) : jsstring :=
  if cp <? 0x10000 then [cp]
  else [0xD800 + N.shiftr (cp - 0x10000) 10;
        0xDC00 + N.land (cp - 0x10000) 0x3FF].

Definition strip_bom (cps : list N) : list N :=
  match cps with
  | cp :: rest => if cp =? BOM then rest else cps
  | [] => []
  end.

(** [new TextDecoder().decode(bytes)]: UTF-8, not fatal, and [ignoreBOM]
    false, so a leading byte order mark is dropped. *)
Definition TextDecoder_decode (bytes : Uint8Array) : jsstring :=
  concat (map utf16_units (strip_bom (utf8_decode_from utf8_initial bytes))).

(** ** Arrays and strings of the standard library *)

(** [a < b] on strings: by code units, a proper prefix first. *)
Fixpoint string_lt (a b : jsstring) : bool :=
  match a, b with
  | _, [] => false
  | [], _ :: _ => true
  | x :: a', y :: b' =>
      if x <? y then true else if y <? x then false else string_lt a' b'
  end.

Fixpoint sort_insert (x : jsstring) (sorted : list jsstring) : list jsstring :=
  match sorted with
  | [] => [x]
  | y :: rest => if string_lt x y then x :: y :: rest else y :: sort_insert x rest
  end.

(** [array.sort()] with the default comparison. The order on strings is
    total and only equal strings compare equal, so every sorting algorithm
    returns this list. *)
Fixpoint Array_sort (a : list jsstring) : list jsstring :=
  match a with
  | [] => []
  | x :: rest => sort_insert x (Array_sort rest)
  end.

(** [array.join(sep)] *)
Fixpoint Array_join (sep : jsstring) (a : list jsstring) : jsstring :=
  match a with
  | [] => []
  | [x] => x
  | x :: rest => x ++ sep ++ Array_join sep rest
  end.

Definition hex_digit (d : N) : N :=
  if d <? 10 then 48 + d else 87 + d.

(** [b.toString(16)] for an element [b] of a [Uint8Array]. *)
Definition toString16 (b : N) : jsstring :=
  if b <? 16 then [hex_digit b] else [hex_digit (b / 16); hex_digit (b mod 16)].

(** [s.padStart(n, '0')] *)
Definition padStart0 (n : nat) (s : jsstring) : jsstring :=
  repeat 48 (n - length s) ++ s.

(** ** [createConversationIdentity]

    [participants.sort()] sorts the caller's array in place: the first
    component is that array after the call, the second the identity. *)
Definition createConversationIdentity
    (conversationId : jsstring) (participants : list jsstring)
  : list jsstring * jsstring :=
  let sortedParticipants := Array_sort participants in
  let identityData :=
    conversationId ++ lit "-" ++ Array_join (lit "-") sortedParticipants in
  let bytes := TextEncoder_encode identityData in
  (sortedParticipants,
   concat (map (fun b => padStart0 2 (toString16 b)) bytes)).

(** ** Collaborators

    Everything the module reaches outside itself: the Web Crypto digest,
    [fetch], the repository's [WalrusService] and [PACKAGE_ID] (other files),
    and the Seal client that each function receives as an argument. *)

Record File : Type := mkFile {
  file_bytes : Uint8Array;
  file_name : jsstring;
  file_type : jsstring;
}.

Record Response : Type := mkResponse {
  ok : bool;
  statusText : jsstring;
  arrayBuffer : outcome Uint8Array;
}.

(** The session key handed to [sealClient.decrypt]: one the caller supplied,
    or the object literal built by [createSessionKey], which answers
    [getPackageId()] and [getIdentity()]. *)
Inductive SessionKey (K : Type) : Type :=
| Supplied (k : K)
| Simplified (getPackageId getIdentity : jsstring).
Arguments Supplied {K} k.
Arguments Simplified {K} getPackageId getIdentity.

Record SealClient (K : Type) : Type := mkSealClient {
  seal_encrypt :
    N (* threshold *) -> jsstring (* packageId *) -> jsstring (* id *) ->
    Uint8Array (* data *) -> outcome Uint8Array (* encryptedObject *);
  seal_decrypt :
    Uint8Array (* data *) -> SessionKey K -> Uint8Array (* txBytes *) ->
    outcome Uint8Array;
}.
Arguments seal_encrypt {K} _ _ _ _ _.
Arguments seal_decrypt {K} _ _ _ _.

Record Env : Type := mkEnv {
  PACKAGE_ID : jsstring;
  subtle_digest_SHA256 : Uint8Array -> outcome Uint8Array;
  WalrusService_uploadFile : File -> outcome jsstring (* blobId *);
  WalrusService_getBlobUrl : jsstring -> jsstring;
  fetch : jsstring -> outcome Response;
}.

Section Pipeline.

Context (env : Env) {K : Type}.

(** ** [encryptAndUploadMessage] *)

Record Uploaded : Type := mkUploaded {
  blobId : jsstring;
  contentHash : Uint8Array;
}.

Definition encryptAndUploadMessage
    (messageContent : jsstring) (sealClient : SealClient K)
    (conversationId : jsstring) (participants : list jsstring)
  : outcome Uploaded :=
  rethrow "Failed to encrypt and upload message: " (
    let messageBytes := TextEncoder_encode messageContent in
    await hashBuffer <- subtle_digest_SHA256 env messageBytes;
    let contentHash := hashBuffer in
    let identity := snd (createConversationIdentity conversationId participants) in
    await encryptedBytes <-
      seal_encrypt sealClient 2 (PACKAGE_ID env) identity messageBytes;
    (* the copies into a fresh Uint8Array and ArrayBuffer keep the bytes *)
    let file :=
      mkFile encryptedBytes (lit "encrypted-message")
             (lit "application/octet-stream") in
    await blobId <- WalrusService_uploadFile env file;
    Resolved (mkUploaded blobId contentHash)).

(** ** [createSessionKey] and [createDecryptTransaction] *)

Definition createSessionKey (identity : jsstring) : SessionKey K :=
  Simplified (PACKAGE_ID env) identity.

(** [new Uint8Array(64).fill(0).map((_, i) => txData[i % txData.length] || 0)] *)
Definition createDecryptTransaction (identity : jsstring) : Uint8Array :=
  let txData := TextEncoder_encode (lit "decrypt-" ++ identity) in
  map (fun i => nth (i mod length txData)%nat txData 0) (seq 0 64).

(** ** [decryptMessage]

    [sessionKey] and [txBytes] are optional: [None] stands for an argument
    left out (or, for the key, any falsy value). *)
Definition decryptMessage
    (blobId : jsstring) (sealClient : SealClient K)
    (conversationId : jsstring) (participants : list jsstring)
    (sessionKey : option K) (txBytes : option Uint8Array)
  : outcome jsstring :=
  rethrow "Failed to decrypt message: " (
    let blobUrl := WalrusService_getBlobUrl env blobId in
    await response <- fetch env blobUrl;
    if negb (ok response) then
      Thrown (Error (lit "Failed to download encrypted message from Walrus: "
                     ++ statusText response))
    else
    await encryptedBytes <- arrayBuffer response;
    let identity := snd (createConversationIdentity conversationId participants) in
    let finalSessionKey :=
      match sessionKey with
      | Some k => Supplied k
      | None => createSessionKey identity
      end in
    let finalTxBytes :=
      match txBytes with
      | Some t => t
      | None => createDecryptTransaction identity
      end in
    await decryptedData <-
      seal_decrypt sealClient encryptedBytes finalSessionKey finalTxBytes;
    let messageContent := TextDecoder_decode decryptedData in
    Resolved messageContent).

(** ** [verifyMessageHash] *)

(** [x !== y] on array elements; [None] is [undefined], read past the end. *)
Definition strict_ne (x y : option N) : bool :=
  match x, y with
  | Some a, Some b => negb (a =? b)
  | None, None => false
  | _, _ => true
  end.

(** The comparison loop, entered at [i] with [remaining] rounds to go
    ([i + remaining] is [actualHash.length]). *)
Fixpoint compare_from (actualHash expectedHash : Uint8Array)
    (i remaining : nat) : bool :=
  match remaining with
  | O => true
  | S remaining' =>
      if strict_ne (actualHash !! i) (expectedHash !! i) then false
      else compare_from actualHash expectedHash (S i) remaining'
  end.

Definition verifyMessageHash
    (messageContent : jsstring) (expectedHash : Uint8Array) : bool :=
  let messageBytes := TextEncoder_encode messageContent in
  match subtle_digest_SHA256 env messageBytes with
  | Thrown _ => false                                   (* catch *)
  | Resolved hashBuffer =>
      let actualHash := hashBuffer in
      if negb (length actualHash =? length expectedHash)%nat then false
      else compare_from actualHash expectedHash 0 (length actualHash)
  end.

(** ** [receiveAndDecryptMessage]

    The reader of the messaging guide. Its call is
    [decryptMessage(message.encrypted_content_blob_id, sealClient, suiClient)]:
    [suiClient] lands in [conversationId], and [participants], [sessionKey]
    and [txBytes] are [undefined]. *)

(** [decryptMessage] run with [participants] undefined. It downloads as
    usual; then the first statement of [createConversationIdentity],
    [participants.sort()], throws a [TypeError]: an [Error] whose message,
    [TypeError_message], is the engine's. The [catch] of [decryptMessage]
    wraps it. *)
Definition decryptMessage_participants_undefined
    (TypeError_message : jsstring)
    (blobId : jsstring) (sealClient : SealClient K)
  : outcome jsstring :=
  rethrow "Failed to decrypt message: " (
    let blobUrl := WalrusService_getBlobUrl env blobId in
    await response <- fetch env blobUrl;
    if negb (ok response) then
      Thrown (Error (lit "Failed to download encrypted message from Walrus: "
                     ++ statusText response))
    else
    await encryptedBytes <- arrayBuffer response;
    (* createConversationIdentity(conversationId, undefined) *)
    Thrown (Error TypeError_message)).


(** ** [encryptAndUploadMedia] and [decryptMedia] *)

(** The [File] handed to [encryptAndUploadMedia]: reading it can fail. *)
Record MediaFile : Type := mkMediaFile {
  media_arrayBuffer : outcome Uint8Array;
  media_name : jsstring;
  media_type : jsstring;
}.

Record Blob : Type := mkBlob {
  blob_bytes : Uint8Array;
  blob_type : jsstring;
}.

(** [s || fallback] on strings: the empty string is falsy. *)
Definition or_else (s fallback : jsstring) : jsstring :=
  match s with
  | [] => fallback
  | _ :: _ => s
  end.

(** ASCII lowercase of a code unit: [A-Z] to [a-z]. *)
Definition ascii_lowercase (u : N) : N :=
  if (0x41 <=? u) && (u <=? 0x5A) then u + 0x20 else u.

(** The type that [new Blob(parts, { type })] and
    [new File(bits, name, { type })] keep: the empty string when [type] has a
    character outside U+0020..U+007E, and [type] in ASCII lowercase
    otherwise. *)
Definition Blob_type (mimeType : jsstring) : jsstring :=
  if forallb (fun u => (0x20 <=? u) && (u <=? 0x7E)) mimeType
  then map ascii_lowercase mimeType
  else [].

(** [new Blob([arrayBuffer], { type: mimeType })] *)
Definition new_Blob (bytes : Uint8Array) (mimeType : jsstring) : Blob :=
  mkBlob bytes (Blob_type mimeType).

Definition encryptAndUploadMedia
    (mediaFile : MediaFile) (sealClient : SealClient K)
    (conversationId : jsstring) (participants : list jsstring)
  : outcome jsstring :=
  rethrow "Failed to encrypt and upload media: " (
    await fileBytes <- media_arrayBuffer mediaFile;
    let identity := snd (createConversationIdentity conversationId participants) in
    await encryptedBytes <-
      seal_encrypt sealClient 2 (PACKAGE_ID env) identity fileBytes;
    (* the copies into a fresh Uint8Array and ArrayBuffer keep the bytes *)
    let file :=
      mkFile encryptedBytes
             (or_else (media_name mediaFile) (lit "encrypted-media"))
             (Blob_type
                (or_else (media_type mediaFile) (lit "application/octet-stream"))) in
    await blobId <- WalrusService_uploadFile env file;
    Resolved blobId).

(** [originalMimeType], [sessionKey] and [txBytes] are optional; [None] is an
    argument left out. *)
Definition decryptMedia
    (blobId : jsstring) (sealClient : SealClient K)
    (conversationId : jsstring) (participants : list jsstring)
    (originalMimeType : option jsstring)
    (sessionKey : option K) (txBytes : option Uint8Array)
  : outcome Blob :=
  rethrow "Failed to decrypt media: " (
    let blobUrl := WalrusService_getBlobUrl env blobId in
    await response <- fetch env blobUrl;
    if negb (ok response) then
      Thrown (Error (lit "Failed to download encrypted media from Walrus: "
                     ++ statusText response))
    else
    await encryptedBytes <- arrayBuffer response;
    let identity := snd (createConversationIdentity conversationId participants) in
    let finalSessionKey :=
      match sessionKey with
      | Some k => Supplied k
      | None => createSessionKey identity
      end in
    let finalTxBytes :=
      match txBytes with
      | Some t => t
      | None => createDecryptTransaction identity
      end in
    await decryptedData <-
      seal_decrypt sealClient encryptedBytes finalSessionKey finalTxBytes;
    (* the copies into a fresh Uint8Array and ArrayBuffer keep the bytes *)
    let mimeType :=
      or_else (default [] originalMimeType) (lit "application/octet-stream") in
    Resolved (new_Blob decryptedData mimeType)).

End Pipeline.

End MessageEncryption.

(* ===================================================================== *)
(** * Mentions: [utils/mentions]                                           *)
(* ===================================================================== *)

Module Mentions.

Import MessageEncryption.

(** The character class [[a-zA-Z0-9_]]. *)
Definition is_word (ch : N) : bool :=
  ((97 <=? ch) && (ch <=? 122)) || ((65 <=? ch) && (ch <=? 90))
  || ((48 <=? ch) && (ch <=? 57)) || (ch =? 95).

(** The longest run of word characters at the start of [s]: what the
    greedy [[a-zA-Z0-9_]+] takes. *)
Fixpoint word_run (s : list N) : list N :=
  match s with
  | ch :: rest => if is_word ch then ch :: word_run rest else []
  | [] => []
  end.

(** [text.match(/@([a-zA-Z0-9_]+|0x[a-fA-F0-9]+)/g)]: the matches from left
    to right, each search starting where the last match ended. At an [@]
    the first alternative takes the longest run of word characters; when
    that run is empty the second alternative, which needs a leading [0],
    fails too, and the search moves on by one character. *)
Equations? match_mentions (text : list N) : list (list N) by wf (length text) lt :=
  match_mentions [] := [];
  match_mentions (ch :: rest) with ch =? 64 => {
    | false := match_mentions rest
    | true with word_run rest => {
      | [] := match_mentions rest
      | c :: w := (ch :: c :: w) :: match_mentions (drop (length (c :: w)) rest) } }.
Proof. all: try rewrite length_drop; cbn; lia. Qed.

(** [[...new Set(items)]]: the items in the order of their first
    occurrence; [seen] is what the set already holds. *)
Fixpoint set_insertion_order (seen items : list (list N)) : list (list N) :=
  match items with
  | [] => []
  | x :: rest =>
      if bool_decide (x ∈ seen) then set_insertion_order seen rest
      else x :: set_insertion_order (x :: seen) rest
  end.

(** [match.substring(1)] *)
Definition substring1 (s : list N) : list N := drop 1 s.

Definition extractMentions (text : list N) : list (list N) :=
  match text with
  | [] => []                                        (* !text *)
  | _ :: _ =>
      let matches := match_mentions text in
      (* no match at all: [matches] is null, and the result is [] *)
      let mentions := map substring1 matches in
      set_insertion_order [] mentions
  end.

End Mentions.

(* ===================================================================== *)
(** * Vocabulary for the ledger                                             *)
(* ===================================================================== *)

Import Messaging.

(** The failure kinds of the specification, and the kind of each abort:
    [ECannotMessageSelf] is the self-conversation attempt, [ENotParticipant]
    the action by a non-member, and both [EInvalidBlobId] (blank blob
    reference) and [EMessageEmpty] (blank digest) are the blank-reference
    failure. *)
Inductive failure_kind : Type :=
| InvalidParticipant
| NotParticipant
| EmptyReference
| OtherFailure.

Definition kind_of (e : abort) : failure_kind :=
  match e with
  | ModuleAbort code =>
      if code =? ECannotMessageSelf then InvalidParticipant
      else if code =? ENotParticipant then NotParticipant
      else if (code =? EInvalidBlobId) || (code =? EMessageEmpty) then EmptyReference
      else OtherFailure
  | _ => OtherFailure
  end.

(** A conversation with one more message at the end of its sequence:
    what a successful append leaves. *)
Definition appended (c : Conversation) (m : Message) : Conversation :=
  mkConversation (uid c) (participant1 c) (participant2 c)
                 (messages c ++ [m]) (timestamp_ms m).

(** The conversation that [start_conversation] builds. *)
Definition fresh_conversation (i : ID) (A B : address) (now : u64) : Conversation :=
  mkConversation i A B [] now.

(** One append: who sends, the two references, and the clock. *)
Record Append : Type := mkAppend {
  by_sender : address;
  blob_ref : string;
  digest : list N;
  at_time : u64;
}.

Definition message_of_append (a : Append) : Message :=
  mkMessage (by_sender a) (blob_ref a) (digest a) (at_time a) false None.

(** The message at position [i] after [reader] has been marked as having
    read the positions from [lo] up to, not including, [hi]. *)
Definition read_by (reader : address) (lo hi : N) (i : nat) (m : Message) : Message :=
  if bool_decide (lo <= N.of_nat i < hi) && negb (bool_decide (sender m = reader))
  then set_is_read m else m.

(** The message sequence after [reader] has read up to [up_to_index]
    included. *)
Definition read_up_to (reader : address) (up_to_index : u64)
    (msgs : list Message) : list Message :=
  imap (fun i m =>
          if bool_decide (N.of_nat i <= up_to_index)
             && negb (bool_decide (sender m = reader))
          then set_is_read m else m) msgs.

(** The id the index holds for the ordered pair [(a, b)]. *)
Definition registered (registry : gmap N (gmap N N)) (a b : address) : option ID :=
  registry !! a ≫= fun inner => inner !! b.

(** The index with the entry [owner -> other -> i] added. *)
Definition with_direction (registry : gmap N (gmap N N)) (owner other : address)
    (i : ID) : gmap N (gmap N N) :=
  <[owner := <[other := i]> (default ∅ (registry !! owner))]> registry.

(** The index after a conversation [i] between [A] and [B] was created:
    one entry in each direction. *)
Definition created_registry (registry : gmap N (gmap N N)) (A B : address) (i : ID) :=
  with_direction (with_direction registry A B i) B A i.

(** [c] is a conversation between [A] and [B], in either order. *)
Definition same_pair (c : Conversation) (A B : address) : Prop :=
  (participant1 c = A /\ participant2 c = B)
  \/ (participant1 c = B /\ participant2 c = A).

Section LedgerVocabulary.

Context {GlobalRegistry : Type}.
Context (increment_messages : GlobalRegistry -> result GlobalRegistry).

(** A run of [send_message] transactions on one conversation, each in a
    context of its own; the run stops at the first abort. *)
Fixpoint send_messages (g : GlobalRegistry) (c : Conversation)
    (appends : list Append) : result (GlobalRegistry * Conversation) :=
  match appends with
  | [] => Ok (g, c)
  | a :: rest =>
      do (_, (g, c, _)) <-
         send_message increment_messages g c (blob_ref a) (digest a) (at_time a)
                      (mkTx (by_sender a) 0 [] []);
      send_messages g c rest
  end.

(** The ledger invariant: every shared conversation is stored under its own
    id, the id was drawn from the supply, its two participants differ, the
    index points to it in both directions, and the index points to nothing
    else. *)
Record consistent (l : @Ledger GlobalRegistry) : Prop := mkConsistent {
  stored_under_id :
    forall i c, conversations l !! i = Some c -> uid c = i;
  ids_used :
    forall i c, conversations l !! i = Some c -> i < next_id l;
  two_participants :
    forall i c, conversations l !! i = Some c -> participant1 c <> participant2 c;
  indexed_both_ways :
    forall i c, conversations l !! i = Some c ->
      registered (conversation_registry l) (participant1 c) (participant2 c) = Some i
      /\ registered (conversation_registry l) (participant2 c) (participant1 c) = Some i;
  index_sound :
    forall a b i, registered (conversation_registry l) a b = Some i ->
      exists c, conversations l !! i = Some c /\ same_pair c a b;
}.

End LedgerVocabulary.

(* ===================================================================== *)
(** * Vocabulary for the client pipeline                                   *)
(* ===================================================================== *)

Import MessageEncryption.

(** A Unicode scalar value: a code point that is not a surrogate. *)
Definition is_scalar (cp : N) : bool :=
  (cp <? 0x110000) && negb ((0xD800 <=? cp) && (cp <=? 0xDFFF)).

(** A well-formed string: every code unit is below [0x10000] and every
    surrogate is half of a pair. *)
Fixpoint well_formed (s : list N) : bool :=
  match s with
  | [] => true
  | u :: rest =>
      if is_high_surrogate u then
        match rest with
        | v :: rest' => is_low_surrogate v && well_formed rest'
        | [] => false
        end
      else negb (is_low_surrogate u) && (u <? 0x10000) && well_formed rest
  end.

(** The session key and the transaction bytes [decryptMessage] passes to
    the Seal client, given its optional arguments. *)
Definition finalSessionKey {K} (env : Env) (conversationId : list N)
    (participants : list (list N)) (sessionKey : option K) : SessionKey K :=
  match sessionKey with
  | Some k => Supplied k
  | None =>
      createSessionKey env (snd (createConversationIdentity conversationId participants))
  end.

Definition finalTxBytes (conversationId : list N)
    (participants : list (list N)) (txBytes : option (list N)) : list N :=
  match txBytes with
  | Some t => t
  | None =>
      createDecryptTransaction (snd (createConversationIdentity conversationId participants))
  end.

(** The blob store gives back what was stored: a blob id that an upload
    returned downloads, with an ok response, as the bytes of that upload. *)
Definition store_returns_stored (env : Env) : Prop :=
  forall (f : File) (id : list N),
    WalrusService_uploadFile env f = Resolved id ->
    exists r,
      fetch env (WalrusService_getBlobUrl env id) = Resolved r
      /\ ok r = true /\ arrayBuffer r = Resolved (file_bytes f).

(** Decryption inverts encryption for one conversation: what the client
    encrypts, as the pipeline does (threshold 2, this package), for the
    identity of [conversationId] and [participants], it decrypts back under
    the session key and the transaction bytes that [decryptMessage] uses when
    called with the same [conversationId] and [participants] (the ones
    supplied, or else the ones made from that identity). Nothing is asked
    about other identities. *)
Definition decrypt_inverts_encrypt {K} (env : Env) (sealClient : SealClient K)
    (conversationId : list N) (participants : list (list N))
    (sessionKey : option K) (txBytes : option (list N)) : Prop :=
  forall (data encrypted : list N),
    seal_encrypt sealClient 2 (PACKAGE_ID env)
      (snd (createConversationIdentity conversationId participants)) data
      = Resolved encrypted ->
    seal_decrypt sealClient encrypted
      (finalSessionKey env conversationId participants sessionKey)
      (finalTxBytes conversationId participants txBytes) = Resolved data.

(** ** A small world to run the pipeline in

    A digest that is a checksum, a cipher that reverses the bytes, and a
    blob store whose ids spell out the content. *)

Definition checksum32 (bytes : list N) : list N :=
  repeat (fold_right N.add 0 bytes mod 256) 32.

Definition blob_url_prefix : list N := lit "https://aggregator.example/v1/blobs/".

Definition sample_env : Env :=
  mkEnv (lit "0xpackage")
        (fun bytes => Resolved (checksum32 bytes))
        (fun f => Resolved (file_bytes f))
        (fun id => blob_url_prefix ++ id)
        (fun url => Resolved (mkResponse true (lit "OK")
                                (Resolved (drop (length blob_url_prefix) url)))).

Definition sample_seal : SealClient unit :=
  mkSealClient unit
    (fun _ _ _ data => Resolved (rev data))
    (fun data _ _ => Resolved (rev data)).

(** A cipher bound to the identity: the encrypted object carries the
    identity it was made for, and decryption wants a session key for that
    identity (a supplied key is the identity it was issued for). *)
Definition identity_of_key (key : SessionKey (list N)) : list N :=
  match key with
  | Supplied k => k
  | Simplified _ identity => identity
  end.

Definition sample_bound_seal : SealClient (list N) :=
  mkSealClient (list N)
    (fun _ _ id data => Resolved (id ++ 0 :: rev data))
    (fun data key _ =>
       let id := identity_of_key key in
       if bool_decide (take (S (length id)) data = id ++ [0])
       then Resolved (rev (drop (S (length id)) data))
       else Thrown (Error (lit "no access"))).

Definition sample_conversation : list N := lit "0xc1".
Definition sample_participants : list (list N) := [lit "0xbb"; lit "0xaa"].

(** The ledger's stand-in for [suitter::suitter]: a message counter. *)
Definition count_messages (g : N) : result N := u64_add g 1.

Definition alice : N := 0xaa.
Definition bob : N := 0xbb.
Definition carol : N := 0xcc.

(** The ledger after [alice] has started a conversation with [bob]; the
    conversation got id 1. *)
Definition sample_ledger : @Ledger N :=
  apply_tx count_messages (genesis 0) alice (StartConversation bob 1000).

(** Four messages, sent in turn by [alice] and [bob], all unread. *)
Definition sample_thread : Conversation :=
  mkConversation 1 alice bob
    [mkMessage alice "blob0" [0] 2000 false None;
     mkMessage bob "blob1" [1] 3000 false None;
     mkMessage alice "blob2" [2] 4000 false None;
     mkMessage bob "blob3" [3] 5000 false None]
    5000.

(* ===================================================================== *)
(** * More vocabulary                                                      *)
(* ===================================================================== *)

Import Mentions.

(** A JavaScript string: every code unit is below [0x10000]. *)
Definition valid_string (s : list N) : Prop := Forall (fun u => u < 0x10000) s.

(** An ASCII string: every code unit is below [0x80]. *)
Definition ascii_string (s : list N) : Prop := Forall (fun u => u < 0x80) s.

(** Lowercase hexadecimal digits: [0-9a-f]. *)
Definition is_hex_digit (c : N) : Prop := 48 <= c <= 57 \/ 97 <= c <= 102.

(** The hexadecimal rendering [createConversationIdentity] ends with. *)
Definition hex_of_bytes (bytes : list N) : list N :=
  concat (map (fun b => padStart0 2 (toString16 b)) bytes).

(** A string without the character [-]. *)
Definition dash_free (s : list N) : Prop := 45 ∉ s.

(** [a <= b] on strings: [b] is not before [a]. *)
Definition string_le (a b : list N) : Prop := string_lt b a = false.

(** [m] is mentioned in [text]: an [@], then [m], a non-empty run of word
    characters, and then the end of the text or a character that is not a
    word character. *)
Definition mentioned (text m : list N) : Prop :=
  exists pre post,
    text = pre ++ 64 :: m ++ post
    /\ m <> []
    /\ Forall (fun ch => is_word ch = true) m
    /\ (forall ch, head post = Some ch -> is_word ch = false).

(** [m'] is the message [m], possibly marked as read since. *)
Definition message_kept (m m' : Message) : Prop :=
  sender m' = sender m
  /\ encrypted_content_blob_id m' = encrypted_content_blob_id m
  /\ content_hash m' = content_hash m
  /\ timestamp_ms m' = timestamp_ms m
  /\ media_blob_id m' = media_blob_id m
  /\ (is_read m = true -> is_read m' = true).

(** [c'] is the conversation [c] later on: same id and participants, every
    message of [c] still at its index, possibly marked as read. *)
Definition history_kept (c c' : Conversation) : Prop :=
  uid c' = uid c
  /\ participant1 c' = participant1 c
  /\ participant2 c' = participant2 c
  /\ forall k m, messages c !! k = Some m ->
       exists m', messages c' !! k = Some m' /\ message_kept m m'.

(** The same messages, position by position, up to the read flags. *)
Definition same_messages (msgs msgs' : list Message) : Prop :=
  Forall2 message_kept msgs msgs'.

(** The other participant: the receiver that [send_message] names in its
    event. *)
Definition other_participant (c : Conversation) (s : N) : N :=
  if bool_decide (s = participant1 c) then participant2 c else participant1 c.

(** The [MessageSent] events of conversation [i], in log order. *)
Definition sent_events (i : N) (log : list Event) : list (N * N * N) :=
  omap (fun e => match e with
                 | MessageSent j from to ts =>
                     if bool_decide (j = i) then Some (from, to, ts) else None
                 | _ => None
                 end) log.

(** The [ConversationCreated] events of conversation [i], in log order. *)
Definition created_events (i : N) (log : list Event) : list (N * N) :=
  omap (fun e => match e with
                 | ConversationCreated j user1 user2 _ =>
                     if bool_decide (j = i) then Some (user1, user2) else None
                 | _ => None
                 end) log.

(** What the [MessageSent] event of a stored message says. *)
Definition sent_event_of (c : Conversation) (m : Message) : N * N * N :=
  (sender m, other_participant c (sender m), timestamp_ms m).

(** What a stored message always satisfies. *)
Definition sound_message (c : Conversation) (m : Message) : Prop :=
  (sender m = participant1 c \/ sender m = participant2 c)
  /\ encrypted_content_blob_id m <> ""
  /\ content_hash m <> []
  /\ media_blob_id m <> Some "".

(** What a stored conversation always satisfies: two different
    participants, sound messages, and the cached timestamp is that of the last
    message. *)
Definition sound_conversation (c : Conversation) : Prop :=
  participant1 c <> participant2 c
  /\ Forall (sound_message c) (messages c)
  /\ (forall m, last (messages c) = Some m ->
        last_message_timestamp_ms c = timestamp_ms m).

Section MoreLedgerVocabulary.

Context {GlobalRegistry : Type}.
Context (increment_messages : GlobalRegistry -> result GlobalRegistry).

Local Abbreviation Ledger := (@Ledger GlobalRegistry).
Local Abbreviation apply_tx := (apply_tx increment_messages).

(** The transactions of a list, one after the other. *)
Definition run_all (l : Ledger) (txs : list (N * Call)) : Ledger :=
  foldl (fun l tx => apply_tx l (fst tx) (snd tx)) l txs.

(** What one successful transaction does to the ledger: nothing, a new
    conversation, one more message, or read flags set. *)
Inductive tx_effect (l l' : Ledger) : Prop :=
| effect_none : l' = l -> tx_effect l l'
| effect_created A B clock :
    A <> B ->
    conversation_exists (conversation_registry l) A B = false ->
    conversation_registry l'
      = created_registry (conversation_registry l) A B (next_id l) ->
    conversations l'
      = <[next_id l := fresh_conversation (next_id l) A B clock]> (conversations l) ->
    event_log l' = event_log l ++ [ConversationCreated (next_id l) A B clock] ->
    next_id l < next_id l' ->
    tx_effect l l'
| effect_appended j c m :
    conversations l !! j = Some c ->
    is_participant c (sender m) = true ->
    encrypted_content_blob_id m <> "" -> content_hash m <> [] ->
    media_blob_id m <> Some "" -> is_read m = false ->
    conversation_registry l' = conversation_registry l ->
    conversations l' = <[uid c := appended c m]> (conversations l) ->
    event_log l'
      = event_log l ++ [MessageSent (uid c) (sender m)
                          (other_participant c (sender m)) (timestamp_ms m)] ->
    next_id l' = next_id l ->
    tx_effect l l'
| effect_marked j c c' :
    conversations l !! j = Some c ->
    uid c' = uid c -> participant1 c' = participant1 c ->
    participant2 c' = participant2 c ->
    last_message_timestamp_ms c' = last_message_timestamp_ms c ->
    same_messages (messages c) (messages c') ->
    conversation_registry l' = conversation_registry l ->
    conversations l' = <[uid c := c']> (conversations l) ->
    event_log l' = event_log l ->
    next_id l' = next_id l ->
    tx_effect l l'.

(** The event log tells, for every id, the messages and the creation of
    the conversation stored under it. *)
Definition log_mirrors (l : Ledger) : Prop :=
  forall i,
    sent_events i (event_log l)
    = match conversations l !! i with
      | Some c => sent_event_of c <$> messages c
      | None => []
      end
    /\ created_events i (event_log l)
       = match conversations l !! i with
         | Some c => [(participant1 c, participant2 c)]
         | None => []
         end.

End MoreLedgerVocabulary.

(** The sample ledger after three more transactions: a message from
    [alice], one with media from [bob], and [alice] reading. *)
Definition sample_transactions : list (N * Call) :=
  [(alice, SendMessage 1 "blob1" [1] 2000);
   (bob, SendMessageWithMedia 1 "blob2" [2] "media2" 3000);
   (alice, MarkMessagesAsRead 1 5)].

Definition sample_ledger_later : @Ledger N :=
  run_all count_messages sample_ledger sample_transactions.

Definition sample_media : MediaFile :=
  mkMediaFile (Resolved [137; 80; 78; 71]) (lit "cat.png") (lit "image/png").

(* ===================================================================== *)
(** * Facts about the ledger                                               *)
(* ===================================================================== *)

Section LedgerFacts.

Context {GlobalRegistry : Type}.
Context (increment_messages : GlobalRegistry -> result GlobalRegistry).

Local Abbreviation Ledger := (@Ledger GlobalRegistry).
Local Abbreviation execute := (execute increment_messages).
Local Abbreviation apply_tx := (apply_tx increment_messages).
Local Abbreviation send_message := (send_message increment_messages).
Local Abbreviation send_message_with_media :=
  (send_message_with_media increment_messages).

Lemma apply_tx_aborted (l : Ledger) sender call e :
  execute l sender call = Aborted e -> apply_tx l sender call = l.
Proof. unfold Messaging.apply_tx. by intros ->. Qed.

Lemma apply_tx_ok (l l' : Ledger) sender call :
  execute l sender call = Ok l' -> apply_tx l sender call = l'.
Proof. unfold Messaging.apply_tx. by intros ->. Qed.

(** ** Self-conversations *)

(** C9. Starting a conversation with oneself aborts with
    [ECannotMessageSelf] (the specification's InvalidParticipant) whatever
    the registry holds, and the transaction leaves the ledger (registry,
    conversations, events) as it was. *)
Theorem start_conversation_self_aborts :
  forall (l : Ledger) (A : address) (clock : u64),
    start_conversation (conversation_registry l) A clock (fresh_ctx l A)
      = Aborted (ModuleAbort ECannotMessageSelf)
    /\ kind_of (ModuleAbort ECannotMessageSelf) = InvalidParticipant
    /\ execute l A (StartConversation A clock)
      = Aborted (ModuleAbort ECannotMessageSelf)
    /\ apply_tx l A (StartConversation A clock) = l.
Proof.
  intros l A clock.
  assert (Hs : start_conversation (conversation_registry l) A clock (fresh_ctx l A)
               = Aborted (ModuleAbort ECannotMessageSelf)).
  { unfold start_conversation. cbn [fresh_ctx tx_sender].
    rewrite bool_decide_eq_true_2 by reflexivity. reflexivity. }
  assert (He : execute l A (StartConversation A clock)
               = Aborted (ModuleAbort ECannotMessageSelf)).
  { unfold Messaging.execute. rewrite Hs. reflexivity. }
  repeat split; try assumption.
  eapply apply_tx_aborted, He.
Qed.

(** ** Failures of [send_message] *)

Lemma is_participant_sender (c : Conversation) (a : address) :
  bool_decide (a = participant1 c) || bool_decide (a = participant2 c)
  = is_participant c a.
Proof.
  unfold is_participant.
  rewrite (bool_decide_ext (a = participant1 c) (participant1 c = a))
    by (split; congruence).
  rewrite (bool_decide_ext (a = participant2 c) (participant2 c = a))
    by (split; congruence).
  reflexivity.
Qed.

Lemma blob_length_positive (s : string) :
  (0 <? N.of_nat (String.length s)) = negb (bool_decide (s = "")).
Proof.
  destruct s as [|a s]; [reflexivity|].
  rewrite bool_decide_eq_false_2 by discriminate.
  cbn [String.length negb]. apply N.ltb_lt. lia.
Qed.

Lemma hash_length_positive (h : list N) :
  (0 <? vector_length h) = negb (bool_decide (h = [])).
Proof.
  destruct h as [|x h]; [reflexivity|].
  rewrite bool_decide_eq_false_2 by discriminate.
  unfold vector_length. cbn [length negb]. apply N.ltb_lt. lia.
Qed.

(** The first failing check decides the abort of [send_message]. *)
Lemma send_message_aborts g (c : Conversation) blob hash clock ctx :
  (is_participant c (tx_sender ctx) = false ->
   send_message g c blob hash clock ctx = Aborted (ModuleAbort ENotParticipant))
  /\ (is_participant c (tx_sender ctx) = true -> blob = "" ->
      send_message g c blob hash clock ctx = Aborted (ModuleAbort EInvalidBlobId))
  /\ (is_participant c (tx_sender ctx) = true -> blob <> "" -> hash = [] ->
      send_message g c blob hash clock ctx = Aborted (ModuleAbort EMessageEmpty)).
Proof.
  unfold Messaging.send_message.
  rewrite is_participant_sender, blob_length_positive, hash_length_positive.
  split; [|split].
  - intros ->. reflexivity.
  - intros -> ->. reflexivity.
  - intros -> Hb ->. rewrite bool_decide_eq_false_2 by assumption. reflexivity.
Qed.

(** C5. [send_message] by a sender who is neither participant aborts with
    [ENotParticipant]; with an empty blob id or an empty content hash it
    aborts, and the abort is the blank-reference failure ([EInvalidBlobId]
    for the blob id, [EMessageEmpty] for the hash) as soon as the sender is a
    participant: the participant check runs first, so a non-participant gets
    [ENotParticipant] there too. Whenever the transaction aborts, the ledger
    is unchanged: the conversation still has the same messages and the same
    [last_message_timestamp_ms]. *)
Theorem send_message_failure_modes :
  forall (l : Ledger) (sender : address) (i : ID) (c : Conversation)
         (blob : string) (hash : list N) (clock : u64),
    conversations l !! i = Some c ->
    let tx := SendMessage i blob hash clock in
    (is_participant c sender = false ->
       execute l sender tx = Aborted (ModuleAbort ENotParticipant)
       /\ kind_of (ModuleAbort ENotParticipant) = NotParticipant)
    /\ (blob = "" \/ hash = [] ->
        exists e, execute l sender tx = Aborted e
          /\ (if is_participant c sender
              then kind_of e = EmptyReference
                   /\ e = ModuleAbort (if bool_decide (blob = "")
                                       then EInvalidBlobId else EMessageEmpty)
              else kind_of e = NotParticipant))
    /\ (forall e, execute l sender tx = Aborted e ->
        apply_tx l sender tx = l
        /\ (messages <$> conversations (apply_tx l sender tx) !! i)
           = Some (messages c)
        /\ (last_message_timestamp_ms <$> conversations (apply_tx l sender tx) !! i)
           = Some (last_message_timestamp_ms c)).
Proof.
  intros l sender i c blob hash clock Hc tx.
  assert (Hx : execute l sender tx
               = do (_, (g, c, ctx)) <-
                    send_message (global_registry l) c blob hash clock
                                 (fresh_ctx l sender);
                 Ok (commit l (conversation_registry l) g (Some c) ctx)).
  { unfold tx, Messaging.execute, input_object. rewrite Hc. reflexivity. }
  destruct (send_message_aborts (global_registry l) c blob hash clock
              (fresh_ctx l sender)) as (Hn & Hb & Hh).
  cbn [fresh_ctx tx_sender] in Hn, Hb, Hh.
  split; [|split].
  - intros Hp. rewrite Hx, (Hn Hp). split; reflexivity.
  - intros Hempty. destruct (is_participant c sender) eqn:Hp.
    + destruct (decide (blob = "")) as [Hblob|Hblob].
      * exists (ModuleAbort EInvalidBlobId).
        rewrite Hx, (Hb eq_refl Hblob), bool_decide_eq_true_2 by assumption.
        repeat split.
      * destruct Hempty as [?|Hhash]; [contradiction|].
        exists (ModuleAbort EMessageEmpty).
        rewrite Hx, (Hh eq_refl Hblob Hhash), bool_decide_eq_false_2 by assumption.
        repeat split.
    + exists (ModuleAbort ENotParticipant). rewrite Hx, (Hn eq_refl).
      repeat split.
  - intros e He. rewrite (apply_tx_aborted _ _ _ _ He), Hc. repeat split.
Qed.

(** ** [send_message_with_media] *)

Lemma send_message_with_media_aborts g (c : Conversation) blob hash media clock ctx :
  is_participant c (tx_sender ctx) = true -> media = "" ->
  send_message_with_media g c blob hash media clock ctx
  = Aborted (ModuleAbort EInvalidBlobId).
Proof.
  unfold Messaging.send_message_with_media.
  rewrite is_participant_sender, !blob_length_positive.
  intros -> ->. destruct (bool_decide (blob = "")); reflexivity.
Qed.

(** C10. For a participant sender, [send_message_with_media] with an empty
    media blob id aborts with [EInvalidBlobId], whatever the content blob id
    and the content hash are (so also when both are non-empty), and the
    ledger is unchanged; with the three of them non-empty (and
    [increment_messages] not aborting) it appends one message, unread, whose
    [media_blob_id] is [Some media], and sets the last-message timestamp. *)
Theorem send_message_with_media_checks_media :
  forall (l : Ledger) (sender : address) (i : ID) (c : Conversation)
         (blob : string) (hash : list N) (media : string) (clock : u64),
    conversations l !! i = Some c ->
    is_participant c sender = true ->
    let g := global_registry l in
    let ctx := fresh_ctx l sender in
    let tx := SendMessageWithMedia i blob hash media clock in
    (media = "" ->
       send_message_with_media g c blob hash media clock ctx
         = Aborted (ModuleAbort EInvalidBlobId)
       /\ execute l sender tx = Aborted (ModuleAbort EInvalidBlobId)
       /\ apply_tx l sender tx = l)
    /\ (blob <> "" -> hash <> [] -> media <> "" ->
        forall g', increment_messages g = Ok g' ->
        exists c' ctx',
          send_message_with_media g c blob hash media clock ctx
            = Ok (tt, (g', c', ctx'))
          /\ execute l sender tx
            = Ok (commit l (conversation_registry l) g' (Some c') ctx')
          /\ c' = appended c (mkMessage sender blob hash clock false (Some media))).
Proof.
  intros l sender i c blob hash media clock Hc Hp g ctx tx.
  assert (Hx : execute l sender tx
               = do (_, (g, c, ctx)) <-
                    send_message_with_media g c blob hash media clock ctx;
                 Ok (commit l (conversation_registry l) g (Some c) ctx)).
  { unfold tx, Messaging.execute, input_object. rewrite Hc. reflexivity. }
  split.
  - intros Hm.
    assert (Ha : send_message_with_media g c blob hash media clock ctx
                 = Aborted (ModuleAbort EInvalidBlobId))
      by (apply send_message_with_media_aborts; assumption).
    assert (He : execute l sender tx = Aborted (ModuleAbort EInvalidBlobId))
      by (rewrite Hx, Ha; reflexivity).
    repeat split; try assumption. eapply apply_tx_aborted, He.
  - intros Hb Hh Hm g' Hg.
    rewrite Hx. unfold Messaging.send_message_with_media.
    rewrite is_participant_sender.
    replace (is_participant c (tx_sender ctx)) with true.
    rewrite !blob_length_positive, hash_length_positive.
    rewrite !bool_decide_eq_false_2 by assumption. cbn [negb assert bind].
    rewrite Hg. cbn [bind]. do 2 eexists. repeat split.
Qed.

(** ** Read state *)

Lemma mark_messages_as_read_helper_unfold_1 msgs reader index end_index :
  mark_messages_as_read_helper msgs reader index end_index =
  if decide (end_index <= index) then Ok msgs
  else do msgs' <- mark_at msgs reader index;
       if decide (index + 1 <= MAX_U64)
       then mark_messages_as_read_helper msgs' reader (index + 1) end_index
       else Aborted ArithmeticError.
Proof.
  rewrite mark_messages_as_read_helper_equation_1.
  destruct (decide (end_index <= index)); simp mark_messages_as_read_helper; [reflexivity|].
  destruct (mark_at msgs reader index); simp mark_messages_as_read_helper; [|reflexivity].
  cbn [bind].
  destruct (decide (index + 1 <= MAX_U64)); simp mark_messages_as_read_helper; reflexivity.
Qed.

Lemma mark_at_spec msgs reader index :
  index < vector_length msgs ->
  mark_at msgs reader index = Ok (imap (read_by reader index (index + 1)) msgs).
Proof.
  unfold vector_length, mark_at. intros Hi.
  destruct (msgs !! N.to_nat index) as [m|] eqn:Hm.
  2:{ apply lookup_ge_None in Hm. exfalso. lia. }
  assert (Heq : imap (read_by reader index (index + 1)) msgs
          = <[N.to_nat index := read_by reader index (index+1) (N.to_nat index) m]> msgs).
  { apply list_eq. intros j. rewrite list_lookup_imap.
    destruct (decide (j = N.to_nat index)) as [->|Hj].
    - rewrite list_lookup_insert_eq by (apply lookup_lt_Some in Hm; lia).
      rewrite Hm. reflexivity.
    - rewrite list_lookup_insert_ne by congruence.
      destruct (msgs !! j) as [m'|]; [|reflexivity]. cbn.
      unfold read_by.
      rewrite (bool_decide_eq_false_2 (index <= N.of_nat j < index + 1)) by lia.
      reflexivity. }
  rewrite Heq. unfold read_by.
  rewrite (bool_decide_eq_true_2 (index <= N.of_nat (N.to_nat index) < index + 1)) by lia.
  cbn [andb].
  destruct (negb (bool_decide (sender m = reader))); [reflexivity|].
  rewrite list_insert_id by assumption. reflexivity.
Qed.

Lemma read_by_compose reader lo mid hi i m :
  lo <= mid <= hi ->
  read_by reader mid hi i (read_by reader lo mid i m) = read_by reader lo hi i m.
Proof.
  intros H. unfold read_by.
  destruct (bool_decide (sender m = reader)) eqn:Hs; cbn [negb andb].
  - rewrite !andb_false_r. rewrite Hs. rewrite !andb_false_r. reflexivity.
  - rewrite !andb_true_r.
    destruct (bool_decide (lo <= N.of_nat i < mid)) eqn:H1;
    destruct (bool_decide (mid <= N.of_nat i < hi)) eqn:H2;
    destruct (bool_decide (lo <= N.of_nat i < hi)) eqn:H3;
    cbn [set_is_read sender]; rewrite ?Hs; cbn [negb andb]; try reflexivity;
    try (apply bool_decide_eq_true_1 in H1); try (apply bool_decide_eq_true_1 in H2);
    try (apply bool_decide_eq_true_1 in H3); try (apply bool_decide_eq_false_1 in H1);
    try (apply bool_decide_eq_false_1 in H2); try (apply bool_decide_eq_false_1 in H3);
    exfalso; lia.
Qed.

Lemma mark_messages_as_read_helper_spec (n : nat) : forall msgs reader index end_index,
  N.to_nat (end_index - index) = n ->
  index <= end_index ->
  end_index <= vector_length msgs ->
  end_index <= MAX_U64 ->
  mark_messages_as_read_helper msgs reader index end_index
  = Ok (imap (read_by reader index end_index) msgs).
Proof.
  induction n as [|n IH]; intros msgs reader index end_index Hn Hle Hlen Hmax;
    rewrite mark_messages_as_read_helper_unfold_1.
  - rewrite decide_True by lia. f_equal.
    apply list_eq. intros j. rewrite list_lookup_imap.
    destruct (msgs !! j) as [m|]; [|reflexivity]. cbn. f_equal.
    unfold read_by. rewrite bool_decide_eq_false_2 by lia. reflexivity.
  - rewrite decide_False by lia.
    rewrite mark_at_spec by lia. cbn [bind].
    rewrite decide_True by lia.
    rewrite (IH _ reader (index + 1) end_index); try lia.
    + f_equal. apply list_eq. intros j. rewrite !list_lookup_imap.
      destruct (msgs !! j) as [m|]; [|reflexivity]. cbn. f_equal.
      apply read_by_compose. lia.
    + unfold vector_length in *. rewrite length_imap. lia.
Qed.

Lemma set_is_read_idem (m : Message) : set_is_read (set_is_read m) = set_is_read m.
Proof. reflexivity. Qed.

Lemma read_by_from_start reader up_to_index (msgs : list Message) :
  imap (read_by reader 0
          (if vector_length msgs <=? up_to_index
           then vector_length msgs else up_to_index + 1)) msgs
  = read_up_to reader up_to_index msgs.
Proof.
  unfold read_up_to, read_by, vector_length. apply imap_ext. intros i m Hi.
  apply lookup_lt_Some in Hi.
  destruct (N.leb_spec (N.of_nat (length msgs)) up_to_index).
  - rewrite (bool_decide_eq_true_2 (0 <= N.of_nat i < N.of_nat (length msgs))) by lia.
    rewrite (bool_decide_eq_true_2 (N.of_nat i <= up_to_index)) by lia.
    reflexivity.
  - destruct (decide (N.of_nat i <= up_to_index)).
    + rewrite (bool_decide_eq_true_2 (0 <= N.of_nat i < up_to_index + 1)) by lia.
      rewrite (bool_decide_eq_true_2 (N.of_nat i <= up_to_index)) by lia.
      reflexivity.
    + rewrite (bool_decide_eq_false_2 (0 <= N.of_nat i < up_to_index + 1)) by lia.
      rewrite (bool_decide_eq_false_2 (N.of_nat i <= up_to_index)) by lia.
      reflexivity.
Qed.

Lemma read_up_to_absorbs reader j up_to_index (msgs : list Message) :
  j <= up_to_index ->
  read_up_to reader j (read_up_to reader up_to_index msgs)
  = read_up_to reader up_to_index msgs.
Proof.
  intros Hj. unfold read_up_to. apply list_eq. intros i.
  rewrite !list_lookup_imap. destruct (msgs !! i) as [m|]; [|reflexivity].
  cbn. f_equal.
  destruct (bool_decide (sender m = reader)) eqn:Hs; cbn [negb].
  - rewrite !andb_false_r, Hs, andb_false_r. reflexivity.
  - rewrite !andb_true_r.
    destruct (decide (N.of_nat i <= up_to_index)).
    + rewrite (bool_decide_eq_true_2 (N.of_nat i <= up_to_index)) by assumption.
      cbn [set_is_read sender]. rewrite Hs.
      destruct (bool_decide (N.of_nat i <= j)); reflexivity.
    + rewrite (bool_decide_eq_false_2 (N.of_nat i <= up_to_index)) by assumption.
      rewrite Hs, bool_decide_eq_false_2 by lia. reflexivity.
Qed.

(** What [mark_messages_as_read] computes for a participant. *)
Lemma mark_messages_as_read_computes (c : Conversation) up_to_index ctx :
  is_participant c (tx_sender ctx) = true ->
  vector_length (messages c) <= MAX_U64 ->
  mark_messages_as_read c up_to_index ctx
  = Ok (tt, mkConversation (uid c) (participant1 c) (participant2 c)
              (read_up_to (tx_sender ctx) up_to_index (messages c))
              (last_message_timestamp_ms c)).
Proof.
  intros Hp Hlen. unfold mark_messages_as_read.
  rewrite is_participant_sender, Hp. cbn [assert bind].
  set (end_index := if vector_length (messages c) <=? up_to_index
                    then vector_length (messages c) else up_to_index + 1).
  assert (Hend : (if vector_length (messages c) <=? up_to_index
                  then Ok (vector_length (messages c))
                  else u64_add up_to_index 1) = Ok end_index).
  { unfold end_index, u64_add.
    destruct (N.leb_spec (vector_length (messages c)) up_to_index); [reflexivity|].
    rewrite decide_True by lia. reflexivity. }
  rewrite Hend. cbn [bind].
  rewrite (mark_messages_as_read_helper_spec (N.to_nat (end_index - 0)));
    try reflexivity.
  - cbn [bind]. unfold end_index. rewrite read_by_from_start. reflexivity.
  - lia.
  - unfold end_index.
    destruct (N.leb_spec (vector_length (messages c)) up_to_index); lia.
  - unfold end_index.
    destruct (N.leb_spec (vector_length (messages c)) up_to_index); lia.
Qed.

(** C4. For a participant [reader], [mark_messages_as_read] never aborts,
    whatever [up_to_index] is (also beyond the end of the sequence). It
    leaves the conversation's id, participants, timestamp and number of
    messages as they were, and of each message every field but [is_read];
    [is_read] becomes [true] exactly at the positions [0 .. min(up_to_index,
    last index)] whose sender is not the reader and keeps its value
    elsewhere. A second call with the same or a smaller index changes
    nothing. *)
Theorem mark_messages_as_read_spec :
  forall (c : Conversation) (up_to_index : u64) (ctx : TxContext),
    is_participant c (tx_sender ctx) = true ->
    vector_length (messages c) <= MAX_U64 ->
    exists c',
      mark_messages_as_read c up_to_index ctx = Ok (tt, c')
      /\ uid c' = uid c
      /\ participant1 c' = participant1 c
      /\ participant2 c' = participant2 c
      /\ last_message_timestamp_ms c' = last_message_timestamp_ms c
      /\ length (messages c') = length (messages c)
      /\ (forall (i : nat) (m : Message),
            messages c !! i = Some m ->
            exists m',
              messages c' !! i = Some m'
              /\ sender m' = sender m
              /\ encrypted_content_blob_id m' = encrypted_content_blob_id m
              /\ content_hash m' = content_hash m
              /\ timestamp_ms m' = timestamp_ms m
              /\ media_blob_id m' = media_blob_id m
              /\ is_read m'
                 = if bool_decide
                        (N.of_nat i
                         <= N.min up_to_index (vector_length (messages c) - 1))
                      && negb (bool_decide (sender m = tx_sender ctx))
                   then true else is_read m)
      /\ (forall j : u64,
            j <= up_to_index -> mark_messages_as_read c' j ctx = Ok (tt, c')).
Proof.
  intros c up_to_index ctx Hp Hlen.
  eexists. split; [apply mark_messages_as_read_computes; assumption|].
  cbn [uid participant1 participant2 last_message_timestamp_ms messages].
  do 4 (split; [reflexivity|]).
  split; [apply length_imap|]. split.
  - intros i m Hi. unfold read_up_to. rewrite list_lookup_imap, Hi. cbn.
    eexists. split; [reflexivity|].
    assert (Hb : bool_decide
                   (N.of_nat i <= N.min up_to_index (vector_length (messages c) - 1))
                 = bool_decide (N.of_nat i <= up_to_index)).
    { apply lookup_lt_Some in Hi. unfold vector_length.
      apply bool_decide_ext. lia. }
    rewrite Hb.
    destruct (bool_decide (N.of_nat i <= up_to_index)
              && negb (bool_decide (sender m = tx_sender ctx)));
      repeat split.
  - intros j Hj. rewrite mark_messages_as_read_computes.
    + cbn [uid participant1 participant2 last_message_timestamp_ms messages].
      rewrite read_up_to_absorbs by assumption. reflexivity.
    + exact Hp.
    + cbn [messages]. unfold vector_length, read_up_to in *.
      rewrite length_imap. exact Hlen.
Qed.

(** ** Appending *)

(** One successful [send_message]: the new message goes to the position
    that was the length of the sequence, nothing before it moves, and the
    cached timestamp is the message's. The entry function returns the unit
    value. *)
Lemma send_message_appends g (c : Conversation) blob hash clock ctx r g' c' ctx' :
  send_message g c blob hash clock ctx = Ok (r, (g', c', ctx')) ->
  r = tt
  /\ c' = appended c (mkMessage (tx_sender ctx) blob hash clock false None)
  /\ is_participant c (tx_sender ctx) = true
  /\ blob <> "" /\ hash <> []
  /\ increment_messages g = Ok g'.
Proof.
  unfold Messaging.send_message.
  rewrite is_participant_sender, blob_length_positive, hash_length_positive.
  destruct (is_participant c (tx_sender ctx)); [|discriminate].
  destruct (bool_decide (blob = "")) eqn:Hb; [discriminate|].
  destruct (bool_decide (hash = [])) eqn:Hh; [discriminate|].
  cbn [assert negb bind].
  destruct (increment_messages g) as [g''|]; [|discriminate].
  cbn [bind]. intros [= <- <- <- <-].
  apply bool_decide_eq_false_1 in Hb, Hh. repeat split; assumption.
Qed.

Lemma send_messages_from g (c : Conversation) appends g' c' :
  send_messages increment_messages g c appends = Ok (g', c') ->
  uid c' = uid c
  /\ participant1 c' = participant1 c
  /\ participant2 c' = participant2 c
  /\ messages c' = messages c ++ (message_of_append <$> appends)
  /\ last_message_timestamp_ms c'
     = default (last_message_timestamp_ms c) (last (at_time <$> appends)).
Proof.
  revert g c. induction appends as [|a rest IH]; intros g c.
  - intros [= <- <-]. rewrite app_nil_r. repeat split.
  - cbn [send_messages].
    destruct (send_message g c (blob_ref a) (digest a) (at_time a)
                (mkTx (by_sender a) 0 [] [])) as [[r [[g1 c1] ctx1]]|] eqn:Hs;
      [|discriminate].
    cbn [bind]. intros Hrest.
    apply send_message_appends in Hs as (_ & -> & _).
    apply IH in Hrest as (Hu & H1 & H2 & Hm & Ht).
    cbn [appended uid participant1 participant2 messages
         last_message_timestamp_ms timestamp_ms tx_sender] in *.
    rewrite Hu, H1, H2, Hm, Ht. repeat split.
    + rewrite <- app_assoc. reflexivity.
    + rewrite fmap_cons. destruct rest as [|b rest']; [reflexivity|].
      rewrite fmap_cons, last_cons_cons.
      destruct (last (at_time b :: (at_time <$> rest'))) eqn:Hl; [reflexivity|].
      apply last_None in Hl. discriminate.
Qed.

(** C6 (as the code has it). Take the conversation [start_conversation]
    builds for [A] and [B] and run N [send_message] transactions on it, all
    succeeding. Then the conversation holds exactly the N messages, in the
    order of the appends, each unread and without media; the k-th append put
    its message at index k, the length of the sequence before it;
    [last_message_timestamp_ms] is the clock of the last append (the
    creation time when N = 0); id and participants are unchanged. The entry
    function returns no value: what it returns is the unit value. *)
Theorem send_messages_in_order :
  forall (g : GlobalRegistry) (i : ID) (A B : address) (now : u64)
         (appends : list Append) (g' : GlobalRegistry) (c' : Conversation),
    send_messages increment_messages g (fresh_conversation i A B now) appends
      = Ok (g', c') ->
    get_messages c' = message_of_append <$> appends
    /\ length (get_messages c') = length appends
    /\ (forall (k : nat) (a : Append),
          appends !! k = Some a ->
          get_messages c' !! k = Some (message_of_append a))
    /\ get_last_message_timestamp c' = default now (last (at_time <$> appends))
    /\ get_participants c' = (A, B)
    /\ uid c' = i
    /\ (forall g0 c0 blob hash clock ctx r g1 c1 ctx1,
          send_message g0 c0 blob hash clock ctx = Ok (r, (g1, c1, ctx1)) ->
          r = tt
          /\ messages c1 !! length (messages c0)
             = Some (mkMessage (tx_sender ctx) blob hash clock false None)
          /\ length (messages c1) = S (length (messages c0))
          /\ (forall k m, messages c0 !! k = Some m -> messages c1 !! k = Some m)
          /\ last_message_timestamp_ms c1 = clock).
Proof.
  intros g i A B now appends g' c' Hrun.
  unfold get_messages, get_last_message_timestamp.
  apply send_messages_from in Hrun as (Hu & H1 & H2 & Hm & Ht).
  cbn [fresh_conversation uid participant1 participant2 messages
       last_message_timestamp_ms app] in *.
  split; [exact Hm|]. split; [rewrite Hm; apply length_fmap|].
  split; [intros k a Hk; rewrite Hm, list_lookup_fmap, Hk; reflexivity|].
  split; [exact Ht|]. split; [unfold get_participants; congruence|].
  split; [exact Hu|].
  intros g0 c0 blob hash clock ctx r g1 c1 ctx1 Hs.
  apply send_message_appends in Hs as (-> & -> & _).
  cbn [appended messages last_message_timestamp_ms timestamp_ms].
  split; [reflexivity|]. split; [apply list_lookup_middle; reflexivity|].
  split; [rewrite length_app; cbn; lia|].
  split; [|reflexivity].
  intros k m Hk. apply lookup_app_l_Some. exact Hk.
Qed.

(** ** The conversation index *)

Lemma table_contains_Some {V} (t : gmap N V) k v :
  t !! k = Some v -> table_contains t k = true.
Proof. intros H. unfold table_contains. apply bool_decide_eq_true_2. eauto. Qed.

Lemma table_contains_None {V} (t : gmap N V) k :
  t !! k = None -> table_contains t k = false.
Proof.
  intros H. unfold table_contains. apply bool_decide_eq_false_2.
  rewrite H. intros [? [=]].
Qed.

Lemma direction_found (registry : gmap N (gmap N N)) a b :
  (if table_contains registry a then
     match registry !! a with
     | Some inner => table_contains inner b
     | None => false
     end
   else false) = bool_decide (is_Some (registered registry a b)).
Proof.
  unfold registered.
  destruct (registry !! a) as [inner|] eqn:Ha; cbn.
  - rewrite (table_contains_Some _ _ _ Ha). reflexivity.
  - rewrite (table_contains_None _ _ Ha). reflexivity.
Qed.

Lemma conversation_exists_registered (registry : gmap N (gmap N N)) a b :
  conversation_exists registry a b
  = bool_decide (is_Some (registered registry a b))
    || bool_decide (is_Some (registered registry b a)).
Proof.
  unfold conversation_exists. rewrite !direction_found.
  destruct (bool_decide (is_Some (registered registry a b))); [reflexivity|].
  destruct (bool_decide (is_Some (registered registry b a))); reflexivity.
Qed.

Lemma get_conversation_id_registered (registry : gmap N (gmap N N)) a b :
  get_conversation_id registry a b
  = match registered registry a b with
    | Some i => Some i
    | None => registered registry b a
    end.
Proof.
  assert (H : forall x y,
    (if table_contains registry x then
       match registry !! x with
       | Some inner => if table_contains inner y then inner !! y else None
       | None => None
       end
     else None) = registered registry x y).
  { intros x y. unfold registered.
    destruct (registry !! x) as [inner|] eqn:Hx; cbn.
    - rewrite (table_contains_Some _ _ _ Hx).
      destruct (inner !! y) eqn:Hy.
      + rewrite (table_contains_Some _ _ _ Hy). reflexivity.
      + rewrite (table_contains_None _ _ Hy). reflexivity.
    - rewrite (table_contains_None _ _ Hx). reflexivity. }
  unfold get_conversation_id, get_conversation_id_helper. rewrite !H.
  reflexivity.
Qed.

Lemma registered_with_direction registry owner other i a b :
  registered (with_direction registry owner other i) a b
  = if decide (a = owner /\ b = other) then Some i else registered registry a b.
Proof.
  unfold registered, with_direction.
  destruct (decide (a = owner)) as [->|Ha].
  - rewrite lookup_insert_eq. cbn.
    destruct (decide (b = other)) as [->|Hb].
    + rewrite lookup_insert_eq, decide_True by done. reflexivity.
    + rewrite lookup_insert_ne by done. rewrite decide_False by (intros [? ?]; congruence).
      destruct (registry !! owner); [reflexivity|]. cbn. apply lookup_empty.
  - rewrite lookup_insert_ne by done. rewrite decide_False by (intros [? ?]; congruence).
    reflexivity.
Qed.

Lemma add_direction_computes registry owner other i ctx :
  registered registry owner other = None ->
  add_direction registry owner other i ctx
  = Ok (with_direction registry owner other i,
        if table_contains registry owner then ctx else snd (object_new ctx)).
Proof.
  unfold registered, add_direction, with_direction. intros Hr.
  destruct (registry !! owner) as [inner|] eqn:Ho; cbn in Hr.
  - rewrite (table_contains_Some _ _ _ Ho). cbn [negb bind].
    unfold table_borrow. rewrite Ho. cbn [bind]. unfold table_add. rewrite Hr.
    reflexivity.
  - rewrite (table_contains_None _ _ Ho). cbn [negb object_new].
    unfold table_add at 1. rewrite Ho. cbn [bind].
    unfold table_borrow. rewrite lookup_insert_eq. cbn [bind].
    unfold table_add. rewrite lookup_empty. cbn [bind default snd].
    rewrite insert_insert_eq. reflexivity.
Qed.

Lemma start_conversation_found registry other clock ctx :
  tx_sender ctx <> other ->
  conversation_exists registry (tx_sender ctx) other = true ->
  start_conversation registry other clock ctx = Ok (tt, (registry, ctx)).
Proof.
  intros Hne Hex. unfold start_conversation.
  rewrite bool_decide_eq_false_2 by assumption. cbn [negb assert bind].
  rewrite Hex. reflexivity.
Qed.

Lemma start_conversation_creates registry other clock ctx :
  tx_sender ctx <> other ->
  conversation_exists registry (tx_sender ctx) other = false ->
  exists ctx',
    start_conversation registry other clock ctx
    = Ok (tt, (created_registry registry (tx_sender ctx) other (ids_created ctx), ctx'))
    /\ tx_sender ctx' = tx_sender ctx
    /\ ids_created ctx < ids_created ctx'
    /\ emitted ctx'
       = emitted ctx ++ [ConversationCreated (ids_created ctx) (tx_sender ctx) other clock]
    /\ shared ctx'
       = shared ctx ++ [mkConversation (ids_created ctx) (tx_sender ctx) other [] clock].
Proof.
  intros Hne Hex. unfold start_conversation.
  rewrite bool_decide_eq_false_2 by assumption. cbn [negb assert bind].
  rewrite Hex. rewrite conversation_exists_registered in Hex.
  apply orb_false_iff in Hex as [H1 H2].
  apply bool_decide_eq_false_1 in H1, H2.
  rewrite <- eq_None_not_Some in H1, H2.
  cbn [object_new uid tx_sender].
  rewrite add_direction_computes by assumption. cbn [bind].
  rewrite add_direction_computes.
  2:{ rewrite registered_with_direction, decide_False by (intros [? ?]; congruence).
      assumption. }
  cbn [bind]. eexists. split; [reflexivity|].
  cbn [share_object emit tx_sender ids_created emitted shared].
  destruct (table_contains (with_direction registry (tx_sender ctx) other (ids_created ctx)) other),
    (table_contains registry (tx_sender ctx));
    cbn [object_new snd tx_sender ids_created emitted shared];
    repeat split; lia.
Qed.

Lemma consistent_genesis (g : GlobalRegistry) : consistent (genesis g).
Proof.
  split; cbn; intros *; rewrite lookup_empty; discriminate.
Qed.

Lemma registered_symmetric (l : Ledger) a b i :
  consistent l ->
  registered (conversation_registry l) a b = Some i ->
  registered (conversation_registry l) b a = Some i.
Proof.
  intros Hl Hab. destruct (index_sound l Hl a b i Hab) as (c & Hc & Hp).
  destruct (indexed_both_ways l Hl i c Hc) as [H1 H2].
  destruct Hp as [[<- <-]|[<- <-]]; assumption.
Qed.

Lemma one_conversation_per_pair (l : Ledger) i j c1 c2 :
  consistent l ->
  conversations l !! i = Some c1 -> conversations l !! j = Some c2 ->
  same_pair c2 (participant1 c1) (participant2 c1) ->
  i = j.
Proof.
  intros Hl H1 H2 Hp.
  destruct (indexed_both_ways l Hl i c1 H1) as [Ha Hb].
  destruct (indexed_both_ways l Hl j c2 H2) as [Hc Hd].
  destruct Hp as [[E1 E2]|[E1 E2]]; rewrite E1, E2 in *; congruence.
Qed.

Lemma consistent_touch (l : Ledger) i c c' g ctx :
  consistent l ->
  conversations l !! i = Some c ->
  uid c' = uid c -> participant1 c' = participant1 c ->
  participant2 c' = participant2 c ->
  shared ctx = [] -> ids_created ctx = next_id l ->
  consistent (commit l (conversation_registry l) g (Some c') ctx).
Proof.
  intros Hl Hc Hu H1 H2 Hs Hn.
  assert (Hi : uid c' = i) by (rewrite Hu; eapply stored_under_id; eauto).
  unfold commit. rewrite Hs, Hn, Hi. cbn [share_all foldl].
  split; cbn [conversations next_id conversation_registry].
  - intros k d. rewrite lookup_insert. case_decide as Hk.
    + intros [= <-]. congruence.
    + by apply stored_under_id.
  - intros k d. rewrite lookup_insert. case_decide as Hk.
    + intros _. subst k. eapply ids_used; eauto.
    + by apply ids_used.
  - intros k d. rewrite lookup_insert. case_decide as Hk.
    + intros [= <-]. rewrite H1, H2. eapply two_participants; eauto.
    + by apply two_participants.
  - intros k d. rewrite lookup_insert. case_decide as Hk.
    + intros [= <-]. subst k. rewrite H1, H2. eapply indexed_both_ways; eauto.
    + by apply indexed_both_ways.
  - intros a b k Hk. destruct (index_sound l Hl a b k Hk) as (d & Hd & Hp).
    rewrite lookup_insert. case_decide as Hik.
    + subst k. exists c'. split; [reflexivity|].
      assert (d = c) by congruence. subst d.
      unfold same_pair in *. rewrite H1, H2. exact Hp.
    + exists d. split; assumption.
Qed.

Lemma consistent_create (l : Ledger) A B clock g ctx' :
  consistent l -> A <> B ->
  conversation_exists (conversation_registry l) A B = false ->
  next_id l < ids_created ctx' ->
  shared ctx' = [mkConversation (next_id l) A B [] clock] ->
  consistent (commit l (created_registry (conversation_registry l) A B (next_id l))
                     g None ctx').
Proof.
  intros Hl Hne Hex Hn Hs.
  rewrite conversation_exists_registered in Hex.
  apply orb_false_iff in Hex as [HAB HBA].
  apply bool_decide_eq_false_1 in HAB, HBA.
  rewrite <- eq_None_not_Some in HAB, HBA.
  assert (Hreg : forall a b,
    registered (created_registry (conversation_registry l) A B (next_id l)) a b
    = if decide ((a = A /\ b = B) \/ (a = B /\ b = A)) then Some (next_id l)
      else registered (conversation_registry l) a b).
  { intros a b. unfold created_registry. rewrite !registered_with_direction.
    repeat case_decide; try reflexivity; exfalso; intuition congruence. }
  assert (Hfresh : conversations l !! next_id l = None).
  { destruct (conversations l !! next_id l) as [d|] eqn:Hd; [|reflexivity].
    apply (ids_used l Hl) in Hd. lia. }
  unfold commit. rewrite Hs. cbn [share_all foldl uid].
  split; cbn [conversations next_id conversation_registry].
  - intros k d. rewrite lookup_insert. case_decide as Hk.
    + intros [= <-]. exact Hk.
    + by apply stored_under_id.
  - intros k d. rewrite lookup_insert. case_decide as Hk.
    + intros _. lia.
    + intros Hd. apply (ids_used l Hl) in Hd. lia.
  - intros k d. rewrite lookup_insert. case_decide as Hk.
    + intros [= <-]. exact Hne.
    + by apply two_participants.
  - intros k d. rewrite lookup_insert. case_decide as Hk.
    + intros [= <-]. cbn [participant1 participant2]. rewrite !Hreg.
      rewrite !decide_True by (intuition congruence). subst k. done.
    + intros Hd. destruct (indexed_both_ways l Hl k d Hd) as [H1 H2].
      rewrite !Hreg.
      rewrite !decide_False; [done| |]; intros [[E1 E2]|[E1 E2]];
        rewrite E1, E2 in *; congruence.
  - intros a b k. rewrite Hreg. case_decide as Hab.
    + intros [= <-]. rewrite lookup_insert_eq. eexists. split; [reflexivity|].
      unfold same_pair. cbn. intuition congruence.
    + intros Hk. destruct (index_sound l Hl a b k Hk) as (d & Hd & Hp).
      exists d. split; [|exact Hp].
      rewrite lookup_insert_ne; [exact Hd|].
      intros <-. congruence.
Qed.

Lemma send_message_frame g (c : Conversation) blob hash clock ctx r g' c' ctx' :
  send_message g c blob hash clock ctx = Ok (r, (g', c', ctx')) ->
  uid c' = uid c /\ participant1 c' = participant1 c
  /\ participant2 c' = participant2 c
  /\ shared ctx' = shared ctx /\ ids_created ctx' = ids_created ctx.
Proof.
  unfold Messaging.send_message.
  repeat match goal with
         | |- context [assert ?b ?e] => destruct b; cbn [assert bind]; [|discriminate]
         end.
  destruct (increment_messages g); cbn [bind]; [|discriminate].
  intros [= <- <- <- <-]. repeat split.
Qed.

Lemma send_message_with_media_frame g (c : Conversation) blob hash media clock
    ctx r g' c' ctx' :
  send_message_with_media g c blob hash media clock ctx = Ok (r, (g', c', ctx')) ->
  uid c' = uid c /\ participant1 c' = participant1 c
  /\ participant2 c' = participant2 c
  /\ shared ctx' = shared ctx /\ ids_created ctx' = ids_created ctx.
Proof.
  unfold Messaging.send_message_with_media.
  repeat match goal with
         | |- context [assert ?b ?e] => destruct b; cbn [assert bind]; [|discriminate]
         end.
  destruct (increment_messages g); cbn [bind]; [|discriminate].
  intros [= <- <- <- <-]. repeat split.
Qed.

Lemma mark_messages_as_read_frame (c : Conversation) up_to_index ctx r c' :
  mark_messages_as_read c up_to_index ctx = Ok (r, c') ->
  uid c' = uid c /\ participant1 c' = participant1 c
  /\ participant2 c' = participant2 c.
Proof.
  unfold mark_messages_as_read.
  destruct (assert _ _); cbn [bind]; [|discriminate].
  destruct (if _ <=? _ then _ else _); cbn [bind]; [|discriminate].
  destruct (mark_messages_as_read_helper _ _ _ _); cbn [bind]; [|discriminate].
  intros [= <- <-]. repeat split.
Qed.

Lemma execute_found (l : Ledger) A B clock :
  A <> B -> conversation_exists (conversation_registry l) A B = true ->
  execute l A (StartConversation B clock) = Ok l.
Proof.
  intros Hne Hex. unfold Messaging.execute.
  rewrite start_conversation_found by assumption. cbn [bind].
  unfold commit, fresh_ctx. cbn. rewrite app_nil_r. destruct l; reflexivity.
Qed.

Lemma execute_created (l : Ledger) A B clock :
  A <> B -> conversation_exists (conversation_registry l) A B = false ->
  exists l',
    execute l A (StartConversation B clock) = Ok l'
    /\ conversation_registry l'
       = created_registry (conversation_registry l) A B (next_id l)
    /\ global_registry l' = global_registry l
    /\ conversations l'
       = <[next_id l := mkConversation (next_id l) A B [] clock]> (conversations l)
    /\ event_log l'
       = event_log l ++ [ConversationCreated (next_id l) A B clock]
    /\ next_id l < next_id l'
    /\ (consistent l -> consistent l').
Proof.
  intros Hne Hex. unfold Messaging.execute.
  destruct (start_conversation_creates (conversation_registry l) B clock
              (fresh_ctx l A)) as (ctx' & Hs & _ & Hn & He & Hsh);
    [assumption..|].
  cbn [fresh_ctx tx_sender ids_created emitted shared app] in *.
  rewrite Hs. cbn [bind]. eexists. split; [reflexivity|].
  split; [reflexivity|]. split; [reflexivity|].
  split; [unfold commit; rewrite Hsh; reflexivity|].
  split; [unfold commit; rewrite He; reflexivity|].
  split; [exact Hn|].
  intros Hl. eapply consistent_create; eassumption.
Qed.

Lemma execute_consistent (l l' : Ledger) sender call :
  consistent l -> execute l sender call = Ok l' -> consistent l'.
Proof.
  intros Hl. destruct call as [other clock|i blob hash clock|i blob hash media clock|i up_to].
  - destruct (decide (sender = other)) as [->|Hne].
    { unfold Messaging.execute, start_conversation. cbn [fresh_ctx tx_sender].
      rewrite bool_decide_eq_true_2 by reflexivity. discriminate. }
    destruct (conversation_exists (conversation_registry l) sender other) eqn:Hex.
    + rewrite execute_found by assumption. intros [= <-]. exact Hl.
    + destruct (execute_created l sender other clock Hne Hex)
        as (l1 & -> & _ & _ & _ & _ & _ & Hc).
      intros [= <-]. auto.
  - unfold Messaging.execute, input_object.
    destruct (conversations l !! i) as [c|] eqn:Hc; cbn [bind]; [|discriminate].
    destruct (send_message _ _ _ _ _ _) as [[r [[g' c'] ctx']]|] eqn:Hs;
      cbn [bind]; [|discriminate].
    intros [= <-]. apply send_message_frame in Hs as (Hu & H1 & H2 & Hsh & Hn).
    eapply consistent_touch; eauto.
  - unfold Messaging.execute, input_object.
    destruct (conversations l !! i) as [c|] eqn:Hc; cbn [bind]; [|discriminate].
    destruct (send_message_with_media _ _ _ _ _ _ _) as [[r [[g' c'] ctx']]|] eqn:Hs;
      cbn [bind]; [|discriminate].
    intros [= <-].
    apply send_message_with_media_frame in Hs as (Hu & H1 & H2 & Hsh & Hn).
    eapply consistent_touch; eauto.
  - unfold Messaging.execute, input_object.
    destruct (conversations l !! i) as [c|] eqn:Hc; cbn [bind]; [|discriminate].
    destruct (mark_messages_as_read _ _ _) as [[r c']|] eqn:Hs;
      cbn [bind]; [|discriminate].
    intros [= <-]. apply mark_messages_as_read_frame in Hs as (Hu & H1 & H2).
    eapply consistent_touch; eauto.
Qed.

Lemma reachable_consistent (g : GlobalRegistry) (l : Ledger) :
  reachable increment_messages g l -> consistent l.
Proof.
  induction 1 as [|l sender call _ IH]; [apply consistent_genesis|].
  unfold Messaging.apply_tx.
  destruct (execute l sender call) as [l'|] eqn:He; [|exact IH].
  eapply execute_consistent; eassumption.
Qed.

Lemma same_pair_swap (c : Conversation) A B : same_pair c A B -> same_pair c B A.
Proof. unfold same_pair. tauto. Qed.

(** Once the pair is in the index: what lookups and further
    [start_conversation] calls see. *)
Lemma indexed_pair_facts (l : Ledger) A B i :
  consistent l -> A <> B ->
  registered (conversation_registry l) A B = Some i ->
  exists c,
    get_conversation_id (conversation_registry l) A B = Some i
    /\ get_conversation_id (conversation_registry l) B A = Some i
    /\ conversations l !! i = Some c /\ uid c = i /\ same_pair c A B
    /\ (forall t2 : u64,
          execute l B (StartConversation A t2) = Ok l
          /\ execute l A (StartConversation B t2) = Ok l)
    /\ (forall j c2, conversations l !! j = Some c2 -> same_pair c2 A B -> j = i).
Proof.
  intros Hl Hne HAB.
  pose proof (registered_symmetric l A B i Hl HAB) as HBA.
  destruct (index_sound l Hl A B i HAB) as (c & Hc & Hp).
  exists c. rewrite !get_conversation_id_registered, HAB, HBA.
  do 3 (split; [reflexivity || assumption|]).
  split; [eapply stored_under_id; eassumption|].
  split; [exact Hp|]. split.
  - intros t2. split; apply execute_found; try congruence;
      rewrite conversation_exists_registered, HAB, HBA; reflexivity.
  - intros j c2 Hc2 Hp2. symmetry.
    eapply one_conversation_per_pair; [exact Hl|exact Hc|exact Hc2|].
    destruct Hp as [[<- <-]|[<- <-]]; [exact Hp2|apply same_pair_swap, Hp2].
Qed.

(** C2. In any ledger reached from genesis and for [A <> B], the
    transaction in which [A] starts a conversation with [B] does not abort,
    and afterwards the lookup in either argument order gives one and the same
    id [i], that of a shared conversation between [A] and [B]. If the pair
    had no conversation the call created it: a fresh id, an empty
    conversation, one index entry per direction and one
    [ConversationCreated] event; otherwise the ledger is exactly as before
    (no event, no object, no index entry). Every later call for the pair, by
    either party, returns with the ledger unchanged, and [i] is the only
    conversation between [A] and [B] in the ledger. *)
Theorem start_conversation_once :
  forall (g0 : GlobalRegistry) (l : Ledger) (A B : address) (t1 : u64),
    reachable increment_messages g0 l -> A <> B ->
    let l1 := apply_tx l A (StartConversation B t1) in
    exists (i : ID) (c : Conversation),
      execute l A (StartConversation B t1) = Ok l1
      /\ get_conversation_id (conversation_registry l1) A B = Some i
      /\ get_conversation_id (conversation_registry l1) B A = Some i
      /\ conversations l1 !! i = Some c /\ uid c = i /\ same_pair c A B
      /\ (if conversation_exists (conversation_registry l) A B
          then l1 = l
          else i = next_id l
               /\ conversations l !! i = None
               /\ c = fresh_conversation i A B t1
               /\ conversation_registry l1
                  = created_registry (conversation_registry l) A B i
               /\ conversations l1 = <[i := c]> (conversations l)
               /\ event_log l1 = event_log l ++ [ConversationCreated i A B t1])
      /\ (forall t2 : u64,
            execute l1 B (StartConversation A t2) = Ok l1
            /\ execute l1 A (StartConversation B t2) = Ok l1)
      /\ (forall j c2,
            conversations l1 !! j = Some c2 -> same_pair c2 A B -> j = i).
Proof.
  intros g0 l A B t1 Hreach Hne l1.
  pose proof (reachable_consistent g0 l Hreach) as Hl.
  destruct (conversation_exists (conversation_registry l) A B) eqn:Hex.
  - assert (He : execute l A (StartConversation B t1) = Ok l)
      by (apply execute_found; assumption).
    assert (El : l1 = l) by (apply apply_tx_ok, He).
    rewrite El.
    rewrite conversation_exists_registered in Hex.
    assert (Hi : exists i, registered (conversation_registry l) A B = Some i).
    { apply orb_true_iff in Hex as [H|H]; apply bool_decide_eq_true_1 in H;
        destruct H as [i Hi]; exists i; [exact Hi|].
      apply registered_symmetric; assumption. }
    destruct Hi as [i Hi].
    destruct (indexed_pair_facts l A B i Hl Hne Hi)
      as (c & H1 & H2 & H3 & H4 & H5 & H6 & H7).
    exists i, c. repeat (split; [assumption|]). split; [reflexivity|].
    split; assumption.
  - destruct (execute_created l A B t1 Hne Hex)
      as (l' & He & Hr & _ & Hc & Hlog & Hn & Hcons).
    assert (El : l1 = l') by (apply apply_tx_ok, He).
    rewrite El. specialize (Hcons Hl).
    assert (Hi : registered (conversation_registry l') A B = Some (next_id l)).
    { rewrite Hr. unfold created_registry. rewrite !registered_with_direction.
      destruct (decide (A = B /\ B = A)) as [[E _]|_]; [contradiction|].
      destruct (decide (A = A /\ B = B)) as [_|E]; [reflexivity|].
      exfalso. apply E. split; reflexivity. }
    destruct (indexed_pair_facts l' A B _ Hcons Hne Hi)
      as (c & H1 & H2 & H3 & H4 & H5 & H6 & H7).
    exists (next_id l), c. repeat (split; [assumption|]).
    split; [|split; assumption].
    assert (Ec : c = fresh_conversation (next_id l) A B t1).
    { rewrite Hc, lookup_insert_eq in H3. unfold fresh_conversation. congruence. }
    split; [reflexivity|]. split.
    { destruct (conversations l !! next_id l) as [d|] eqn:Hd; [|reflexivity].
      apply (ids_used l Hl) in Hd. lia. }
    split; [exact Ec|]. split; [exact Hr|]. split; [|exact Hlog].
    rewrite Hc, Ec. reflexivity.
Qed.

End LedgerFacts.

(** ** The ledger at work: alice, bob and carol *)

Lemma sample_ledger_conversation :
  conversations sample_ledger !! 1 = Some (fresh_conversation 1 alice bob 1000).
Proof. vm_compute. reflexivity. Qed.

Lemma start_conversation_once_witness :
  exists i : N,
    get_conversation_id (conversation_registry sample_ledger) alice bob = Some i
    /\ get_conversation_id (conversation_registry sample_ledger) bob alice = Some i
    /\ apply_tx count_messages sample_ledger bob (StartConversation alice 2000)
       = sample_ledger.
Proof.
  destruct (start_conversation_once count_messages 0 (genesis 0) alice bob 1000)
    as (i & c & _ & H1 & H2 & _ & _ & _ & _ & H3 & _).
  - apply reachable_genesis.
  - unfold alice, bob. lia.
  - exists i. split; [exact H1|]. split; [exact H2|].
    apply apply_tx_ok. apply (H3 2000).
Defined.

Lemma mark_messages_as_read_spec_witness :
  exists c',
    mark_messages_as_read sample_thread 3 (mkTx alice 0 [] []) = Ok (tt, c')
    /\ is_read <$> messages c' = [false; true; false; true]
    /\ mark_messages_as_read c' 3 (mkTx alice 0 [] []) = Ok (tt, c').
Proof.
  destruct (mark_messages_as_read_spec sample_thread 3 (mkTx alice 0 [] []))
    as (c' & Hrun & _ & _ & _ & _ & _ & _ & Hagain).
  - reflexivity.
  - vm_compute. discriminate.
  - exists c'. split; [exact Hrun|]. split; [|apply Hagain; lia].
    vm_compute in Hrun. injection Hrun as <-. reflexivity.
Defined.

Lemma send_message_failure_modes_witness :
  execute count_messages sample_ledger carol (SendMessage 1 "blob1" [1] 2000)
    = Aborted (ModuleAbort ENotParticipant)
  /\ execute count_messages sample_ledger alice (SendMessage 1 "" [1] 2000)
     = Aborted (ModuleAbort EInvalidBlobId)
  /\ execute count_messages sample_ledger alice (SendMessage 1 "blob1" [] 2000)
     = Aborted (ModuleAbort EMessageEmpty).
Proof.
  pose proof (send_message_failure_modes count_messages sample_ledger carol 1 _
                "blob1" [1] 2000 sample_ledger_conversation) as (Hn & _).
  pose proof (send_message_failure_modes count_messages sample_ledger alice 1 _
                "" [1] 2000 sample_ledger_conversation) as (_ & Hb & _).
  pose proof (send_message_failure_modes count_messages sample_ledger alice 1 _
                "blob1" [] 2000 sample_ledger_conversation) as (_ & Hh & _).
  split; [apply Hn; reflexivity|].
  split.
  - destruct Hb as (e & He & Hk); [left; reflexivity|].
    rewrite He. cbn in Hk. destruct Hk as [_ ->]. reflexivity.
  - destruct Hh as (e & He & Hk); [right; reflexivity|].
    rewrite He. cbn in Hk. destruct Hk as [_ ->]. reflexivity.
Defined.

Lemma send_messages_in_order_witness :
  exists g' c',
    send_messages count_messages 0 (fresh_conversation 1 alice bob 1000)
      [mkAppend alice "blob1" [1] 2000; mkAppend bob "blob2" [2] 3000]
      = Ok (g', c')
    /\ length (messages c') = 2%nat
    /\ last_message_timestamp_ms c' = 3000.
Proof.
  destruct (send_messages count_messages 0 (fresh_conversation 1 alice bob 1000)
              [mkAppend alice "blob1" [1] 2000; mkAppend bob "blob2" [2] 3000])
    as [[g' c']|e] eqn:Hrun; [|vm_compute in Hrun; discriminate].
  exists g', c'. split; [reflexivity|].
  destruct (send_messages_in_order count_messages _ _ _ _ _ _ _ _ Hrun)
    as (_ & Hlen & _ & Ht & _).
  split; [exact Hlen|exact Ht].
Defined.

Lemma send_message_with_media_checks_media_witness :
  execute count_messages sample_ledger alice
          (SendMessageWithMedia 1 "blob1" [1] "" 2000)
    = Aborted (ModuleAbort EInvalidBlobId)
  /\ exists c' ctx',
       send_message_with_media count_messages (global_registry sample_ledger)
         (fresh_conversation 1 alice bob 1000) "blob1" [1] "media1" 2000
         (fresh_ctx sample_ledger alice)
       = Ok (tt, (1, c', ctx'))
       /\ media_blob_id <$> messages c' = [Some "media1"].
Proof.
  split.
  - apply (send_message_with_media_checks_media count_messages sample_ledger
             alice 1 _ "blob1" [1] "" 2000 sample_ledger_conversation eq_refl).
    reflexivity.
  - destruct (send_message_with_media_checks_media count_messages sample_ledger
             alice 1 _ "blob1" [1] "media1" 2000 sample_ledger_conversation eq_refl)
      as (_ & Hok).
    destruct (Hok ltac:(discriminate) ltac:(discriminate) ltac:(discriminate) 1)
      as (c' & ctx' & Hs & _ & Hc); [vm_compute; reflexivity|].
    exists c', ctx'. split; [exact Hs|]. rewrite Hc. reflexivity.
Defined.

(** The value [send_message] returns is the same for an append at index 0
    and for an append at index 1: it is not the index. *)
Lemma send_message_returns_no_index :
  let c0 := fresh_conversation 1 alice bob 1000 in
  let c1 := appended c0 (mkMessage alice "blob1" [1] 2000 false None) in
  let first := send_message count_messages 0 c0 "blob1" [1] 2000 (mkTx alice 2 [] []) in
  let second := send_message count_messages 1 c1 "blob2" [2] 3000 (mkTx bob 2 [] []) in
  returned first = Some tt /\ returned second = Some tt
  /\ vector_length (messages c0) = 0 /\ vector_length (messages c1) = 1
  /\ ~ (exists index_of : unit -> N,
          (index_of <$> returned first) = Some (vector_length (messages c0))
          /\ (index_of <$> returned second) = Some (vector_length (messages c1))).
Proof.
  cbv zeta. repeat split; try (vm_compute; reflexivity).
  intros (index_of & H0 & H1). vm_compute in H0, H1. congruence.
Qed.

(* ===================================================================== *)
(** * Facts about the client pipeline                                      *)
(* ===================================================================== *)

(** ** The order on strings and the conversation identity *)
Lemma string_lt_irrefl (a : list N) : string_lt a a = false.
Proof.
  induction a as [|x a IH]; [reflexivity|]. cbn [string_lt].
  rewrite N.ltb_irrefl. exact IH.
Qed.

Lemma string_lt_asym (a b : list N) :
  string_lt a b = true -> string_lt b a = false.
Proof.
  revert b. induction a as [|x a IH]; intros [|y b]; cbn [string_lt];
    try reflexivity; try discriminate.
  destruct (N.ltb_spec x y), (N.ltb_spec y x); try reflexivity;
    try discriminate; try (exfalso; lia).
  apply IH.
Qed.

Lemma string_lt_total (a b : list N) :
  string_lt a b = false -> string_lt b a = false -> a = b.
Proof.
  revert b. induction a as [|x a IH]; intros [|y b]; cbn [string_lt];
    try reflexivity; try discriminate.
  destruct (N.ltb_spec x y), (N.ltb_spec y x); try discriminate.
  intros H1 H2. assert (x = y) by lia. subst y. f_equal. apply IH; assumption.
Qed.

Lemma Array_sort_pair (A B : list N) :
  Array_sort [A; B] = Array_sort [B; A].
Proof.
  cbn [Array_sort sort_insert].
  destruct (string_lt A B) eqn:HAB.
  - rewrite (string_lt_asym _ _ HAB). reflexivity.
  - destruct (string_lt B A) eqn:HBA; [reflexivity|].
    rewrite (string_lt_total _ _ HAB HBA). reflexivity.
Qed.

(** C7. [createConversationIdentity] is a function of its arguments, and
    swapping the two participants changes neither the identity it returns
    nor the (sorted) array it leaves behind. *)
Theorem createConversationIdentity_order_independent :
  forall (conversationId A B : list N),
    createConversationIdentity conversationId [A; B]
    = createConversationIdentity conversationId [B; A].
Proof.
  intros conversationId A B. unfold createConversationIdentity.
  rewrite (Array_sort_pair A B). reflexivity.
Qed.

(** The same holds for any number of participants, listed in any order. *)
Lemma string_lt_trans (a b c : list N) :
  string_lt a b = true -> string_lt b c = true -> string_lt a c = true.
Proof.
  revert b c. induction a as [|x a IH]; intros [|y b] [|z c]; cbn [string_lt];
    try reflexivity; try discriminate.
  destruct (N.ltb_spec x y), (N.ltb_spec y x), (N.ltb_spec y z), (N.ltb_spec z y),
           (N.ltb_spec x z), (N.ltb_spec z x);
    try reflexivity; try discriminate; try (exfalso; lia).
  apply IH.
Qed.

Lemma sort_insert_swap (x y : list N) (l : list (list N)) :
  sort_insert x (sort_insert y l) = sort_insert y (sort_insert x l).
Proof.
  induction l as [|z l IH]; cbn [sort_insert].
  - destruct (string_lt x y) eqn:Hxy, (string_lt y x) eqn:Hyx; try reflexivity.
    + rewrite (string_lt_asym _ _ Hxy) in Hyx. discriminate.
    + rewrite (string_lt_total _ _ Hxy Hyx). reflexivity.
  - destruct (string_lt y z) eqn:Hyz, (string_lt x z) eqn:Hxz; cbn [sort_insert];
      rewrite ?Hyz, ?Hxz.
    + destruct (string_lt x y) eqn:Hxy, (string_lt y x) eqn:Hyx; try reflexivity.
      * rewrite (string_lt_asym _ _ Hxy) in Hyx. discriminate.
      * rewrite (string_lt_total _ _ Hxy Hyx). reflexivity.
    + destruct (string_lt x y) eqn:Hxy; [|reflexivity].
      rewrite (string_lt_trans _ _ _ Hxy Hyz) in Hxz. discriminate.
    + destruct (string_lt y x) eqn:Hyx; [|reflexivity].
      rewrite (string_lt_trans _ _ _ Hyx Hxz) in Hyz. discriminate.
    + rewrite IH. reflexivity.
Qed.

Lemma Array_sort_permutation (l l' : list (list N)) :
  l ≡ₚ l' -> Array_sort l = Array_sort l'.
Proof.
  induction 1 as [|x l l' _ IH|x y l|l l' l'' _ IH1 _ IH2]; cbn [Array_sort].
  - reflexivity.
  - rewrite IH. reflexivity.
  - apply sort_insert_swap.
  - congruence.
Qed.

Lemma createConversationIdentity_permutation
    (conversationId : list N) (participants participants' : list (list N)) :
  participants ≡ₚ participants' ->
  createConversationIdentity conversationId participants
  = createConversationIdentity conversationId participants'.
Proof.
  intros Hp. unfold createConversationIdentity.
  rewrite (Array_sort_permutation _ _ Hp). reflexivity.
Qed.

(** ** Verifying a digest *)
Lemma strict_ne_false (x y : option N) : strict_ne x y = false <-> x = y.
Proof.
  destruct x as [a|], y as [b|]; cbn; split; try discriminate; try reflexivity.
  - intros H. apply negb_false_iff, N.eqb_eq in H. congruence.
  - intros [= ->]. rewrite N.eqb_refl. reflexivity.
Qed.

Lemma compare_from_true (a e : list N) (n i : nat) :
  compare_from a e i n = true
  <-> forall k : nat, (i <= k < i + n)%nat -> a !! k = e !! k.
Proof.
  revert i. induction n as [|n IH]; intros i; cbn [compare_from].
  - split; [intros _ k Hk; lia|reflexivity].
  - destruct (strict_ne (a !! i) (e !! i)) eqn:Hs.
    + split; [discriminate|]. intros H. specialize (H i ltac:(lia)).
      apply strict_ne_false in H. congruence.
    + apply strict_ne_false in Hs. rewrite IH. split.
      * intros H k Hk. destruct (decide (k = i)) as [->|]; [exact Hs|].
        apply H. lia.
      * intros H k Hk. apply H. lia.
Qed.

Lemma hashes_compare_equal (a e : list N) :
  (if negb (length a =? length e)%nat then false
   else compare_from a e 0 (length a)) = true <-> a = e.
Proof.
  destruct (Nat.eqb_spec (length a) (length e)) as [Hl|Hl]; cbn [negb].
  - rewrite compare_from_true. split.
    + intros H. apply list_eq. intros k.
      destruct (decide (k < length a)%nat); [apply H; lia|].
      rewrite !lookup_ge_None_2 by lia. reflexivity.
    + intros -> k _. reflexivity.
  - split; [discriminate|]. intros ->. contradiction.
Qed.

Lemma verifyMessageHash_accepts
    (env : Env) (messageContent : list N) (expectedHash : list N) :
  verifyMessageHash env messageContent expectedHash = true
  <-> subtle_digest_SHA256 env (TextEncoder_encode messageContent)
      = Resolved expectedHash.
Proof.
  unfold verifyMessageHash.
  destruct (subtle_digest_SHA256 env (TextEncoder_encode messageContent))
    as [actual|t].
  - rewrite hashes_compare_equal. split; congruence.
  - split; discriminate.
Qed.

(** C8. [verifyMessageHash] answers [true] exactly when the digest
    recomputed from the content is the expected one, byte for byte and of
    the same length. When the recomputed digest differs from the expected
    one in length, or in the byte at some position (so also when one is a
    proper prefix of the other), the answer is [false]. *)
Theorem verifyMessageHash_exact :
  forall (env : Env) (messageContent : list N) (expectedHash : list N),
    (verifyMessageHash env messageContent expectedHash = true
     <-> subtle_digest_SHA256 env (TextEncoder_encode messageContent)
         = Resolved expectedHash)
    /\ (forall actualHash,
          subtle_digest_SHA256 env (TextEncoder_encode messageContent)
            = Resolved actualHash ->
          (length actualHash <> length expectedHash ->
           verifyMessageHash env messageContent expectedHash = false)
          /\ (forall i : nat,
                actualHash !! i <> expectedHash !! i ->
                verifyMessageHash env messageContent expectedHash = false)).
Proof.
  intros env messageContent expectedHash.
  split; [apply verifyMessageHash_accepts|].
  intros actualHash Hd.
  split; [intros Hne|intros i Hne];
    apply not_true_is_false; intros Hv;
    apply verifyMessageHash_accepts in Hv; rewrite Hd in Hv;
    injection Hv as ->; contradiction.
Qed.

(** ** The text codec *)

Local Ltac Zify.zify_post_hook ::= Z.to_euclidean_division_equations.

Lemma lor_shifted_low (a x n : N) :
  x < 2 ^ n -> N.lor (N.shiftl a n) x = a * 2 ^ n + x.
Proof.
  intros Hx. rewrite <- N.shiftl_mul_pow2.
  assert (Hd : N.land (N.shiftl a n) x = 0).
  { apply N.bits_inj_0. intros m. rewrite N.land_spec.
    destruct (N.lt_ge_cases m n) as [Hm|Hm].
    - rewrite N.shiftl_spec_low by assumption. reflexivity.
    - destruct (N.eq_dec x 0) as [->|Hx0].
      + rewrite N.bits_0. apply andb_false_r.
      + rewrite (N.bits_above_log2 x m), andb_false_r; [reflexivity|].
        apply N.log2_lt_pow2; [lia|].
        eapply N.lt_le_trans; [exact Hx|]. apply N.pow_le_mono_r; lia. }
  rewrite <- (N.lxor_lor _ _ Hd). symmetry. apply N.add_nocarry_lxor, Hd.
Qed.

Lemma lor_tag (tag x : N) (a n : N) :
  tag = a * 2 ^ n -> x < 2 ^ n -> N.lor tag x = tag + x.
Proof.
  intros -> Hx. rewrite <- lor_shifted_low by assumption.
  rewrite N.shiftl_mul_pow2. reflexivity.
Qed.

Lemma land_3F (b : N) : N.land b 0x3F = b mod 64.
Proof. change 0x3F with (N.ones 6). apply N.land_ones. Qed.
Lemma land_1F (b : N) : N.land b 0x1F = b mod 32.
Proof. change 0x1F with (N.ones 5). apply N.land_ones. Qed.
Lemma land_F (b : N) : N.land b 0xF = b mod 16.
Proof. change 0xF with (N.ones 4). apply N.land_ones. Qed.
Lemma land_7 (b : N) : N.land b 0x7 = b mod 8.
Proof. change 0x7 with (N.ones 3). apply N.land_ones. Qed.
Lemma land_3FF (b : N) : N.land b 0x3FF = b mod 1024.
Proof. change 0x3FF with (N.ones 10). apply N.land_ones. Qed.

Lemma shiftr_6 (c : N) : N.shiftr c 6 = c / 64.
Proof. rewrite N.shiftr_div_pow2. reflexivity. Qed.
Lemma shiftr_10 (c : N) : N.shiftr c 10 = c / 1024.
Proof. rewrite N.shiftr_div_pow2. reflexivity. Qed.
Lemma shiftr_12 (c : N) : N.shiftr c 12 = c / 4096.
Proof. rewrite N.shiftr_div_pow2. reflexivity. Qed.
Lemma shiftr_18 (c : N) : N.shiftr c 18 = c / 262144.
Proof. rewrite N.shiftr_div_pow2. reflexivity. Qed.

Lemma continuation_byte (x : N) : N.lor 0x80 (x mod 64) = 0x80 + x mod 64.
Proof. apply (lor_tag _ _ 2 6); [reflexivity|]. cbn. lia. Qed.

Lemma accumulate (c b : N) :
  N.lor (N.shiftl c 6) (N.land b 0x3F) = c * 64 + b mod 64.
Proof. rewrite land_3F. apply (lor_shifted_low c _ 6). cbn. lia. Qed.

(** The encoder's bytes, by arithmetic. *)
Lemma utf8_encode_scalar_bytes (cp : N) :
  cp < 0x110000 ->
  utf8_encode_scalar cp =
  if cp <? 0x80 then [cp]
  else if cp <? 0x800 then [0xC0 + cp / 64; 0x80 + cp mod 64]
  else if cp <? 0x10000 then
    [0xE0 + cp / 4096; 0x80 + (cp / 64) mod 64; 0x80 + cp mod 64]
  else [0xF0 + cp / 262144; 0x80 + (cp / 4096) mod 64;
        0x80 + (cp / 64) mod 64; 0x80 + cp mod 64].
Proof.
  intros Hcp. unfold utf8_encode_scalar.
  rewrite !shiftr_6, !shiftr_12, !shiftr_18, !land_3F, !continuation_byte.
  destruct (N.ltb_spec cp 0x80); [reflexivity|].
  destruct (N.ltb_spec cp 0x800).
  { rewrite (lor_tag 0xC0 _ 3 6); [reflexivity|reflexivity|cbn; lia]. }
  destruct (N.ltb_spec cp 0x10000).
  { rewrite (lor_tag 0xE0 _ 7 5); [reflexivity|reflexivity|cbn; lia]. }
  rewrite (lor_tag 0xF0 _ 15 4); [reflexivity|reflexivity|cbn; lia].
Qed.

Lemma is_scalar_bounds (cp : N) :
  is_scalar cp = true <-> cp < 0x110000 /\ (cp < 0xD800 \/ 0xDFFF < cp).
Proof.
  unfold is_scalar.
  destruct (N.ltb_spec cp 0x110000), (N.leb_spec 0xD800 cp), (N.leb_spec cp 0xDFFF);
    cbn; split; intros ?; first [discriminate | reflexivity | lia].
Qed.

Lemma utf8_lead_ascii (b : N) : b <= 0x7F -> utf8_lead b = ([b], utf8_initial).
Proof. intros H. unfold utf8_lead. destruct (N.leb_spec b 0x7F); [reflexivity|lia]. Qed.

Lemma utf8_lead_two (b : N) :
  0xC2 <= b <= 0xDF ->
  utf8_lead b = ([], mkUtf8 (b mod 32) 0 1 0x80 0xBF).
Proof.
  intros H. unfold utf8_lead. rewrite land_1F.
  destruct (N.leb_spec b 0x7F); [lia|].
  destruct (N.leb_spec 0xC2 b), (N.leb_spec b 0xDF); try lia. reflexivity.
Qed.

Lemma utf8_lead_three (b : N) :
  0xE0 <= b <= 0xEF ->
  utf8_lead b = ([], mkUtf8 (b mod 16) 0 2
                       (if b =? 0xE0 then 0xA0 else 0x80)
                       (if b =? 0xED then 0x9F else 0xBF)).
Proof.
  intros H. unfold utf8_lead. rewrite land_F.
  destruct (N.leb_spec b 0x7F); [lia|].
  destruct (N.leb_spec 0xC2 b), (N.leb_spec b 0xDF); try lia.
  destruct (N.leb_spec 0xE0 b), (N.leb_spec b 0xEF); try lia. reflexivity.
Qed.

Lemma utf8_lead_four (b : N) :
  0xF0 <= b <= 0xF4 ->
  utf8_lead b = ([], mkUtf8 (b mod 8) 0 3
                       (if b =? 0xF0 then 0x90 else 0x80)
                       (if b =? 0xF4 then 0x8F else 0xBF)).
Proof.
  intros H. unfold utf8_lead. rewrite land_7.
  destruct (N.leb_spec b 0x7F); [lia|].
  destruct (N.leb_spec 0xC2 b), (N.leb_spec b 0xDF); try lia.
  destruct (N.leb_spec 0xE0 b), (N.leb_spec b 0xEF); try lia.
  destruct (N.leb_spec 0xF0 b), (N.leb_spec b 0xF4); try lia. reflexivity.
Qed.

Lemma utf8_step_continue (c seen needed lo hi b : N) :
  needed <> 0 -> lo <= b <= hi ->
  utf8_step (mkUtf8 c seen needed lo hi) b
  = if seen + 1 =? needed then ([c * 64 + b mod 64], utf8_initial)
    else ([], mkUtf8 (c * 64 + b mod 64) (seen + 1) needed 0x80 0xBF).
Proof.
  intros Hn Hb. unfold utf8_step.
  cbn [bytes_needed lower_boundary upper_boundary code_point bytes_seen].
  destruct (N.eqb_spec needed 0); [contradiction|].
  destruct (N.leb_spec lo b), (N.leb_spec b hi); try lia. cbn [andb negb].
  rewrite accumulate. destruct (seen + 1 =? needed); reflexivity.
Qed.

Lemma utf8_step_last (c seen needed lo hi b : N) :
  needed <> 0 -> lo <= b <= hi -> seen + 1 = needed ->
  utf8_step (mkUtf8 c seen needed lo hi) b = ([c * 64 + b mod 64], utf8_initial).
Proof.
  intros Hn Hb Hs. rewrite utf8_step_continue by assumption.
  destruct (N.eqb_spec (seen + 1) needed); [reflexivity|contradiction].
Qed.

Lemma utf8_step_more (c seen needed lo hi b : N) :
  needed <> 0 -> lo <= b <= hi -> seen + 1 <> needed ->
  utf8_step (mkUtf8 c seen needed lo hi) b
  = ([], mkUtf8 (c * 64 + b mod 64) (seen + 1) needed 0x80 0xBF).
Proof.
  intros Hn Hb Hs. rewrite utf8_step_continue by assumption.
  destruct (N.eqb_spec (seen + 1) needed); [contradiction|reflexivity].
Qed.

Lemma utf8_step_initial (b : N) : utf8_step utf8_initial b = utf8_lead b.
Proof. reflexivity. Qed.

Lemma utf8_decode_scalar (cp : N) (rest : list N) :
  is_scalar cp = true ->
  utf8_decode_from utf8_initial (utf8_encode_scalar cp ++ rest)
  = cp :: utf8_decode_from utf8_initial rest.
Proof.
  intros Hs. apply is_scalar_bounds in Hs as [Hmax Hsur].
  rewrite utf8_encode_scalar_bytes by assumption.
  destruct (N.ltb_spec cp 0x80) as [H1|H1].
  { cbn [app utf8_decode_from]. rewrite utf8_step_initial.
    rewrite utf8_lead_ascii by lia. reflexivity. }
  destruct (N.ltb_spec cp 0x800) as [H2|H2].
  { cbn [app utf8_decode_from]. rewrite utf8_step_initial.
    rewrite utf8_lead_two by lia.
    rewrite utf8_step_last by lia. cbn [app].
    f_equal. lia. }
  destruct (N.ltb_spec cp 0x10000) as [H3|H3].
  { cbn [app utf8_decode_from]. rewrite utf8_step_initial.
    rewrite utf8_lead_three by lia.
    rewrite utf8_step_more.
    2: discriminate.
    2:{ destruct (N.eqb_spec (0xE0 + cp / 4096) 0xE0),
                 (N.eqb_spec (0xE0 + cp / 4096) 0xED); lia. }
    2: discriminate.
    rewrite utf8_step_last by lia. cbn [app].
    f_equal. lia. }
  cbn [app utf8_decode_from]. rewrite utf8_step_initial.
  rewrite utf8_lead_four by lia.
  rewrite utf8_step_more.
  2: discriminate.
  2:{ destruct (N.eqb_spec (0xF0 + cp / 262144) 0xF0),
               (N.eqb_spec (0xF0 + cp / 262144) 0xF4); lia. }
  2: discriminate.
  rewrite utf8_step_more by lia.
  rewrite utf8_step_last by lia. cbn [app].
  f_equal. lia.
Qed.

Lemma utf8_decode_scalars (cps : list N) :
  Forall (fun cp => is_scalar cp = true) cps ->
  utf8_decode_from utf8_initial (concat (map utf8_encode_scalar cps)) = cps.
Proof.
  induction 1 as [|cp cps Hcp _ IH]; [reflexivity|].
  cbn [map concat]. rewrite utf8_decode_scalar by assumption.
  f_equal. exact IH.
Qed.

Lemma surrogate_ranges (u : N) :
  (is_high_surrogate u = true <-> 0xD800 <= u <= 0xDBFF)
  /\ (is_low_surrogate u = true <-> 0xDC00 <= u <= 0xDFFF).
Proof.
  unfold is_high_surrogate, is_low_surrogate.
  destruct (N.leb_spec 0xD800 u), (N.leb_spec u 0xDBFF),
           (N.leb_spec 0xDC00 u), (N.leb_spec u 0xDFFF);
    cbn; split; split; intros ?; first [discriminate | reflexivity | lia].
Qed.

Lemma utf16_units_pair (u v : N) :
  is_high_surrogate u = true -> is_low_surrogate v = true ->
  let cp := 0x10000 + (u - 0xD800) * 0x400 + (v - 0xDC00) in
  is_scalar cp = true /\ utf16_units cp = [u; v] /\ cp <> BOM.
Proof.
  intros Hu Hv cp. apply (surrogate_ranges u) in Hu. apply (surrogate_ranges v) in Hv.
  split; [apply is_scalar_bounds; unfold cp; lia|].
  split; [|unfold cp, BOM; lia].
  unfold utf16_units. destruct (N.ltb_spec cp 0x10000); [unfold cp in *; lia|].
  rewrite shiftr_10, land_3FF. unfold cp. f_equal; [lia|f_equal; lia].
Qed.

Lemma utf16_units_bmp (u : N) :
  is_high_surrogate u = false -> is_low_surrogate u = false -> u < 0x10000 ->
  is_scalar u = true /\ utf16_units u = [u].
Proof.
  intros Hh Hl Hu. split.
  - apply is_scalar_bounds. split; [lia|].
    destruct (surrogate_ranges u) as [H1 H2].
    destruct (N.lt_ge_cases u 0xD800); [left; assumption|].
    destruct (N.lt_ge_cases 0xDFFF u); [right; assumption|].
    exfalso. destruct (N.le_gt_cases u 0xDBFF).
    + assert (is_high_surrogate u = true) by (apply H1; lia). congruence.
    + assert (is_low_surrogate u = true) by (apply H2; lia). congruence.
  - unfold utf16_units. destruct (N.ltb_spec u 0x10000); [reflexivity|lia].
Qed.

Lemma well_formed_scalar_values (n : nat) : forall s : list N,
  (length s <= n)%nat -> well_formed s = true ->
  Forall (fun cp => is_scalar cp = true) (scalar_values s)
  /\ concat (map utf16_units (scalar_values s)) = s
  /\ (head s <> Some BOM -> head (scalar_values s) <> Some BOM).
Proof.
  induction n as [|n IH]; intros [|u rest] Hlen Hwf;
    try (split; [constructor|split; [reflexivity|intros H; exact H]]);
    cbn [length] in Hlen; [lia|].
  cbn [well_formed scalar_values] in *.
  destruct (is_high_surrogate u) eqn:Hh.
  - destruct rest as [|v rest']; [discriminate|].
    apply andb_true_iff in Hwf as [Hv Hwf]. rewrite Hv.
    destruct (utf16_units_pair u v Hh Hv) as (Hs & Hu & Hb).
    destruct (IH rest' ltac:(cbn [length] in Hlen; lia) Hwf) as (IH1 & IH2 & _).
    split; [constructor; assumption|].
    split; [cbn [map concat]; rewrite Hu, IH2; reflexivity|].
    intros _. cbn [head]. congruence.
  - apply andb_true_iff in Hwf as [Hwf Hrest].
    apply andb_true_iff in Hwf as [Hl Hu].
    apply negb_true_iff in Hl. apply N.ltb_lt in Hu. rewrite Hl.
    destruct (utf16_units_bmp u Hh Hl Hu) as (Hs & Hunits).
    destruct (IH rest ltac:(lia) Hrest) as (IH1 & IH2 & _).
    split; [constructor; assumption|].
    split; [cbn [map concat]; rewrite Hunits, IH2; reflexivity|].
    intros H. exact H.
Qed.

Lemma strip_bom_none (cps : list N) : head cps <> Some BOM -> strip_bom cps = cps.
Proof.
  destruct cps as [|cp rest]; [reflexivity|]. cbn [head strip_bom].
  destruct (N.eqb_spec cp BOM) as [->|]; [intros H; contradiction H; reflexivity|].
  reflexivity.
Qed.

(** Encoding a well-formed string that does not begin with a byte order
    mark and decoding the bytes gives the string back. *)
Lemma text_codec_round_trip (s : list N) :
  well_formed s = true -> head s <> Some BOM ->
  TextDecoder_decode (TextEncoder_encode s) = s.
Proof.
  intros Hwf Hbom.
  destruct (well_formed_scalar_values (length s) s (le_n _) Hwf) as (Hs & Hu & Hb).
  unfold TextDecoder_decode, TextEncoder_encode.
  rewrite utf8_decode_scalars by assumption.
  rewrite strip_bom_none by auto. exact Hu.
Qed.

(** ** Decrypting and verifying *)

(** What [decryptMessage] returns once the download and the decryption
    succeed: the decoded bytes. No digest is involved. *)
Lemma decryptMessage_resolves {K} (env : Env) (sealClient : SealClient K)
    (blob conversationId : list N) (participants : list (list N))
    (sessionKey : option K) (txBytes : option (list N))
    (response : Response) (encrypted data : list N) :
  fetch env (WalrusService_getBlobUrl env blob) = Resolved response ->
  ok response = true ->
  arrayBuffer response = Resolved encrypted ->
  seal_decrypt sealClient encrypted
    (finalSessionKey env conversationId participants sessionKey)
    (finalTxBytes conversationId participants txBytes) = Resolved data ->
  decryptMessage env blob sealClient conversationId participants sessionKey txBytes
  = Resolved (TextDecoder_decode data).
Proof.
  intros Hf Hok Hbody Hdec. unfold decryptMessage.
  rewrite Hf. cbn [and_then]. rewrite Hok. cbn [negb].
  rewrite Hbody. cbn [and_then].
  unfold finalSessionKey, finalTxBytes in Hdec. rewrite Hdec. reflexivity.
Qed.

(** C1 (as the code has it). [decryptMessage] takes no expected digest and
    checks none: when the download and the decryption succeed it returns the
    decoded plaintext, whatever digest the caller expects. Verification is
    the separate [verifyMessageHash], left to the caller: on the returned
    plaintext it answers [true] exactly when the digest of the plaintext is
    the expected one, and [decryptMessage] has handed out the plaintext
    either way. *)
Theorem decryptMessage_leaves_verification_to_the_caller :
  forall (K : Type) (env : Env) (sealClient : SealClient K)
         (blob expectedHash conversationId : list N) (participants : list (list N))
         (sessionKey : option K) (txBytes : option (list N))
         (response : Response) (encrypted data : list N),
    fetch env (WalrusService_getBlobUrl env blob) = Resolved response ->
    ok response = true ->
    arrayBuffer response = Resolved encrypted ->
    seal_decrypt sealClient encrypted
      (finalSessionKey env conversationId participants sessionKey)
      (finalTxBytes conversationId participants txBytes) = Resolved data ->
    let plaintext := TextDecoder_decode data in
    decryptMessage env blob sealClient conversationId participants sessionKey txBytes
      = Resolved plaintext
    /\ (verifyMessageHash env plaintext expectedHash = true
        <-> subtle_digest_SHA256 env (TextEncoder_encode plaintext)
            = Resolved expectedHash)
    /\ (verifyMessageHash env plaintext expectedHash = false ->
        exists p,
          decryptMessage env blob sealClient conversationId participants
                         sessionKey txBytes = Resolved p
          /\ verifyMessageHash env p expectedHash = false).
Proof.
  intros K env sealClient blob expectedHash conversationId participants
         sessionKey txBytes response encrypted data Hf Hok Hbody Hdec plaintext.
  assert (Hd : decryptMessage env blob sealClient conversationId participants
                 sessionKey txBytes = Resolved plaintext)
    by (eapply decryptMessage_resolves; eassumption).
  split; [exact Hd|]. split.
  - apply verifyMessageHash_accepts.
  - intros Hv. exists plaintext. split; [exact Hd|exact Hv].
Qed.

(** ** The round trip *)

Lemma encryptAndUploadMessage_resolved {K} (env : Env) (sealClient : SealClient K)
    (messageContent conversationId : list N) (participants : list (list N))
    (up : Uploaded) :
  encryptAndUploadMessage env messageContent sealClient conversationId participants
    = Resolved up ->
  exists encrypted,
    subtle_digest_SHA256 env (TextEncoder_encode messageContent)
      = Resolved (contentHash up)
    /\ seal_encrypt sealClient 2 (PACKAGE_ID env)
         (snd (createConversationIdentity conversationId participants))
         (TextEncoder_encode messageContent) = Resolved encrypted
    /\ WalrusService_uploadFile env
         (mkFile encrypted (lit "encrypted-message") (lit "application/octet-stream"))
       = Resolved (blobId up).
Proof.
  unfold encryptAndUploadMessage, rethrow.
  destruct (subtle_digest_SHA256 env _) as [h|]; cbn [and_then]; [|discriminate].
  destruct (seal_encrypt sealClient _ _ _ _) as [e|]; cbn [and_then]; [|discriminate].
  destruct (WalrusService_uploadFile env _) as [b|] eqn:Hu; cbn [and_then];
    [|discriminate].
  intros [= <-]. exists e. repeat split. exact Hu.
Qed.


(** ** The pipeline at work *)

Lemma sample_store_returns_stored : store_returns_stored sample_env.
Proof.
  intros f id [= <-]. eexists. split; [reflexivity|]. split; [reflexivity|].
  reflexivity.
Qed.


(** The bound cipher inverts encryption for each conversation under the
    session key that [decryptMessage] makes for that conversation. *)
Lemma sample_bound_seal_inverts conversationId participants txBytes :
  decrypt_inverts_encrypt sample_env sample_bound_seal conversationId participants
    None txBytes.
Proof.
  unfold decrypt_inverts_encrypt, finalSessionKey, createSessionKey.
  generalize (finalTxBytes conversationId participants txBytes).
  generalize (snd (createConversationIdentity conversationId participants)).
  intros id tx data encrypted Henc.
  assert (He : encrypted = (id ++ [0]) ++ rev data).
  { cbn in Henc. injection Henc as <-. rewrite <- app_assoc. reflexivity. }
  subst encrypted.
  cbn [seal_decrypt sample_bound_seal identity_of_key].
  assert (Hlen : S (length id) = length (id ++ [0]))
    by (rewrite length_app; cbn [length]; lia).
  rewrite (take_app_length' (id ++ [0]) (rev data) _ Hlen).
  rewrite bool_decide_eq_true_2 by reflexivity.
  rewrite (drop_app_length' (id ++ [0]) (rev data) _ Hlen).
  rewrite rev_involutive. reflexivity.
Qed.

Lemma verifyMessageHash_exact_witness :
  verifyMessageHash sample_env (lit "hello")
    (checksum32 (TextEncoder_encode (lit "hello"))) = true
  /\ verifyMessageHash sample_env (lit "hello")
       (take 31 (checksum32 (TextEncoder_encode (lit "hello")))) = false.
Proof.
  split.
  - apply (verifyMessageHash_exact sample_env (lit "hello")). reflexivity.
  - destruct (verifyMessageHash_exact sample_env (lit "hello")
                (take 31 (checksum32 (TextEncoder_encode (lit "hello")))))
      as [_ H].
    destruct (H _ eq_refl) as [Hlen _]. apply Hlen. vm_compute. lia.
Defined.

Lemma decryptMessage_leaves_verification_to_the_caller_witness :
  let blob := rev (TextEncoder_encode (lit "hullo")) in
  let expected := checksum32 (TextEncoder_encode (lit "hello")) in
  decryptMessage sample_env blob sample_seal sample_conversation
                 sample_participants None None = Resolved (lit "hullo")
  /\ verifyMessageHash sample_env (lit "hullo") expected = false.
Proof.
  intros blob expected.
  destruct (decryptMessage_leaves_verification_to_the_caller unit sample_env
              sample_seal blob expected sample_conversation sample_participants
              None None
              (mkResponse true (lit "OK") (Resolved blob)) blob
              (TextEncoder_encode (lit "hullo")))
    as (Hd & Hv & _); try (vm_compute; reflexivity).
  split; [exact Hd|].
  destruct (verifyMessageHash sample_env (lit "hullo") expected) eqn:E;
    [|reflexivity].
  apply Hv in E. vm_compute in E. discriminate.
Defined.

(** [decryptMessage] hands out a plaintext that fails verification: the blob
    decrypts to "hullo" while the digest on the ledger is that of "hello". *)
Lemma decryptMessage_returns_unverified_plaintext :
  let blob := rev (TextEncoder_encode (lit "hullo")) in
  let expected := checksum32 (TextEncoder_encode (lit "hello")) in
  exists plaintext,
    decryptMessage sample_env blob sample_seal sample_conversation
                   sample_participants None None = Resolved plaintext
    /\ verifyMessageHash sample_env plaintext expected = false.
Proof.
  exists (lit "hullo"). split; vm_compute; reflexivity.
Qed.



(* ===================================================================== *)
(** * More facts about the client pipeline                                 *)
(* ===================================================================== *)

(** ** The codec on arbitrary strings *)

Lemma scalar_values_are_scalars (n : nat) : forall s : list N,
  (length s <= n)%nat -> valid_string s ->
  Forall (fun cp => is_scalar cp = true) (scalar_values s).
Proof.
  induction n as [|n IH]; intros [|u rest] Hlen Hv; try constructor;
    cbn [length] in Hlen; [lia|].
  apply Forall_cons in Hv as [Hu Hrest]. cbn [scalar_values].
  assert (Hrep : is_scalar REPLACEMENT = true) by reflexivity.
  destruct (is_high_surrogate u) eqn:Hh.
  - destruct rest as [|v rest']; [repeat constructor; exact Hrep|].
    destruct (is_low_surrogate v) eqn:Hl.
    + constructor; [apply (utf16_units_pair u v Hh Hl)|].
      apply Forall_cons in Hrest as [_ Hrest'].
      apply IH; [cbn [length] in Hlen; lia|exact Hrest'].
    + constructor; [exact Hrep|]. apply IH; [lia|exact Hrest].
  - destruct (is_low_surrogate u) eqn:Hl.
    + constructor; [exact Hrep|]. apply IH; [lia|exact Hrest].
    + constructor; [apply (utf16_units_bmp u Hh Hl Hu)|].
      apply IH; [lia|exact Hrest].
Qed.

Lemma utf16_units_scalar_values (cp : N) (rest : list N) :
  is_scalar cp = true ->
  scalar_values (utf16_units cp ++ rest) = cp :: scalar_values rest.
Proof.
  intros Hs. apply is_scalar_bounds in Hs as [Hmax Hsur].
  unfold utf16_units. destruct (N.ltb_spec cp 0x10000) as [Hb|Hb].
  - cbn [app scalar_values].
    destruct (is_high_surrogate cp) eqn:Hh;
      [apply (surrogate_ranges cp) in Hh; lia|].
    destruct (is_low_surrogate cp) eqn:Hl;
      [apply (surrogate_ranges cp) in Hl; lia|].
    reflexivity.
  - rewrite shiftr_10, land_3FF. cbn [app scalar_values].
    set (hi := 0xD800 + (cp - 0x10000) / 1024).
    set (lo := 0xDC00 + (cp - 0x10000) mod 1024).
    assert (Hh : is_high_surrogate hi = true)
      by (apply (surrogate_ranges hi); unfold hi; lia).
    assert (Hl : is_low_surrogate lo = true)
      by (apply (surrogate_ranges lo); unfold lo; lia).
    rewrite Hh, Hl. f_equal. unfold hi, lo. lia.
Qed.

Lemma scalar_values_of_units (cps : list N) :
  Forall (fun cp => is_scalar cp = true) cps ->
  scalar_values (concat (map utf16_units cps)) = cps.
Proof.
  induction 1 as [|cp cps Hcp _ IH]; [reflexivity|].
  cbn [map concat]. rewrite utf16_units_scalar_values by assumption.
  f_equal. exact IH.
Qed.

Lemma utf8_decode_encoded (s : list N) :
  valid_string s ->
  utf8_decode_from utf8_initial (TextEncoder_encode s) = scalar_values s.
Proof.
  intros Hv. unfold TextEncoder_encode. apply utf8_decode_scalars.
  apply (scalar_values_are_scalars (length s)); [lia|exact Hv].
Qed.

(** What one pass through the codec gives: the scalar values of the
    string, without a leading byte order mark, as code units again. *)
Lemma text_codec_pass (s : list N) :
  valid_string s ->
  TextDecoder_decode (TextEncoder_encode s)
  = concat (map utf16_units (strip_bom (scalar_values s))).
Proof.
  intros Hv. unfold TextDecoder_decode, TextEncoder_encode.
  rewrite utf8_decode_scalars; [reflexivity|].
  apply (scalar_values_are_scalars (length s)); [lia|exact Hv].
Qed.

Lemma text_codec_pass_same_bytes (s : list N) :
  valid_string s -> head (scalar_values s) <> Some BOM ->
  TextEncoder_encode (TextDecoder_decode (TextEncoder_encode s))
  = TextEncoder_encode s.
Proof.
  intros Hv Hb. rewrite text_codec_pass by assumption.
  rewrite strip_bom_none by assumption.
  unfold TextEncoder_encode at 1. rewrite scalar_values_of_units; [reflexivity|].
  apply (scalar_values_are_scalars (length s)); [lia|exact Hv].
Qed.

Lemma head_scalar_values (s : list N) :
  head s <> Some BOM -> head (scalar_values s) <> Some BOM.
Proof.
  destruct s as [|u rest]; [intros H; exact H|]. cbn [head scalar_values].
  intros Hu. destruct (is_high_surrogate u) eqn:Hh.
  - destruct rest as [|v rest']; [discriminate|].
    destruct (is_low_surrogate v) eqn:Hl; cbn [head]; [|discriminate].
    pose proof (utf16_units_pair u v Hh Hl) as (_ & _ & Hb). congruence.
  - destruct (is_low_surrogate u); cbn [head]; [discriminate|exact Hu].
Qed.

(** ** Media *)

Lemma decryptMedia_resolves {K} (env : Env) (sealClient : SealClient K)
    (blob conversationId : list N) (participants : list (list N))
    (mime : option (list N)) (sessionKey : option K) (txBytes : option (list N))
    (response : Response) (encrypted data : list N) :
  fetch env (WalrusService_getBlobUrl env blob) = Resolved response ->
  ok response = true ->
  arrayBuffer response = Resolved encrypted ->
  seal_decrypt sealClient encrypted
    (finalSessionKey env conversationId participants sessionKey)
    (finalTxBytes conversationId participants txBytes) = Resolved data ->
  decryptMedia env blob sealClient conversationId participants mime sessionKey txBytes
  = Resolved (new_Blob data
                (or_else (default [] mime) (lit "application/octet-stream"))).
Proof.
  intros Hf Hok Hbody Hdec. unfold decryptMedia.
  rewrite Hf. cbn [and_then]. rewrite Hok. cbn [negb].
  rewrite Hbody. cbn [and_then].
  unfold finalSessionKey, finalTxBytes in Hdec. rewrite Hdec. reflexivity.
Qed.

(** A type in printable ASCII without capitals is kept as it is. *)
Lemma Blob_type_kept (t : list N) :
  Forall (fun u => 0x20 <= u <= 0x7E /\ ~ (0x41 <= u <= 0x5A)) t ->
  Blob_type t = t.
Proof.
  unfold Blob_type. induction 1 as [|u t [[H1 H2] Hu] _ IH]; [reflexivity|].
  cbn [forallb map].
  rewrite (proj2 (N.leb_le _ _) H1), (proj2 (N.leb_le _ _) H2). cbn [andb].
  destruct (forallb _ t) eqn:Hall.
  - rewrite IH. f_equal. unfold ascii_lowercase.
    destruct (N.leb_spec 0x41 u), (N.leb_spec u 0x5A); cbn [andb];
      try reflexivity.
    exfalso. apply Hu. split; assumption.
  - subst t. discriminate.
Qed.

(** A type with a character outside U+0020..U+007E is dropped. *)
Lemma Blob_type_dropped (t : list N) (u : N) :
  u ∈ t -> ~ (0x20 <= u <= 0x7E) -> Blob_type t = [].
Proof.
  intros Hin Hu. unfold Blob_type.
  assert (Hall : forallb (fun u => (0x20 <=? u) && (u <=? 0x7E)) t = false).
  { induction Hin as [u t|u v t _ IH]; cbn [forallb].
    - destruct (N.leb_spec 0x20 u), (N.leb_spec u 0x7E); cbn [andb];
        try reflexivity.
      exfalso. apply Hu. split; assumption.
    - rewrite IH by assumption. apply andb_false_r. }
  rewrite Hall. reflexivity.
Qed.

(** X11. Media round trip: when [encryptAndUploadMedia] resolves with
    a blob id, the blob store returns what was stored and decryption inverts
    encryption for this conversation, [decryptMedia] on that id with the same
    conversation and participants resolves with a [Blob] holding exactly the
    bytes of the file. Its type is what [new Blob] keeps of
    [originalMimeType || 'application/octet-stream']: the MIME type passed in
    when that is printable ASCII without capitals, the empty string when it
    has a character outside U+0020..U+007E, and [application/octet-stream]
    when it is absent or empty. *)
Theorem media_round_trip :
  forall (K : Type) (env : Env) (sealClient : SealClient K)
         (mediaFile : MediaFile) (conversationId : list N)
         (participants : list (list N)) (mime : option (list N))
         (sessionKey : option K) (txBytes : option (list N)) (id : list N),
    encryptAndUploadMedia env mediaFile sealClient conversationId participants
      = Resolved id ->
    store_returns_stored env ->
    decrypt_inverts_encrypt env sealClient conversationId participants
      sessionKey txBytes ->
    exists bytes kept,
      media_arrayBuffer mediaFile = Resolved bytes
      /\ decryptMedia env id sealClient conversationId participants mime
           sessionKey txBytes
         = Resolved (mkBlob bytes kept)
      /\ kept = Blob_type (or_else (default [] mime)
                             (lit "application/octet-stream"))
      /\ (forall t, mime = Some t -> t <> [] ->
            Forall (fun u => 0x20 <= u <= 0x7E /\ ~ (0x41 <= u <= 0x5A)) t ->
            kept = t)
      /\ (forall t u, mime = Some t -> u ∈ t -> ~ (0x20 <= u <= 0x7E) ->
            kept = [])
      /\ (mime = None \/ mime = Some [] ->
          kept = lit "application/octet-stream").
Proof.
  intros K env sealClient mediaFile conversationId participants mime
         sessionKey txBytes id Hup Hstore Hseal.
  unfold encryptAndUploadMedia, rethrow in Hup.
  destruct (media_arrayBuffer mediaFile) as [bytes|]; cbn [and_then] in Hup;
    [|discriminate].
  destruct (seal_encrypt sealClient _ _ _ _) as [e|] eqn:He; cbn [and_then] in Hup;
    [|discriminate].
  destruct (WalrusService_uploadFile env _) as [b|] eqn:Hu; cbn [and_then] in Hup;
    [|discriminate].
  injection Hup as ->.
  destruct (Hstore _ _ Hu) as (r & Hf & Hok & Hbody). cbn [file_bytes] in Hbody.
  exists bytes, (Blob_type (or_else (default [] mime)
                              (lit "application/octet-stream"))).
  split; [reflexivity|]. split.
  { eapply decryptMedia_resolves; try eassumption. eapply Hseal, He. }
  split; [reflexivity|]. split; [|split].
  - intros t -> Hne Ht. cbn [default].
    destruct t as [|u t]; [contradiction Hne; reflexivity|].
    cbn [or_else]. apply Blob_type_kept, Ht.
  - intros t u -> Hin Hout. cbn [default].
    destruct t as [|v t]; [apply elem_of_nil in Hin; contradiction|].
    cbn [or_else]. eapply Blob_type_dropped; eassumption.
  - intros [->| ->]; vm_compute; reflexivity.
Qed.

(** ** Outcomes of [decryptMessage] *)

(** X12. The outcomes of [decryptMessage]. It resolves exactly when
    the download answers with an ok response, the body can be read and Seal
    decrypts it, and then with the decoded plaintext; every rejection is an
    [Error] whose message starts with [Failed to decrypt message: ]; and a
    response that is not ok is rejected with the download message followed by
    the response's status text. *)
Theorem decryptMessage_outcomes :
  forall (K : Type) (env : Env) (sealClient : SealClient K)
         (blob conversationId : list N) (participants : list (list N))
         (sessionKey : option K) (txBytes : option (list N)),
    let run :=
      decryptMessage env blob sealClient conversationId participants
                     sessionKey txBytes in
    (forall p,
       run = Resolved p <->
       exists response encrypted data,
         fetch env (WalrusService_getBlobUrl env blob) = Resolved response
         /\ ok response = true
         /\ arrayBuffer response = Resolved encrypted
         /\ seal_decrypt sealClient encrypted
              (finalSessionKey env conversationId participants sessionKey)
              (finalTxBytes conversationId participants txBytes) = Resolved data
         /\ p = TextDecoder_decode data)
    /\ (forall t, run = Thrown t ->
          exists m, t = Error (lit "Failed to decrypt message: " ++ m))
    /\ (forall response,
          fetch env (WalrusService_getBlobUrl env blob) = Resolved response ->
          ok response = false ->
          run = Thrown (Error (lit "Failed to decrypt message: "
                               ++ lit "Failed to download encrypted message from Walrus: "
                               ++ statusText response))).
Proof.
  intros K env sealClient blob conversationId participants sessionKey txBytes run.
  split; [|split].
  - intros p. split.
    + unfold run, decryptMessage, rethrow.
      destruct (fetch env _) as [response|] eqn:Hf; cbn [and_then]; [|discriminate].
      destruct (ok response) eqn:Hok; cbn [negb]; [|discriminate].
      destruct (arrayBuffer response) as [encrypted|] eqn:Hb; cbn [and_then];
        [|discriminate].
      destruct (seal_decrypt sealClient encrypted _ _) as [data|] eqn:Hd;
        cbn [and_then]; [|discriminate].
      intros [= <-]. exists response, encrypted, data. repeat split; assumption.
    + intros (response & encrypted & data & Hf & Hok & Hb & Hd & ->).
      unfold run. eapply decryptMessage_resolves; eassumption.
  - intros t. unfold run, decryptMessage, rethrow.
    destruct (and_then _ _) as [p|t']; [discriminate|].
    intros [= <-]. eexists. reflexivity.
  - intros response Hf Hok. unfold run, decryptMessage, rethrow.
    rewrite Hf. cbn [and_then]. rewrite Hok. reflexivity.
Qed.

(** ** The digest of the store step *)

(** X13. The content hash that [encryptAndUploadMessage] returns
    verifies the message it was computed from, and verifies another string
    exactly when the two have the same SHA-256 digest of their UTF-8
    encodings. *)
Theorem stored_hash_verifies_the_message :
  forall (K : Type) (env : Env) (sealClient : SealClient K)
         (messageContent conversationId : list N) (participants : list (list N))
         (up : Uploaded),
    encryptAndUploadMessage env messageContent sealClient conversationId participants
      = Resolved up ->
    verifyMessageHash env messageContent (contentHash up) = true
    /\ (forall other,
          verifyMessageHash env other (contentHash up) = true
          <-> subtle_digest_SHA256 env (TextEncoder_encode other)
              = subtle_digest_SHA256 env (TextEncoder_encode messageContent)).
Proof.
  intros K env sealClient messageContent conversationId participants up Hup.
  apply encryptAndUploadMessage_resolved in Hup as (_ & Hh & _).
  split; [apply verifyMessageHash_accepts; exact Hh|].
  intros other. rewrite verifyMessageHash_accepts, Hh. reflexivity.
Qed.

(** ** Sending, then decrypting and verifying *)

(** X14. A message sent decrypts and verifies: when
    [encryptAndUploadMessage] resolves, the store returns what was stored and
    decryption inverts encryption for this conversation, [decryptMessage] on
    the returned blob id resolves with a text that [verifyMessageHash]
    accepts against the returned content hash, for every message that does
    not begin with U+FEFF; the text is the message after one pass through the
    codec, and the message itself when it is well-formed UTF-16. *)
Theorem sent_message_decrypts_and_verifies :
  forall (K : Type) (env : Env) (sealClient : SealClient K)
         (messageContent conversationId : list N) (participants : list (list N))
         (sessionKey : option K) (txBytes : option (list N)) (up : Uploaded),
    encryptAndUploadMessage env messageContent sealClient conversationId participants
      = Resolved up ->
    store_returns_stored env ->
    decrypt_inverts_encrypt env sealClient conversationId participants
      sessionKey txBytes ->
    valid_string messageContent ->
    head messageContent <> Some BOM ->
    exists p,
      decryptMessage env (blobId up) sealClient conversationId participants
                     sessionKey txBytes = Resolved p
      /\ verifyMessageHash env p (contentHash up) = true
      /\ p = TextDecoder_decode (TextEncoder_encode messageContent)
      /\ (well_formed messageContent = true -> p = messageContent).
Proof.
  intros K env sealClient messageContent conversationId participants
         sessionKey txBytes up Hup Hstore Hseal Hvalid Hbom.
  pose proof Hup as Hup'.
  apply encryptAndUploadMessage_resolved in Hup' as (encrypted & Hh & He & Hu).
  destruct (Hstore _ _ Hu) as (r & Hf & Hok & Hbody). cbn [file_bytes] in Hbody.
  pose proof (Hseal _ _ He) as Hd.
  exists (TextDecoder_decode (TextEncoder_encode messageContent)).
  split.
  { eapply decryptMessage_resolves; eassumption. }
  split.
  { apply verifyMessageHash_accepts.
    rewrite text_codec_pass_same_bytes; [exact Hh|exact Hvalid|].
    apply head_scalar_values, Hbom. }
  split; [reflexivity|].
  intros Hwf. apply text_codec_round_trip; assumption.
Qed.

Lemma TextEncoder_encode_bom (rest : list N) :
  TextEncoder_encode (BOM :: rest) = [0xEF; 0xBB; 0xBF] ++ TextEncoder_encode rest.
Proof. reflexivity. Qed.

(** X15. A message that begins with U+FEFF does not verify after its
    own round trip: the decoder drops the mark, so [decryptMessage] returns a
    text with the encoding of the rest of the message, and
    [verifyMessageHash] on it against the stored hash answers [false]
    (unless SHA-256 collides on the two encodings). *)
Theorem marked_message_fails_verification :
  forall (K : Type) (env : Env) (sealClient : SealClient K)
         (rest conversationId : list N) (participants : list (list N))
         (sessionKey : option K) (txBytes : option (list N)) (up : Uploaded),
    encryptAndUploadMessage env (BOM :: rest) sealClient conversationId participants
      = Resolved up ->
    store_returns_stored env ->
    decrypt_inverts_encrypt env sealClient conversationId participants
      sessionKey txBytes ->
    valid_string rest ->
    subtle_digest_SHA256 env (TextEncoder_encode rest)
      <> subtle_digest_SHA256 env ([0xEF; 0xBB; 0xBF] ++ TextEncoder_encode rest) ->
    exists p,
      decryptMessage env (blobId up) sealClient conversationId participants
                     sessionKey txBytes = Resolved p
      /\ TextEncoder_encode p = TextEncoder_encode rest
      /\ verifyMessageHash env p (contentHash up) = false.
Proof.
  intros K env sealClient rest conversationId participants
         sessionKey txBytes up Hup Hstore Hseal Hvalid Hdigest.
  pose proof Hup as Hup'.
  apply encryptAndUploadMessage_resolved in Hup' as (encrypted & Hh & He & Hu).
  destruct (Hstore _ _ Hu) as (r & Hf & Hok & Hbody). cbn [file_bytes] in Hbody.
  pose proof (Hseal _ _ He) as Hd.
  exists (TextDecoder_decode (TextEncoder_encode (BOM :: rest))).
  split.
  { eapply decryptMessage_resolves; eassumption. }
  assert (Hp : TextEncoder_encode (TextDecoder_decode (TextEncoder_encode (BOM :: rest)))
               = TextEncoder_encode rest).
  { assert (Hs : Forall (fun cp => is_scalar cp = true) (scalar_values rest))
      by (apply (scalar_values_are_scalars (length rest)); [lia|exact Hvalid]).
    unfold TextDecoder_decode. rewrite TextEncoder_encode_bom.
    change ([0xEF; 0xBB; 0xBF] ++ TextEncoder_encode rest)
      with (utf8_encode_scalar BOM ++ TextEncoder_encode rest).
    rewrite utf8_decode_scalar by reflexivity.
    rewrite utf8_decode_encoded by assumption.
    cbn [strip_bom]. rewrite N.eqb_refl.
    unfold TextEncoder_encode. rewrite scalar_values_of_units by assumption.
    reflexivity. }
  split; [exact Hp|].
  destruct (verifyMessageHash env _ (contentHash up)) eqn:Hv; [|reflexivity].
  exfalso. apply verifyMessageHash_accepts in Hv. rewrite <- Hh in Hv.
  apply Hdigest. rewrite <- TextEncoder_encode_bom, <- Hv, Hp. reflexivity.
Qed.

(** ** The reader of the guide *)

(** Up to the identity, [decryptMessage] runs the same with and without
    [participants]: when the download gives no body, both reject alike. *)
Lemma decryptMessage_participants_undefined_agrees {K} (env : Env)
    (sealClient : SealClient K) (TypeError_message blob conversationId : list N)
    (participants : list (list N)) (sessionKey : option K)
    (txBytes : option (list N)) :
  (forall response encrypted,
     fetch env (WalrusService_getBlobUrl env blob) = Resolved response ->
     ok response = true -> arrayBuffer response <> Resolved encrypted) ->
  decryptMessage env blob sealClient conversationId participants sessionKey txBytes
  = decryptMessage_participants_undefined env TypeError_message blob sealClient.
Proof.
  intros Hnone. unfold decryptMessage, decryptMessage_participants_undefined.
  destruct (fetch env _) as [response|] eqn:Hf; cbn [and_then]; [|reflexivity].
  destruct (ok response) eqn:Hok; cbn [negb]; [|reflexivity].
  destruct (arrayBuffer response) as [encrypted|] eqn:Hb; cbn [and_then];
    [|reflexivity].
  exfalso. exact (Hnone response encrypted eq_refl Hok Hb).
Qed.



(** ** Bytes of the encoder *)

Lemma utf8_encode_scalar_range (cp : N) :
  is_scalar cp = true -> Forall (fun b => b < 256) (utf8_encode_scalar cp).
Proof.
  intros Hs. apply is_scalar_bounds in Hs as [Hmax _].
  rewrite utf8_encode_scalar_bytes by assumption.
  destruct (cp <? 0x80) eqn:H1; [apply N.ltb_lt in H1; repeat constructor; lia|].
  destruct (cp <? 0x800) eqn:H2; [apply N.ltb_lt in H2; repeat constructor; lia|].
  destruct (cp <? 0x10000) eqn:H3; [apply N.ltb_lt in H3; repeat constructor; lia|].
  repeat constructor; lia.
Qed.

Lemma TextEncoder_encode_range (s : list N) :
  valid_string s -> Forall (fun b => b < 256) (TextEncoder_encode s).
Proof.
  intros Hv. unfold TextEncoder_encode.
  pose proof (scalar_values_are_scalars (length s) s (le_n _) Hv) as Hs.
  induction Hs as [|cp cps Hcp _ IH]; [constructor|].
  cbn [map concat]. apply Forall_app. split; [|exact IH].
  apply utf8_encode_scalar_range, Hcp.
Qed.

(** ** Hexadecimal *)

Lemma hex_byte (b : N) :
  b < 256 -> padStart0 2 (toString16 b) = [hex_digit (b / 16); hex_digit (b mod 16)].
Proof.
  intros Hb. unfold toString16. destruct (N.ltb_spec b 16).
  - cbn. replace (b / 16) with 0 by lia. replace (b mod 16) with b by lia.
    reflexivity.
  - reflexivity.
Qed.

Lemma hex_digit_is_hex (d : N) : d < 16 -> is_hex_digit (hex_digit d).
Proof.
  intros Hd. unfold hex_digit, is_hex_digit. destruct (N.ltb_spec d 10); lia.
Qed.

Lemma hex_digit_inj (d e : N) : d < 16 -> e < 16 -> hex_digit d = hex_digit e -> d = e.
Proof.
  unfold hex_digit. intros Hd He.
  destruct (N.ltb_spec d 10), (N.ltb_spec e 10); lia.
Qed.

Lemma hex_of_bytes_cons (b : N) (bytes : list N) :
  b < 256 ->
  hex_of_bytes (b :: bytes)
  = hex_digit (b / 16) :: hex_digit (b mod 16) :: hex_of_bytes bytes.
Proof. intros Hb. unfold hex_of_bytes. cbn [map concat]. rewrite hex_byte by assumption. reflexivity. Qed.

Lemma hex_of_bytes_format (bytes : list N) :
  Forall (fun b => b < 256) bytes ->
  length (hex_of_bytes bytes) = (2 * length bytes)%nat
  /\ Forall is_hex_digit (hex_of_bytes bytes).
Proof.
  induction 1 as [|b bytes Hb _ [IH1 IH2]]; [split; [reflexivity|constructor]|].
  rewrite hex_of_bytes_cons by assumption. cbn [length]. split; [lia|].
  constructor; [apply hex_digit_is_hex; lia|].
  constructor; [apply hex_digit_is_hex; lia|]. exact IH2.
Qed.

Lemma hex_of_bytes_inj (a b : list N) :
  Forall (fun x => x < 256) a -> Forall (fun x => x < 256) b ->
  hex_of_bytes a = hex_of_bytes b -> a = b.
Proof.
  intros Ha. revert b. induction Ha as [|x a Hx _ IH]; intros b Hb.
  - destruct Hb as [|y b Hy _]; [reflexivity|].
    rewrite hex_of_bytes_cons by assumption. discriminate.
  - destruct Hb as [|y b Hy Hb]; rewrite !hex_of_bytes_cons by assumption;
      [discriminate|].
    intros [= H1 H2 H3].
    apply hex_digit_inj in H1; [|lia..]. apply hex_digit_inj in H2; [|lia..].
    f_equal; [lia|]. apply IH; assumption.
Qed.

Lemma identity_is_hex (conversationId : list N) (participants : list (list N)) :
  snd (createConversationIdentity conversationId participants)
  = hex_of_bytes (TextEncoder_encode
      (conversationId ++ lit "-" ++ Array_join (lit "-") (Array_sort participants))).
Proof. reflexivity. Qed.

(** ** Well-formed strings and the encoder *)

Lemma well_formed_valid (n : nat) : forall s : list N,
  (length s <= n)%nat -> well_formed s = true -> valid_string s.
Proof.
  induction n as [|n IH]; intros [|u rest] Hlen Hwf; try constructor;
    cbn [length] in Hlen; [lia|lia| |].
  - cbn [well_formed] in Hwf. destruct (is_high_surrogate u) eqn:Hh.
    + apply (surrogate_ranges u) in Hh. lia.
    + apply andb_true_iff in Hwf as [Hwf _]. apply andb_true_iff in Hwf as [_ Hu].
      apply N.ltb_lt, Hu.
  - cbn [well_formed] in Hwf. destruct (is_high_surrogate u) eqn:Hh.
    + destruct rest as [|v rest']; [discriminate|].
      apply andb_true_iff in Hwf as [Hv Hwf].
      constructor; [apply (surrogate_ranges v) in Hv; lia|].
      apply IH; [cbn [length] in Hlen; lia|exact Hwf].
    + apply andb_true_iff in Hwf as [_ Hwf]. apply IH; [lia|exact Hwf].
Qed.

Lemma TextEncoder_encode_inj (s1 s2 : list N) :
  well_formed s1 = true -> well_formed s2 = true ->
  TextEncoder_encode s1 = TextEncoder_encode s2 -> s1 = s2.
Proof.
  intros H1 H2 He.
  pose proof (well_formed_valid _ s1 (le_n _) H1) as V1.
  pose proof (well_formed_valid _ s2 (le_n _) H2) as V2.
  apply (f_equal (utf8_decode_from utf8_initial)) in He.
  rewrite !utf8_decode_encoded in He by assumption.
  destruct (well_formed_scalar_values _ s1 (le_n _) H1) as (_ & <- & _).
  destruct (well_formed_scalar_values _ s2 (le_n _) H2) as (_ & <- & _).
  rewrite He. reflexivity.
Qed.

Lemma well_formed_app (n : nat) : forall a b : list N,
  (length a <= n)%nat ->
  well_formed a = true -> well_formed b = true -> well_formed (a ++ b) = true.
Proof.
  induction n as [|n IH]; intros [|u rest] b Hlen Ha Hb; try exact Hb;
    cbn [length] in Hlen; [lia|].
  cbn [well_formed app] in *. destruct (is_high_surrogate u).
  - destruct rest as [|v rest']; [discriminate|]. cbn [app].
    apply andb_true_iff in Ha as [Hv Ha]. rewrite Hv. cbn [andb].
    apply IH; [cbn [length] in Hlen; lia|assumption..].
  - apply andb_true_iff in Ha as [Hu Ha]. rewrite Hu. cbn [andb].
    apply IH; [lia|assumption..].
Qed.

Lemma well_formed_join (l : list (list N)) :
  Forall (fun s => well_formed s = true) l ->
  well_formed (Array_join (lit "-") l) = true.
Proof.
  induction 1 as [|x l Hx Hl IH]; [reflexivity|].
  destruct l as [|y l']; [exact Hx|].
  change (Array_join (lit "-") (x :: y :: l'))
    with (x ++ lit "-" ++ Array_join (lit "-") (y :: l')).
  apply (well_formed_app (length x)); [lia|exact Hx|].
  apply (well_formed_app (length (lit "-"))); [lia|reflexivity|exact IH].
Qed.

(** ** Splitting at the first dash *)

Lemma split_at_dash (x x' r r' : list N) :
  dash_free x -> dash_free x' ->
  x ++ 45 :: r = x' ++ 45 :: r' -> x = x' /\ r = r'.
Proof.
  unfold dash_free. revert x'. induction x as [|a x IH]; intros [|a' x'] Hx Hx';
    cbn [app].
  - intros [= ->]. split; reflexivity.
  - intros [= <- _]. exfalso. apply Hx'. left.
  - intros [= -> _]. exfalso. apply Hx. left.
  - intros [= -> H]. apply IH in H as [-> ->]; [split; reflexivity| |].
    + intros Hin. apply Hx. right. exact Hin.
    + intros Hin. apply Hx'. right. exact Hin.
Qed.

Lemma Array_join_cons (x y : list N) (l : list (list N)) :
  Array_join (lit "-") (x :: y :: l) = x ++ 45 :: Array_join (lit "-") (y :: l).
Proof. reflexivity. Qed.

Lemma Array_join_inj (l l' : list (list N)) :
  Forall dash_free l -> Forall dash_free l' -> l <> [] -> l' <> [] ->
  Array_join (lit "-") l = Array_join (lit "-") l' -> l = l'.
Proof.
  intros Hl. revert l'. induction Hl as [|x l Hx Hl IH]; intros l' Hl' Hn Hn';
    [contradiction|].
  destruct Hl' as [|x' l' Hx' Hl']; [contradiction|].
  destruct l as [|y l], l' as [|y' l'].
  - cbn. intros ->. reflexivity.
  - rewrite Array_join_cons. cbn [Array_join]. intros ->.
    exfalso. apply Hx. apply elem_of_app. right. left.
  - rewrite Array_join_cons. cbn [Array_join]. intros <-.
    exfalso. apply Hx'. apply elem_of_app. right. left.
  - rewrite !Array_join_cons. intros H.
    apply split_at_dash in H as [-> H]; [|assumption..].
    f_equal. apply IH; [assumption|discriminate|discriminate|exact H].
Qed.

(** ** Sorting keeps the elements *)

Lemma sort_insert_permutation (x : list N) (l : list (list N)) :
  sort_insert x l ≡ₚ x :: l.
Proof.
  induction l as [|y l IH]; [reflexivity|]. cbn [sort_insert].
  destruct (string_lt x y); [reflexivity|].
  rewrite IH. apply Permutation_swap.
Qed.

Lemma Array_sort_is_permutation (l : list (list N)) : Array_sort l ≡ₚ l.
Proof.
  induction l as [|x l IH]; [reflexivity|]. cbn [Array_sort].
  rewrite sort_insert_permutation, IH. reflexivity.
Qed.

(** X16. For well-formed, non-empty lists of participants and
    strings without the character [-], [createConversationIdentity] gives
    the same identity exactly when the conversation ids are equal and the
    participant lists are permutations of each other. *)
Theorem identity_separates_conversations :
  forall (conversationId conversationId' : list N)
         (participants participants' : list (list N)),
    well_formed conversationId = true -> well_formed conversationId' = true ->
    dash_free conversationId -> dash_free conversationId' ->
    Forall (fun p => well_formed p = true /\ dash_free p) participants ->
    Forall (fun p => well_formed p = true /\ dash_free p) participants' ->
    participants <> [] -> participants' <> [] ->
    (snd (createConversationIdentity conversationId participants)
       = snd (createConversationIdentity conversationId' participants')
     <-> conversationId = conversationId' /\ participants ≡ₚ participants').
Proof.
  intros cid cid' ps ps' Hw Hw' Hd Hd' Hps Hps' Hn Hn'. split.
  - rewrite !identity_is_hex. intros H.
    assert (Hs : Forall (fun p => well_formed p = true /\ dash_free p) (Array_sort ps))
      by (rewrite Array_sort_is_permutation; exact Hps).
    assert (Hs' : Forall (fun p => well_formed p = true /\ dash_free p) (Array_sort ps'))
      by (rewrite Array_sort_is_permutation; exact Hps').
    apply Forall_and in Hs as [Hsw Hsd]. apply Forall_and in Hs' as [Hsw' Hsd'].
    assert (Hwf : forall c l, well_formed c = true ->
                    Forall (fun s => well_formed s = true) l ->
                    well_formed (c ++ lit "-" ++ Array_join (lit "-") l) = true).
    { intros c l Hc Hl. apply (well_formed_app (length c)); [lia|exact Hc|].
      apply (well_formed_app (length (lit "-"))); [lia|reflexivity|].
      apply well_formed_join, Hl. }
    apply hex_of_bytes_inj in H.
    2,3: apply TextEncoder_encode_range, (well_formed_valid _ _ (le_n _)), Hwf;
         assumption.
    apply TextEncoder_encode_inj in H; [|apply Hwf; assumption..].
    change (lit "-" ++ ?x) with (45 :: x) in H.
    apply split_at_dash in H as [-> H]; [|assumption..].
    split; [reflexivity|].
    apply Array_join_inj in H; try assumption.
    + rewrite <- (Array_sort_is_permutation ps), H. apply Array_sort_is_permutation.
    + intros E. apply Hn. apply Permutation_nil_r.
      rewrite <- E. symmetry. apply Array_sort_is_permutation.
    + intros E. apply Hn'. apply Permutation_nil_r.
      rewrite <- E. symmetry. apply Array_sort_is_permutation.
  - intros [-> Hp]. rewrite (createConversationIdentity_permutation _ _ _ Hp).
    reflexivity.
Qed.

(** X17. The separator is not escaped: a participant [p-q] alone
    and the two participants [p], [q] get the same identity, and so does the
    conversation id extended by [-p] with the participant [q]. *)
Theorem dashes_make_identities_collide :
  forall (conversationId p q : list N),
    string_lt p q = true ->
    snd (createConversationIdentity conversationId [p ++ lit "-" ++ q])
      = snd (createConversationIdentity conversationId [p; q])
    /\ snd (createConversationIdentity (conversationId ++ lit "-" ++ p) [q])
       = snd (createConversationIdentity conversationId [p; q]).
Proof.
  intros cid p q Hlt. unfold createConversationIdentity.
  cbn [Array_sort sort_insert snd]. rewrite Hlt. cbn [Array_join].
  split; [reflexivity|]. rewrite <- !app_assoc. reflexivity.
Qed.

Lemma TextEncoder_encode_ascii (a s : list N) :
  ascii_string a -> TextEncoder_encode (a ++ s) = a ++ TextEncoder_encode s.
Proof.
  induction 1 as [|u a Hu _ IH]; [reflexivity|].
  unfold TextEncoder_encode in *. cbn [app scalar_values].
  destruct (is_high_surrogate u) eqn:Hh;
    [apply (surrogate_ranges u) in Hh; lia|].
  destruct (is_low_surrogate u) eqn:Hl;
    [apply (surrogate_ranges u) in Hl; lia|].
  cbn [map concat]. rewrite IH. unfold utf8_encode_scalar.
  destruct (N.ltb_spec u 0x80); [reflexivity|lia].
Qed.

Lemma hex_of_bytes_ascii (bytes : list N) :
  Forall (fun b => b < 256) bytes -> ascii_string (hex_of_bytes bytes).
Proof.
  intros Hb. destruct (hex_of_bytes_format bytes Hb) as [_ Hh].
  eapply Forall_impl; [exact Hh|]. unfold is_hex_digit. intros c Hc. lia.
Qed.

Lemma cyclic_prefix (known tail : list N) :
  length known = 64%nat ->
  map (fun i => nth (i mod length (known ++ tail))%nat (known ++ tail) 0) (seq 0 64)
  = known.
Proof.
  intros Hlen. apply list_eq. intros i.
  rewrite list_lookup_fmap. destruct (decide (i < 64)%nat) as [Hi|Hi].
  - rewrite lookup_seq_lt by assumption. cbn [fmap option_fmap option_map].
    rewrite length_app, Nat.mod_small by lia. rewrite app_nth1 by lia.
    destruct (known !! i) as [x|] eqn:Hx.
    + f_equal. apply nth_lookup_Some with (d := 0) in Hx. exact Hx.
    + apply lookup_ge_None in Hx. lia.
  - rewrite lookup_seq_ge by lia. cbn.
    symmetry. apply lookup_ge_None. lia.
Qed.

Lemma createDecryptTransaction_long (head56 rest : list N) :
  length head56 = 56%nat -> ascii_string head56 ->
  createDecryptTransaction (head56 ++ rest) = lit "decrypt-" ++ head56.
Proof.
  intros Hlen Hascii. unfold createDecryptTransaction.
  rewrite (app_assoc (lit "decrypt-") head56 rest).
  rewrite TextEncoder_encode_ascii.
  - apply cyclic_prefix. rewrite length_app, Hlen. reflexivity.
  - apply Forall_app. split; [|exact Hascii]. repeat constructor.
Qed.

(** X18. [createDecryptTransaction] always returns 64 bytes, and
    for an ASCII identity of 56 characters or more these are [decrypt-]
    followed by the first 56 characters of the identity: the rest of the
    identity is dropped. *)
Theorem createDecryptTransaction_truncates :
  forall (identity : list N),
    length (createDecryptTransaction identity) = 64%nat
    /\ (forall (head56 rest : list N),
          identity = head56 ++ rest -> length head56 = 56%nat ->
          ascii_string head56 ->
          createDecryptTransaction identity = lit "decrypt-" ++ head56).
Proof.
  intros identity. split.
  - unfold createDecryptTransaction. rewrite length_map, length_seq. reflexivity.
  - intros head56 rest -> Hlen Hascii.
    apply createDecryptTransaction_long; assumption.
Qed.

(** X19. Two conversations whose ids share their first 28
    (ASCII) characters get the same decrypt transaction bytes, whatever the
    rest of the ids and whoever the participants: the 64 bytes hold the
    prefix [decrypt-] and the hexadecimal form of those 28 characters only. *)
Theorem decrypt_transaction_ignores_participants :
  forall (head28 tail tail' : list N) (participants participants' : list (list N)),
    length head28 = 28%nat -> ascii_string head28 ->
    createDecryptTransaction
      (snd (createConversationIdentity (head28 ++ tail) participants))
    = createDecryptTransaction
        (snd (createConversationIdentity (head28 ++ tail') participants'))
    /\ createDecryptTransaction
         (snd (createConversationIdentity (head28 ++ tail) participants))
       = lit "decrypt-" ++ hex_of_bytes head28.
Proof.
  assert (H : forall head28 tail participants,
    length head28 = 28%nat -> ascii_string head28 ->
    createDecryptTransaction
      (snd (createConversationIdentity (head28 ++ tail) participants))
    = lit "decrypt-" ++ hex_of_bytes head28).
  { intros head28 tail ps Hlen Hascii. rewrite identity_is_hex.
    rewrite <- app_assoc, TextEncoder_encode_ascii by assumption.
    unfold hex_of_bytes at 1. rewrite map_app, concat_app. fold (hex_of_bytes head28).
    assert (Hb : Forall (fun b => b < 256) head28)
      by (eapply Forall_impl; [exact Hascii|]; intros b Hb; cbn in Hb; lia).
    apply createDecryptTransaction_long.
    - destruct (hex_of_bytes_format head28 Hb) as [-> _]. rewrite Hlen. reflexivity.
    - apply hex_of_bytes_ascii, Hb. }
  intros head28 tail tail' ps ps' Hlen Hascii.
  rewrite !H by assumption. split; reflexivity.
Qed.

Lemma string_le_trans (a b c : list N) :
  string_le a b -> string_le b c -> string_le a c.
Proof.
  unfold string_le. intros Hab Hbc.
  destruct (string_lt c a) eqn:Hca; [exfalso|reflexivity].
  destruct (string_lt a b) eqn:Hlt.
  - pose proof (string_lt_trans _ _ _ Hca Hlt) as Hcb. congruence.
  - pose proof (string_lt_total _ _ Hlt Hab) as ->. congruence.
Qed.

Lemma sort_insert_sorted (x : list N) (l : list (list N)) :
  StronglySorted string_le l -> StronglySorted string_le (sort_insert x l).
Proof.
  induction 1 as [|y l Hl IH Hy]; cbn [sort_insert]; [repeat constructor|].
  destruct (string_lt x y) eqn:Hxy.
  - constructor; [constructor; assumption|].
    assert (Hle : string_le x y) by (apply string_lt_asym, Hxy).
    constructor; [exact Hle|].
    eapply Forall_impl; [exact Hy|]. intros z Hz. eapply string_le_trans; eassumption.
  - constructor; [exact IH|].
    rewrite sort_insert_permutation. constructor; [exact Hxy|exact Hy].
Qed.

Lemma Array_sort_sorted (l : list (list N)) : StronglySorted string_le (Array_sort l).
Proof.
  induction l as [|x l IH]; [constructor|]. cbn [Array_sort].
  apply sort_insert_sorted, IH.
Qed.

(** X20. [createConversationIdentity] sorts the caller's
    participants array in place: afterwards the array is a permutation of
    what it was, ordered by code units, and calling again with it gives the
    same array and the same identity. *)
Theorem createConversationIdentity_sorts_in_place :
  forall (conversationId : list N) (participants : list (list N)),
    let after := fst (createConversationIdentity conversationId participants) in
    after ≡ₚ participants
    /\ StronglySorted string_le after
    /\ createConversationIdentity conversationId after
       = createConversationIdentity conversationId participants.
Proof.
  intros cid ps after. unfold after. cbn [createConversationIdentity fst].
  split; [apply Array_sort_is_permutation|].
  split; [apply Array_sort_sorted|].
  apply createConversationIdentity_permutation, Array_sort_is_permutation.
Qed.

Lemma valid_string_join (l : list (list N)) :
  Forall valid_string l -> valid_string (Array_join (lit "-") l).
Proof.
  induction 1 as [|x l Hx Hl IH]; [constructor|].
  destruct l as [|y l']; [exact Hx|].
  change (Array_join (lit "-") (x :: y :: l'))
    with (x ++ lit "-" ++ Array_join (lit "-") (y :: l')).
  apply Forall_app. split; [exact Hx|]. apply Forall_app. split; [|exact IH].
  repeat constructor.
Qed.

(** X21. The identity consists of the characters [0-9a-f] only,
    two for each byte of the UTF-8 encoding of the joined string, and, being
    ASCII, it is encoded byte for byte. *)
Theorem identity_is_lowercase_hex :
  forall (conversationId : list N) (participants : list (list N)),
    valid_string conversationId -> Forall valid_string participants ->
    let identity := snd (createConversationIdentity conversationId participants) in
    Forall is_hex_digit identity
    /\ length identity
       = (2 * length (TextEncoder_encode
                        (conversationId ++ lit "-"
                         ++ Array_join (lit "-") (Array_sort participants))))%nat
    /\ TextEncoder_encode identity = identity.
Proof.
  intros cid ps Hc Hps identity. unfold identity. rewrite identity_is_hex.
  assert (Hb : Forall (fun b => b < 256)
                 (TextEncoder_encode
                    (cid ++ lit "-" ++ Array_join (lit "-") (Array_sort ps)))).
  { apply TextEncoder_encode_range. apply Forall_app. split; [exact Hc|].
    apply Forall_app. split; [repeat constructor|].
    apply valid_string_join. rewrite Array_sort_is_permutation. exact Hps. }
  destruct (hex_of_bytes_format _ Hb) as [Hlen Hhex].
  split; [exact Hhex|]. split; [exact Hlen|].
  rewrite <- (app_nil_r (hex_of_bytes _)) at 1.
  rewrite TextEncoder_encode_ascii by (apply hex_of_bytes_ascii, Hb).
  apply app_nil_r.
Qed.

(* ===================================================================== *)
(** * More facts about the ledger                                          *)
(* ===================================================================== *)

Section MoreLedgerFacts.

Context {GlobalRegistry : Type}.
Context (increment_messages : GlobalRegistry -> result GlobalRegistry).

Local Abbreviation Ledger := (@Ledger GlobalRegistry).
Local Abbreviation execute := (execute increment_messages).
Local Abbreviation apply_tx := (apply_tx increment_messages).
Local Abbreviation send_message := (send_message increment_messages).
Local Abbreviation send_message_with_media :=
  (send_message_with_media increment_messages).
Local Abbreviation run_all := (run_all increment_messages).
Local Abbreviation tx_effect := (tx_effect (GlobalRegistry := GlobalRegistry)).
Local Abbreviation log_mirrors := (log_mirrors (GlobalRegistry := GlobalRegistry)).

(** ** Lookups *)

(** X1. On any registry, [conversation_exists] answers [true] for a pair
    exactly when [get_conversation_id] finds an id for it: the existence test
    and the lookup look at the same two directions of the index. *)
Theorem conversation_exists_iff_id :
  forall (registry : gmap N (gmap N N)) (user1 user2 : N),
    conversation_exists registry user1 user2 = true
    <-> is_Some (get_conversation_id registry user1 user2).
Proof.
  intros registry a b.
  rewrite conversation_exists_registered, get_conversation_id_registered.
  rewrite orb_true_iff, !bool_decide_eq_true.
  destruct (registered registry a b) as [i|]; [split; eauto|].
  split; [intros [[? [=]]|H]; exact H|intros H; right; exact H].
Qed.

(** X2. On every ledger reachable from genesis,
    [get_conversation_id] returns the id [i] for a pair exactly when the
    conversation stored under [i] has that pair as its participants (in either
    order), and the lookup does not depend on the order of the two users. *)
Theorem get_conversation_id_sound_and_complete :
  forall (g0 : GlobalRegistry) (l : Ledger) (user1 user2 : N) (i : N),
    reachable increment_messages g0 l ->
    (get_conversation_id (conversation_registry l) user1 user2 = Some i
     <-> exists c, conversations l !! i = Some c /\ same_pair c user1 user2)
    /\ get_conversation_id (conversation_registry l) user1 user2
       = get_conversation_id (conversation_registry l) user2 user1.
Proof.
  intros g0 l a b i Hreach.
  pose proof (reachable_consistent increment_messages g0 l Hreach) as Hl.
  assert (Hsym : forall x y,
            get_conversation_id (conversation_registry l) x y
            = registered (conversation_registry l) x y).
  { intros x y. rewrite get_conversation_id_registered.
    destruct (registered (conversation_registry l) x y) as [j|] eqn:Hxy;
      [reflexivity|].
    destruct (registered (conversation_registry l) y x) as [j|] eqn:Hyx;
      [|reflexivity].
    apply (registered_symmetric l y x j Hl) in Hyx. congruence. }
  split.
  - rewrite Hsym. split.
    + apply (index_sound l Hl).
    + intros (c & Hc & Hp).
      destruct (indexed_both_ways l Hl i c Hc) as [H1 H2].
      destruct Hp as [[<- <-]|[<- <-]]; assumption.
  - rewrite !Hsym.
    destruct (registered (conversation_registry l) a b) as [j|] eqn:Hab.
    + symmetry. apply (registered_symmetric l a b j Hl Hab).
    + destruct (registered (conversation_registry l) b a) as [j|] eqn:Hba;
        [|reflexivity].
      apply (registered_symmetric l b a j Hl) in Hba. congruence.
Qed.

(** ** [start_conversation] on any registry *)

(** X3. [start_conversation] aborts in one case only: the sender
    names themself, and the abort is [ECannotMessageSelf]. For every other
    pair it succeeds, whether the conversation exists or not. *)
Theorem start_conversation_aborts_only_on_self :
  forall (registry : gmap N (gmap N N)) (other_user : N) (clock : N)
         (ctx : TxContext) (e : abort),
    start_conversation registry other_user clock ctx = Aborted e
    <-> tx_sender ctx = other_user /\ e = ModuleAbort ECannotMessageSelf.
Proof.
  intros registry other clock ctx e.
  destruct (decide (tx_sender ctx = other)) as [Heq|Hne].
  - unfold start_conversation. rewrite bool_decide_eq_true_2 by assumption.
    cbn [negb assert bind]. split; [intros [= <-]; split; [assumption|reflexivity]|].
    intros [_ ->]. reflexivity.
  - split; [|intros [? _]; contradiction].
    destruct (conversation_exists registry (tx_sender ctx) other) eqn:Hex.
    + rewrite start_conversation_found by assumption. discriminate.
    + destruct (start_conversation_creates registry other clock ctx Hne Hex)
        as (ctx' & -> & _). discriminate.
Qed.

(** X4. A successful [start_conversation] changes the index for the
    pair of the sender and the other user only: for every other ordered pair,
    [get_conversation_id] and [conversation_exists] answer as before. *)
Theorem start_conversation_leaves_other_pairs :
  forall (registry registry' : gmap N (gmap N N)) (other_user : N) (clock : N)
         (ctx ctx' : TxContext) (a b : N),
    start_conversation registry other_user clock ctx = Ok (tt, (registry', ctx')) ->
    ~ ((a = tx_sender ctx /\ b = other_user) \/ (a = other_user /\ b = tx_sender ctx)) ->
    get_conversation_id registry' a b = get_conversation_id registry a b
    /\ conversation_exists registry' a b = conversation_exists registry a b.
Proof.
  intros registry registry' other clock ctx ctx' a b Hrun Hab.
  assert (Hreg : forall x y,
            ~ ((x = tx_sender ctx /\ y = other) \/ (x = other /\ y = tx_sender ctx)) ->
            registered registry' x y = registered registry x y).
  { intros x y Hxy.
    destruct (decide (tx_sender ctx = other)) as [Heq|Hne].
    { unfold start_conversation in Hrun.
      rewrite bool_decide_eq_true_2 in Hrun by assumption. discriminate. }
    destruct (conversation_exists registry (tx_sender ctx) other) eqn:Hex.
    - rewrite start_conversation_found in Hrun by assumption.
      injection Hrun as <- _. reflexivity.
    - destruct (start_conversation_creates registry other clock ctx Hne Hex)
        as (ctx'' & Hc & _).
      rewrite Hc in Hrun. injection Hrun as <- _.
      unfold created_registry. rewrite !registered_with_direction.
      repeat case_decide; try reflexivity; exfalso; intuition congruence. }
  assert (Hba : ~ ((b = tx_sender ctx /\ a = other) \/ (b = other /\ a = tx_sender ctx)))
    by (intuition congruence).
  rewrite !get_conversation_id_registered, !conversation_exists_registered.
  rewrite (Hreg a b Hab), (Hreg b a Hba). split; reflexivity.
Qed.

Lemma message_kept_refl (m : Message) : message_kept m m.
Proof. repeat split. intros H; exact H. Qed.

Lemma message_kept_trans (m1 m2 m3 : Message) :
  message_kept m1 m2 -> message_kept m2 m3 -> message_kept m1 m3.
Proof. unfold message_kept. intuition congruence. Qed.

Lemma message_kept_set_is_read (m : Message) : message_kept m (set_is_read m).
Proof. repeat split. Qed.

Lemma same_messages_refl (msgs : list Message) : same_messages msgs msgs.
Proof. induction msgs; constructor; [apply message_kept_refl|assumption]. Qed.

Lemma same_messages_trans (a b c : list Message) :
  same_messages a b -> same_messages b c -> same_messages a c.
Proof.
  intros Hab. revert c.
  induction Hab as [|x y a b Hxy _ IH]; intros c Hbc; inversion Hbc; subst;
    constructor.
  - eapply message_kept_trans; eassumption.
  - apply IH. assumption.
Qed.

Lemma mark_at_same_messages (msgs msgs' : list Message) reader index :
  mark_at msgs reader index = Ok msgs' -> same_messages msgs msgs'.
Proof.
  unfold mark_at. destruct (msgs !! N.to_nat index) as [m|] eqn:Hm; [|discriminate].
  destruct (negb _); intros [= <-]; [|apply same_messages_refl].
  apply Forall2_same_length_lookup. split; [rewrite length_insert; reflexivity|].
  intros k x y Hx Hy.
  destruct (decide (k = N.to_nat index)) as [->|Hk].
  - rewrite list_lookup_insert_eq in Hy by (apply lookup_lt_Some in Hm; lia).
    assert (x = m) by congruence. subst x. injection Hy as <-.
    apply message_kept_set_is_read.
  - rewrite list_lookup_insert_ne in Hy by congruence.
    assert (x = y) by congruence. subst y. apply message_kept_refl.
Qed.

Lemma mark_messages_as_read_helper_same_messages (n : nat) :
  forall (msgs msgs' : list Message) reader index end_index,
    N.to_nat (end_index - index) = n ->
    mark_messages_as_read_helper msgs reader index end_index = Ok msgs' ->
    same_messages msgs msgs'.
Proof.
  induction n as [|n IH]; intros msgs msgs' reader index end_index Hn;
    rewrite mark_messages_as_read_helper_unfold_1.
  - rewrite decide_True by lia. intros [= <-]. apply same_messages_refl.
  - rewrite decide_False by lia.
    destruct (mark_at msgs reader index) as [msgs1|] eqn:Hm; cbn [bind];
      [|discriminate].
    destruct (decide (index + 1 <= MAX_U64)); [|discriminate].
    intros Hrec. apply IH in Hrec; [|lia].
    eapply same_messages_trans; [eapply mark_at_same_messages, Hm|exact Hrec].
Qed.

Lemma mark_messages_as_read_same_messages (c c' : Conversation) up_to ctx r :
  mark_messages_as_read c up_to ctx = Ok (r, c') ->
  same_messages (messages c) (messages c')
  /\ last_message_timestamp_ms c' = last_message_timestamp_ms c
  /\ is_participant c (tx_sender ctx) = true.
Proof.
  unfold mark_messages_as_read. rewrite is_participant_sender.
  destruct (is_participant c (tx_sender ctx)); cbn [assert bind]; [|discriminate].
  destruct (if _ <=? _ then _ else _) as [end_index|]; cbn [bind]; [|discriminate].
  destruct (mark_messages_as_read_helper _ _ _ _) as [msgs'|] eqn:Hh;
    cbn [bind]; [|discriminate].
  intros [= <- <-]. cbn [messages last_message_timestamp_ms].
  split; [|split; reflexivity].
  eapply mark_messages_as_read_helper_same_messages; [reflexivity|exact Hh].
Qed.

Lemma send_message_result g (c : Conversation) blob hash clock ctx r g' c' ctx' :
  send_message g c blob hash clock ctx = Ok (r, (g', c', ctx')) ->
  c' = appended c (mkMessage (tx_sender ctx) blob hash clock false None)
  /\ ctx' = emit (MessageSent (uid c) (tx_sender ctx)
                    (other_participant c (tx_sender ctx)) clock) ctx
  /\ is_participant c (tx_sender ctx) = true
  /\ blob <> "" /\ hash <> [].
Proof.
  unfold Messaging.send_message.
  rewrite is_participant_sender, blob_length_positive, hash_length_positive.
  destruct (is_participant c (tx_sender ctx)); [|discriminate].
  destruct (bool_decide (blob = "")) eqn:Hb; [discriminate|].
  destruct (bool_decide (hash = [])) eqn:Hh; [discriminate|].
  cbn [assert negb bind].
  destruct (increment_messages g) as [g''|]; [|discriminate].
  cbn [bind]. intros [= <- <- <- <-].
  apply bool_decide_eq_false_1 in Hb, Hh. repeat split; assumption.
Qed.

Lemma send_message_with_media_result g (c : Conversation) blob hash media clock
    ctx r g' c' ctx' :
  send_message_with_media g c blob hash media clock ctx = Ok (r, (g', c', ctx')) ->
  c' = appended c (mkMessage (tx_sender ctx) blob hash clock false (Some media))
  /\ ctx' = emit (MessageSent (uid c) (tx_sender ctx)
                    (other_participant c (tx_sender ctx)) clock) ctx
  /\ is_participant c (tx_sender ctx) = true
  /\ blob <> "" /\ hash <> [] /\ media <> "".
Proof.
  unfold Messaging.send_message_with_media.
  rewrite is_participant_sender, !blob_length_positive, hash_length_positive.
  destruct (is_participant c (tx_sender ctx)); [|discriminate].
  destruct (bool_decide (blob = "")) eqn:Hb; [discriminate|].
  destruct (bool_decide (media = "")) eqn:Hm; [discriminate|].
  destruct (bool_decide (hash = [])) eqn:Hh; [discriminate|].
  cbn [assert negb bind].
  destruct (increment_messages g) as [g''|]; [|discriminate].
  cbn [bind]. intros [= <- <- <- <-].
  apply bool_decide_eq_false_1 in Hb, Hh, Hm. repeat split; assumption.
Qed.

Lemma execute_effect (l l' : Ledger) sender call :
  execute l sender call = Ok l' -> tx_effect l l'.
Proof.
  destruct call as [other clock|i blob hash clock|i blob hash media clock|i up_to].
  - destruct (decide (sender = other)) as [->|Hne].
    { unfold Messaging.execute, start_conversation. cbn [fresh_ctx tx_sender].
      rewrite bool_decide_eq_true_2 by reflexivity. discriminate. }
    destruct (conversation_exists (conversation_registry l) sender other) eqn:Hex.
    + rewrite execute_found by assumption. intros [= <-]. apply effect_none.
      reflexivity.
    + destruct (execute_created increment_messages l sender other clock Hne Hex)
        as (l1 & -> & Hr & _ & Hc & Hlog & Hn & _).
      intros [= <-]. eapply effect_created; eassumption.
  - unfold Messaging.execute, input_object.
    destruct (conversations l !! i) as [c|] eqn:Hc; cbn [bind]; [|discriminate].
    destruct (send_message _ _ _ _ _ _) as [[r [[g' c'] ctx']]|] eqn:Hs;
      cbn [bind]; [|discriminate].
    intros [= <-]. apply send_message_result in Hs as (-> & -> & Hp & Hb & Hh).
    eapply (effect_appended _ _ i c
              (mkMessage sender blob hash clock false None)); try eassumption;
      try reflexivity; try discriminate.
  - unfold Messaging.execute, input_object.
    destruct (conversations l !! i) as [c|] eqn:Hc; cbn [bind]; [|discriminate].
    destruct (send_message_with_media _ _ _ _ _ _ _) as [[r [[g' c'] ctx']]|] eqn:Hs;
      cbn [bind]; [|discriminate].
    intros [= <-].
    apply send_message_with_media_result in Hs as (-> & -> & Hp & Hb & Hh & Hm).
    eapply (effect_appended _ _ i c
              (mkMessage sender blob hash clock false (Some media)));
      try eassumption; try reflexivity; try discriminate.
    cbn. congruence.
  - unfold Messaging.execute, input_object.
    destruct (conversations l !! i) as [c|] eqn:Hc; cbn [bind]; [|discriminate].
    destruct (mark_messages_as_read _ _ _) as [[r c']|] eqn:Hs;
      cbn [bind]; [|discriminate].
    intros [= <-].
    pose proof (mark_messages_as_read_frame _ _ _ _ _ Hs) as (Hu & H1 & H2).
    apply mark_messages_as_read_same_messages in Hs as (Hm & Ht & _).
    eapply (effect_marked _ _ i c c'); try eassumption; try reflexivity.
    + unfold commit. cbn. rewrite Hu. reflexivity.
    + unfold commit. cbn. apply app_nil_r.
Qed.

(** ** History *)

Lemma history_kept_refl (c : Conversation) : history_kept c c.
Proof.
  repeat split. intros k m Hm. exists m. split; [exact Hm|apply message_kept_refl].
Qed.

Lemma history_kept_trans (c1 c2 c3 : Conversation) :
  history_kept c1 c2 -> history_kept c2 c3 -> history_kept c1 c3.
Proof.
  intros (Hu & H1 & H2 & Hm) (Hu' & H1' & H2' & Hm').
  repeat split; try congruence.
  intros k m Hk. destruct (Hm k m Hk) as (m2 & Hk2 & Hkept).
  destruct (Hm' k m2 Hk2) as (m3 & Hk3 & Hkept').
  exists m3. split; [exact Hk3|]. eapply message_kept_trans; eassumption.
Qed.

Lemma effect_keeps_history (l l' : Ledger) i c :
  consistent l -> tx_effect l l' -> conversations l !! i = Some c ->
  exists c', conversations l' !! i = Some c' /\ history_kept c c'.
Proof.
  intros Hl He Hc. destruct He as [->|A B clock _ _ _ Hcs _ _
                                   |j c0 m Hj _ _ _ _ _ _ Hcs _ _
                                   |j c0 c1 Hj Hu H1 H2 _ Hm _ Hcs _ _].
  - exists c. split; [exact Hc|apply history_kept_refl].
  - exists c. split; [|apply history_kept_refl].
    rewrite Hcs, lookup_insert_ne; [exact Hc|].
    intros <-. apply (ids_used l Hl) in Hc. lia.
  - pose proof (stored_under_id l Hl j c0 Hj) as Hid. rewrite Hcs, Hid.
    destruct (decide (j = i)) as [->|Hji].
    + rewrite lookup_insert_eq. assert (c0 = c) by congruence. subst c0.
      eexists. split; [reflexivity|]. repeat split.
      intros k x Hk. exists x. split; [|apply message_kept_refl].
      cbn [appended messages]. apply lookup_app_l_Some, Hk.
    + rewrite lookup_insert_ne by assumption.
      exists c. split; [exact Hc|apply history_kept_refl].
  - pose proof (stored_under_id l Hl j c0 Hj) as Hid. rewrite Hcs, Hid.
    destruct (decide (j = i)) as [->|Hji].
    + rewrite lookup_insert_eq. assert (c0 = c) by congruence. subst c0.
      exists c1. split; [reflexivity|]. repeat split; try assumption.
      intros k x Hk. destruct (Forall2_lookup_l _ _ _ _ _ Hm Hk) as (y & Hy & Hxy).
      exists y. split; assumption.
    + rewrite lookup_insert_ne by assumption.
      exists c. split; [exact Hc|apply history_kept_refl].
Qed.

Lemma reachable_run (g0 : GlobalRegistry) (l : Ledger) txs :
  reachable increment_messages g0 l -> reachable increment_messages g0 (run_all l txs).
Proof.
  revert l. induction txs as [|[s call] txs IH]; intros l Hl; [exact Hl|].
  change (run_all l ((s, call) :: txs)) with (run_all (apply_tx l s call) txs).
  apply IH. apply reachable_step, Hl.
Qed.

(** X5. The history of a conversation is append-only. Whatever
    transactions run on a reachable ledger (successful or aborted), a stored
    conversation stays stored under its id with the same participants, each
    of its messages stays at its index with the same sender, blob id, hash,
    timestamp and media (a read flag can only go from unread to read), and
    the number of messages never decreases. *)
Theorem history_is_append_only :
  forall (g0 : GlobalRegistry) (l : Ledger) (txs : list (N * Call))
         (i : N) (c : Conversation),
    reachable increment_messages g0 l ->
    conversations l !! i = Some c ->
    exists c',
      conversations (run_all l txs) !! i = Some c'
      /\ history_kept c c'
      /\ (length (messages c) <= length (messages c'))%nat.
Proof.
  intros g0 l txs. revert l.
  assert (Hlen : forall c c', history_kept c c' ->
                   (length (messages c) <= length (messages c'))%nat).
  { intros c c' (_ & _ & _ & Hm).
    destruct (decide (length (messages c) <= length (messages c'))%nat) as [|Hn];
      [assumption|exfalso].
    destruct (lookup_lt_is_Some_2 (messages c) (length (messages c'))) as [m Hk];
      [lia|].
    destruct (Hm _ _ Hk) as (m' & Hk' & _). apply lookup_lt_Some in Hk'. lia. }
  induction txs as [|[s call] txs IH]; intros l i c Hreach Hc.
  - exists c. split; [exact Hc|]. split; [apply history_kept_refl|lia].
  - change (run_all l ((s, call) :: txs)) with (run_all (apply_tx l s call) txs).
    assert (Hstep : exists c1, conversations (apply_tx l s call) !! i = Some c1
                               /\ history_kept c c1).
    { unfold Messaging.apply_tx.
      destruct (execute l s call) as [l1|] eqn:He.
      - eapply effect_keeps_history; [|eapply execute_effect, He|exact Hc].
        eapply reachable_consistent, Hreach.
      - exists c. split; [exact Hc|apply history_kept_refl]. }
    destruct Hstep as (c1 & Hc1 & Hk1).
    destruct (IH (apply_tx l s call) i c1) as (c' & Hc' & Hk' & _);
      [apply reachable_step, Hreach|exact Hc1|].
    exists c'. split; [exact Hc'|].
    assert (Hk : history_kept c c') by (eapply history_kept_trans; eassumption).
    split; [exact Hk|apply Hlen, Hk].
Qed.

(** ** Stored messages *)

Lemma is_participant_or (c : Conversation) (a : N) :
  is_participant c a = true -> a = participant1 c \/ a = participant2 c.
Proof.
  unfold is_participant. intros H. apply orb_true_iff in H as [H|H];
    apply bool_decide_eq_true_1 in H; [left|right]; congruence.
Qed.

Lemma sound_conversation_appended (c : Conversation) (m : Message) :
  sound_conversation c -> is_participant c (sender m) = true ->
  encrypted_content_blob_id m <> "" -> content_hash m <> [] ->
  media_blob_id m <> Some "" ->
  sound_conversation (appended c m).
Proof.
  intros (Hp & Hms & _) Hs Hb Hh Hmedia. split; [exact Hp|]. split.
  - cbn [appended messages]. apply Forall_app. split; [exact Hms|].
    constructor; [|constructor]. split; [apply is_participant_or, Hs|].
    repeat split; assumption.
  - cbn [appended messages last_message_timestamp_ms]. intros x.
    rewrite last_snoc. intros [= <-]. reflexivity.
Qed.

Lemma sound_conversation_marked (c c' : Conversation) :
  sound_conversation c ->
  participant1 c' = participant1 c -> participant2 c' = participant2 c ->
  last_message_timestamp_ms c' = last_message_timestamp_ms c ->
  same_messages (messages c) (messages c') ->
  sound_conversation c'.
Proof.
  intros (Hp & Hms & Hlast) H1 H2 Ht Hsame. split; [congruence|]. split.
  - apply Forall_lookup. intros k m' Hk.
    destruct (Forall2_lookup_r _ _ _ _ _ Hsame Hk) as (m & Hm & Hkept).
    pose proof (proj1 (Forall_lookup _ _) Hms k m Hm) as (Hs & Hb & Hh & Hmedia).
    destruct Hkept as (Es & Eb & Eh & _ & Em & _).
    unfold sound_message. rewrite Es, Eb, Eh, Em, H1, H2. repeat split; assumption.
  - intros m' Hl. rewrite last_lookup in Hl.
    destruct (Forall2_lookup_r _ _ _ _ _ Hsame Hl) as (m & Hm & Hkept).
    rewrite Ht, (Hlast m).
    + destruct Hkept as (_ & _ & _ & Et & _). congruence.
    + rewrite last_lookup. rewrite (Forall2_length _ _ _ Hsame). exact Hm.
Qed.

(** X6. Every conversation stored on a reachable ledger has two
    different participants; each of its messages was sent by one of them,
    has a non-empty blob id and a non-empty content hash, and its media blob
    id, when present, is not empty; and the cached last-message timestamp is
    the timestamp of the last message. *)
Theorem stored_conversations_are_sound :
  forall (g0 : GlobalRegistry) (l : Ledger) (i : N) (c : Conversation),
    reachable increment_messages g0 l ->
    conversations l !! i = Some c ->
    sound_conversation c.
Proof.
  intros g0 l i c Hreach. revert i c.
  induction Hreach as [|l sender call Hreach IH]; intros i c.
  - cbn. rewrite lookup_empty. discriminate.
  - unfold Messaging.apply_tx.
    destruct (execute l sender call) as [l1|] eqn:He; [|apply IH].
    apply execute_effect in He.
    destruct He as [->|A B clock Hne _ _ Hcs _ _
                    |j c0 m Hj Hs Hb Hh Hmedia _ _ Hcs _ _
                    |j c0 c1 Hj _ H1 H2 Ht Hm _ Hcs _ _]; [apply IH|..];
      rewrite Hcs, lookup_insert; case_decide; try apply IH; intros [= <-].
    + split; [exact Hne|]. split; [constructor|]. cbn. discriminate.
    + apply sound_conversation_appended; eauto.
    + eapply sound_conversation_marked; eauto.
Qed.

(** ** The event log *)

Lemma sent_events_snoc (i : N) (log : list Event) (e : Event) :
  sent_events i (log ++ [e])
  = sent_events i log
    ++ match e with
       | MessageSent j from to ts =>
           if bool_decide (j = i) then [(from, to, ts)] else []
       | _ => []
       end.
Proof.
  unfold sent_events. rewrite omap_app. f_equal.
  destruct e as [j a b t|j a b t]; cbn; [reflexivity|].
  destruct (bool_decide (j = i)); reflexivity.
Qed.

Lemma created_events_snoc (i : N) (log : list Event) (e : Event) :
  created_events i (log ++ [e])
  = created_events i log
    ++ match e with
       | ConversationCreated j user1 user2 _ =>
           if bool_decide (j = i) then [(user1, user2)] else []
       | _ => []
       end.
Proof.
  unfold created_events. rewrite omap_app. f_equal.
  destruct e as [j a b t|j a b t]; cbn; [|reflexivity].
  destruct (bool_decide (j = i)); reflexivity.
Qed.

Lemma sent_event_of_same (c c' : Conversation) (msgs msgs' : list Message) :
  participant1 c' = participant1 c -> participant2 c' = participant2 c ->
  same_messages msgs msgs' ->
  sent_event_of c' <$> msgs' = sent_event_of c <$> msgs.
Proof.
  intros H1 H2. induction 1 as [|m m' msgs msgs' Hk _ IH]; [reflexivity|].
  rewrite !fmap_cons, IH. f_equal.
  destruct Hk as (Es & _ & _ & Et & _).
  unfold sent_event_of, other_participant. rewrite Es, Et, H1, H2. reflexivity.
Qed.

Lemma effect_log_mirrors (l l' : Ledger) :
  consistent l -> tx_effect l l' -> log_mirrors l -> log_mirrors l'.
Proof.
  intros Hl He Hmir i. destruct (Hmir i) as [Hs Hc].
  destruct He as [->|A B clock _ _ _ Hcs Hlog _
                  |j c0 m Hj _ _ _ _ _ _ Hcs Hlog _
                  |j c0 c1 Hj Hu H1 H2 _ Hm _ Hcs Hlog _].
  - split; assumption.
  - rewrite Hlog, sent_events_snoc, created_events_snoc, Hcs, app_nil_r.
    assert (Hfresh : conversations l !! next_id l = None).
    { destruct (conversations l !! next_id l) as [d|] eqn:Hd; [|reflexivity].
      apply (ids_used l Hl) in Hd. lia. }
    destruct (decide (next_id l = i)) as [<-|Hn].
    + rewrite lookup_insert_eq, bool_decide_eq_true_2 by reflexivity.
      rewrite Hfresh in Hs, Hc. rewrite Hs, Hc. split; reflexivity.
    + rewrite lookup_insert_ne, bool_decide_eq_false_2 by assumption.
      rewrite app_nil_r. split; assumption.
  - pose proof (stored_under_id l Hl j c0 Hj) as Hid.
    rewrite Hlog, sent_events_snoc, created_events_snoc, Hcs, Hid, app_nil_r.
    destruct (decide (j = i)) as [<-|Hn].
    + rewrite lookup_insert_eq, bool_decide_eq_true_2 by reflexivity.
      rewrite Hj in Hs, Hc. rewrite Hs, Hc. split; [|reflexivity].
      cbn [appended messages]. rewrite fmap_app. reflexivity.
    + rewrite lookup_insert_ne, bool_decide_eq_false_2 by assumption.
      rewrite app_nil_r. split; assumption.
  - pose proof (stored_under_id l Hl j c0 Hj) as Hid.
    rewrite Hlog, Hcs, Hid.
    destruct (decide (j = i)) as [<-|Hn].
    + rewrite lookup_insert_eq. rewrite Hj in Hs, Hc. rewrite Hs, Hc.
      split; [|congruence].
      symmetry. apply sent_event_of_same; assumption.
    + rewrite lookup_insert_ne by assumption. split; assumption.
Qed.

(** X7. On a reachable ledger the event log mirrors the store: the
    [MessageSent] events of a conversation id are, in order, one per stored
    message, with the message's sender, the other participant as receiver and
    the message's timestamp; and the id has exactly one [ConversationCreated]
    event, naming its participants, when a conversation is stored under it
    and none otherwise. *)
Theorem event_log_mirrors_the_ledger :
  forall (g0 : GlobalRegistry) (l : Ledger) (i : N),
    reachable increment_messages g0 l ->
    sent_events i (event_log l)
    = match conversations l !! i with
      | Some c => sent_event_of c <$> messages c
      | None => []
      end
    /\ created_events i (event_log l)
       = match conversations l !! i with
         | Some c => [(participant1 c, participant2 c)]
         | None => []
         end.
Proof.
  intros g0 l i Hreach. revert i.
  induction Hreach as [|l sender call Hreach IH]; intros i.
  - cbn. rewrite lookup_empty. split; reflexivity.
  - unfold Messaging.apply_tx.
    destruct (execute l sender call) as [l1|] eqn:He; [|apply IH].
    eapply effect_log_mirrors; [|eapply execute_effect, He|exact IH].
    eapply reachable_consistent, Hreach.
Qed.

(** ** Read state, continued *)

(** X8. [mark_messages_as_read] by an address that is not a
    participant aborts with [ENotParticipant] for every index, and the
    transaction leaves the ledger as it was. *)
Theorem mark_messages_as_read_needs_a_participant :
  forall (l : Ledger) (reader : N) (i : N) (c : Conversation) (up_to_index : N),
    conversations l !! i = Some c ->
    is_participant c reader = false ->
    mark_messages_as_read c up_to_index (fresh_ctx l reader)
      = Aborted (ModuleAbort ENotParticipant)
    /\ execute l reader (MarkMessagesAsRead i up_to_index)
       = Aborted (ModuleAbort ENotParticipant)
    /\ apply_tx l reader (MarkMessagesAsRead i up_to_index) = l.
Proof.
  intros l reader i c up_to Hc Hp.
  assert (Hm : mark_messages_as_read c up_to (fresh_ctx l reader)
               = Aborted (ModuleAbort ENotParticipant)).
  { unfold mark_messages_as_read. rewrite is_participant_sender.
    cbn [fresh_ctx tx_sender]. rewrite Hp. reflexivity. }
  assert (He : execute l reader (MarkMessagesAsRead i up_to)
               = Aborted (ModuleAbort ENotParticipant)).
  { unfold Messaging.execute, input_object. rewrite Hc. cbn [bind].
    rewrite Hm. reflexivity. }
  split; [exact Hm|]. split; [exact He|]. eapply apply_tx_aborted, He.
Qed.

Lemma read_up_to_max reader i j (msgs : list Message) :
  read_up_to reader j (read_up_to reader i msgs)
  = read_up_to reader (N.max i j) msgs.
Proof.
  unfold read_up_to. apply list_eq. intros k.
  rewrite !list_lookup_imap. destruct (msgs !! k) as [m|]; [|reflexivity].
  cbn. f_equal.
  destruct (bool_decide (sender m = reader)) eqn:Hs; cbn [negb].
  - rewrite !andb_false_r, Hs, andb_false_r. reflexivity.
  - rewrite !andb_true_r.
    destruct (decide (N.of_nat k <= i)) as [Hi|Hi].
    + rewrite (bool_decide_eq_true_2 (N.of_nat k <= i)) by assumption.
      rewrite (bool_decide_eq_true_2 (N.of_nat k <= N.max i j)) by lia.
      cbn [set_is_read sender]. rewrite Hs.
      destruct (bool_decide (N.of_nat k <= j)); reflexivity.
    + rewrite (bool_decide_eq_false_2 (N.of_nat k <= i)) by assumption.
      rewrite Hs, andb_true_r.
      rewrite (bool_decide_ext (N.of_nat k <= N.max i j) (N.of_nat k <= j)) by lia.
      reflexivity.
Qed.

(** X9. Marking as read up to [i] and then up to [j] by the same
    participant succeeds and is the same as marking once up to the larger of
    the two. *)
Theorem mark_messages_as_read_twice :
  forall (c : Conversation) (i j : N) (ctx : TxContext),
    is_participant c (tx_sender ctx) = true ->
    vector_length (messages c) <= MAX_U64 ->
    exists c1,
      mark_messages_as_read c i ctx = Ok (tt, c1)
      /\ mark_messages_as_read c1 j ctx
         = mark_messages_as_read c (N.max i j) ctx.
Proof.
  intros c i j ctx Hp Hlen. eexists.
  split; [apply mark_messages_as_read_computes; assumption|].
  rewrite !mark_messages_as_read_computes; try assumption.
  - cbn [uid participant1 participant2 messages last_message_timestamp_ms].
    rewrite read_up_to_max. reflexivity.
  - cbn [messages]. unfold vector_length, read_up_to in *.
    rewrite length_imap. exact Hlen.
Qed.

(** X10. Once each of the two participants has marked the
    conversation as read, every message at an index within both bounds is
    read, whoever sent it. *)
Theorem both_participants_read_everything :
  forall (c c1 c2 : Conversation) (a b : N) (ctx1 ctx2 : TxContext),
    sound_conversation c ->
    vector_length (messages c) <= MAX_U64 ->
    tx_sender ctx1 = participant1 c -> tx_sender ctx2 = participant2 c ->
    mark_messages_as_read c a ctx1 = Ok (tt, c1) ->
    mark_messages_as_read c1 b ctx2 = Ok (tt, c2) ->
    forall (k : nat) (m : Message),
      messages c2 !! k = Some m ->
      N.of_nat k <= a -> N.of_nat k <= b ->
      is_read m = true.
Proof.
  intros c c1 c2 a b ctx1 ctx2 (Hne & Hms & _) Hlen Hs1 Hs2 Hr1 Hr2 k m Hk Ha Hb.
  rewrite mark_messages_as_read_computes in Hr1; [|unfold is_participant; rewrite Hs1;
    rewrite bool_decide_eq_true_2 by reflexivity; reflexivity|assumption].
  injection Hr1 as <-.
  rewrite mark_messages_as_read_computes in Hr2.
  2:{ cbn [participant1 participant2]. unfold is_participant. rewrite Hs2.
      rewrite (bool_decide_eq_true_2 (participant2 c = participant2 c)) by reflexivity.
      apply orb_true_r. }
  2:{ cbn [messages]. unfold vector_length, read_up_to in *.
      rewrite length_imap. exact Hlen. }
  injection Hr2 as <-.
  cbn [messages] in Hk. unfold read_up_to in Hk.
  rewrite !list_lookup_imap in Hk.
  destruct (messages c !! k) as [m0|] eqn:Hm0; [|discriminate].
  cbn in Hk. injection Hk as <-.
  pose proof (proj1 (Forall_lookup _ _) Hms k m0 Hm0) as (Hsender & _).
  rewrite (bool_decide_eq_true_2 (N.of_nat k <= a)) by assumption.
  rewrite Hs1, Hs2. cbn [andb].
  destruct (bool_decide (sender m0 = participant1 c)) eqn:E1; cbn [negb].
  - apply bool_decide_eq_true_1 in E1.
    rewrite (bool_decide_eq_true_2 (N.of_nat k <= b)) by assumption.
    rewrite bool_decide_eq_false_2 by congruence. reflexivity.
  - apply bool_decide_eq_false_1 in E1. cbn [set_is_read sender].
    destruct (_ && _); reflexivity.
Qed.

End MoreLedgerFacts.

(* ===================================================================== *)
(** * Facts about mentions                                                 *)
(* ===================================================================== *)

Lemma match_mentions_unfold (ch : N) (rest : list N) :
  match_mentions (ch :: rest)
  = if ch =? 64 then
      match word_run rest with
      | [] => match_mentions rest
      | c :: w => (ch :: c :: w) :: match_mentions (drop (length (c :: w)) rest)
      end
    else match_mentions rest.
Proof.
  simp match_mentions. destruct (ch =? 64); simp match_mentions; [|reflexivity].
  destruct (word_run rest); simp match_mentions; reflexivity.
Qed.

Lemma word_run_spec (s : list N) :
  s = word_run s ++ drop (length (word_run s)) s
  /\ Forall (fun ch => is_word ch = true) (word_run s)
  /\ (forall ch, head (drop (length (word_run s)) s) = Some ch -> is_word ch = false).
Proof.
  induction s as [|ch rest (IH1 & IH2 & IH3)].
  - repeat split; [constructor|discriminate].
  - cbn [word_run]. destruct (is_word ch) eqn:Hw.
    + cbn [length drop app]. split; [f_equal; exact IH1|].
      split; [constructor; assumption|exact IH3].
    + cbn [length drop app head]. split; [reflexivity|].
      split; [constructor|]. intros x [= <-]. exact Hw.
Qed.

Lemma word_run_maximal (m post : list N) :
  Forall (fun ch => is_word ch = true) m ->
  (forall ch, head post = Some ch -> is_word ch = false) ->
  word_run (m ++ post) = m.
Proof.
  induction 1 as [|ch m Hch _ IH]; intros Hpost.
  - destruct post as [|x post]; [reflexivity|]. cbn [app word_run].
    rewrite (Hpost x eq_refl). reflexivity.
  - cbn [app word_run]. rewrite Hch, IH by assumption. reflexivity.
Qed.

Lemma word_run_before_at (a s : list N) :
  word_run (a ++ 64 :: s) = word_run a.
Proof.
  induction a as [|ch a IH]; [reflexivity|]. cbn [app word_run].
  destruct (is_word ch); [f_equal; exact IH|reflexivity].
Qed.

Lemma word_run_short (s : list N) : (length (word_run s) <= length s)%nat.
Proof.
  induction s as [|ch rest IH]; [reflexivity|]. cbn [word_run].
  destruct (is_word ch); cbn [length]; lia.
Qed.

Lemma match_mentions_sound (n : nat) : forall text mt,
  (length text <= n)%nat -> mt ∈ match_mentions text ->
  exists m, mt = 64 :: m /\ mentioned text m.
Proof.
  induction n as [|n IH]; intros [|ch rest] mt Hlen;
    try (simp match_mentions; intros H; apply elem_of_nil in H; contradiction);
    cbn [length] in Hlen; [lia|].
  assert (Hlater : forall suffix skipped,
            ch :: rest = skipped ++ suffix -> (length suffix <= n)%nat ->
            mt ∈ match_mentions suffix ->
            exists m, mt = 64 :: m /\ mentioned (ch :: rest) m).
  { intros suffix skipped Hsplit Hl Hin.
    destruct (IH suffix mt Hl Hin) as (m & -> & pre & post & -> & Hm).
    exists m. split; [reflexivity|]. exists (skipped ++ pre), post.
    rewrite Hsplit, <- app_assoc. split; [reflexivity|exact Hm]. }
  rewrite match_mentions_unfold.
  destruct (N.eqb_spec ch 64) as [->|Hch].
  - destruct (word_run_spec rest) as (Hsplit & Hword & Hstop).
    destruct (word_run rest) as [|c w] eqn:Hrun.
    + apply (Hlater rest [64]); [reflexivity|lia].
    + intros Hin. apply elem_of_cons in Hin as [->|Hin].
      * exists (c :: w). split; [reflexivity|].
        exists [], (drop (length (c :: w)) rest). cbn [app].
        split; [f_equal; exact Hsplit|]. split; [discriminate|].
        split; assumption.
      * apply (Hlater _ (64 :: c :: w)) in Hin; [exact Hin| |].
        -- cbn [app]. f_equal. exact Hsplit.
        -- rewrite length_drop. lia.
  - apply (Hlater rest [ch]); [reflexivity|lia].
Qed.

Lemma match_mentions_reaches (n : nat) : forall pre s mt,
  (length pre <= n)%nat ->
  mt ∈ match_mentions (64 :: s) -> mt ∈ match_mentions (pre ++ 64 :: s).
Proof.
  induction n as [|n IH]; intros [|ch pre] s mt Hlen Hin; try exact Hin;
    cbn [length] in Hlen; [lia|].
  cbn [app]. rewrite match_mentions_unfold.
  destruct (N.eqb_spec ch 64) as [->|Hch].
  - rewrite word_run_before_at.
    destruct (word_run pre) as [|c w] eqn:Hrun.
    + apply IH; [lia|exact Hin].
    + apply elem_of_cons. right.
      pose proof (word_run_short pre) as Hshort. rewrite Hrun in Hshort.
      rewrite drop_app_le by exact Hshort.
      apply IH; [rewrite length_drop; lia|exact Hin].
  - apply IH; [lia|exact Hin].
Qed.

Lemma match_mentions_complete (text m : list N) :
  mentioned text m -> (64 :: m) ∈ match_mentions text.
Proof.
  intros (pre & post & -> & Hne & Hword & Hstop).
  apply (match_mentions_reaches (length pre)); [lia|].
  rewrite match_mentions_unfold. cbn [N.eqb Pos.eqb].
  rewrite word_run_maximal by assumption.
  destruct m as [|c w]; [contradiction|]. apply elem_of_cons. left. reflexivity.
Qed.

Lemma set_insertion_order_spec (items : list (list N)) : forall seen,
  NoDup (set_insertion_order seen items)
  /\ forall x, x ∈ set_insertion_order seen items <-> x ∈ items /\ x ∉ seen.
Proof.
  induction items as [|y items IH]; intros seen; cbn [set_insertion_order].
  - split; [constructor|]. intros x. split; [intros H|intros [H _]];
      apply elem_of_nil in H; contradiction.
  - case_bool_decide as Hy.
    + destruct (IH seen) as [Hnd Hin]. split; [exact Hnd|].
      intros x. rewrite Hin, elem_of_cons. split; [tauto|].
      intros [[->|Hx] Hs]; [contradiction|tauto].
    + destruct (IH (y :: seen)) as [Hnd Hin]. split.
      * constructor; [|exact Hnd]. rewrite Hin. intros [_ Hn]. apply Hn. left.
      * intros x. rewrite !elem_of_cons, Hin, elem_of_cons.
        destruct (decide (x = y)) as [->|Hxy]; [tauto|]. tauto.
Qed.

(** X22. [extractMentions] returns, without duplicates, exactly the
    mentions of the text: the non-empty maximal runs of [[a-zA-Z0-9_]] that
    follow an [@]. *)
Theorem extractMentions_spec :
  forall (text : list N),
    NoDup (extractMentions text)
    /\ forall m, m ∈ extractMentions text <-> mentioned text m.
Proof.
  intros text. destruct text as [|ch rest].
  - split; [constructor|]. intros m. split.
    + intros H. apply elem_of_nil in H. contradiction.
    + intros (pre & post & H & _). destruct pre; discriminate.
  - unfold extractMentions.
    destruct (set_insertion_order_spec
                (map substring1 (match_mentions (ch :: rest))) []) as [Hnd Hin].
    split; [exact Hnd|]. intros m. rewrite Hin. split.
    + intros [Hm _]. apply list_elem_of_fmap in Hm as (mt & -> & Hmt).
      apply (match_mentions_sound (length (ch :: rest))) in Hmt as (m & -> & Hm);
        [exact Hm|lia].
    + intros Hm. split; [|apply not_elem_of_nil].
      apply list_elem_of_fmap. exists (64 :: m). split; [reflexivity|].
      apply match_mentions_complete, Hm.
Qed.

(* ===================================================================== *)
(** * The sample world, continued                                          *)
(* ===================================================================== *)

(** ** The ledger at work, continued *)

Lemma sample_ledger_reachable : reachable count_messages 0 sample_ledger.
Proof. apply reachable_step, reachable_genesis. Qed.

Lemma sample_ledger_later_reachable :
  reachable count_messages 0 sample_ledger_later.
Proof. apply reachable_run, sample_ledger_reachable. Qed.

Lemma sample_thread_sound : sound_conversation sample_thread.
Proof.
  split; [unfold sample_thread, alice, bob; cbn; lia|]. split.
  - repeat constructor; cbn; unfold alice, bob; try lia; discriminate.
  - intros m [= <-]. reflexivity.
Qed.

Lemma conversation_exists_iff_id_witness :
  is_Some (get_conversation_id (conversation_registry sample_ledger) bob alice).
Proof.
  apply (conversation_exists_iff_id (conversation_registry sample_ledger) bob alice).
  vm_compute. reflexivity.
Defined.

Lemma get_conversation_id_sound_and_complete_witness :
  get_conversation_id (conversation_registry sample_ledger_later) bob alice
    = Some 1
  /\ get_conversation_id (conversation_registry sample_ledger_later) bob alice
     = get_conversation_id (conversation_registry sample_ledger_later) alice bob.
Proof.
  destruct (get_conversation_id_sound_and_complete count_messages 0
              sample_ledger_later bob alice 1 sample_ledger_later_reachable)
    as [[_ H] Hsym].
  split; [|exact Hsym].
  apply H. eexists. split; [vm_compute; reflexivity|].
  right. split; reflexivity.
Defined.

Lemma start_conversation_aborts_only_on_self_witness :
  start_conversation (conversation_registry sample_ledger) alice 2000
    (fresh_ctx sample_ledger alice)
  = Aborted (ModuleAbort ECannotMessageSelf).
Proof.
  apply (start_conversation_aborts_only_on_self
           (conversation_registry sample_ledger) alice 2000
           (fresh_ctx sample_ledger alice) (ModuleAbort ECannotMessageSelf)).
  split; reflexivity.
Defined.

Lemma start_conversation_leaves_other_pairs_witness :
  exists registry' ctx',
    start_conversation (conversation_registry sample_ledger) carol 2000
      (fresh_ctx sample_ledger alice) = Ok (tt, (registry', ctx'))
    /\ get_conversation_id registry' alice bob = Some 1
    /\ conversation_exists registry' bob alice = true.
Proof.
  destruct (start_conversation (conversation_registry sample_ledger) carol 2000
              (fresh_ctx sample_ledger alice)) as [[[] [registry' ctx']]|e] eqn:Hs;
    [|vm_compute in Hs; discriminate].
  exists registry', ctx'. split; [reflexivity|].
  destruct (start_conversation_leaves_other_pairs
              (conversation_registry sample_ledger) registry' carol 2000
              (fresh_ctx sample_ledger alice) ctx' alice bob Hs) as [H1 _].
  { unfold alice, bob, carol. cbn. lia. }
  destruct (start_conversation_leaves_other_pairs
              (conversation_registry sample_ledger) registry' carol 2000
              (fresh_ctx sample_ledger alice) ctx' bob alice Hs) as [_ H2].
  { unfold alice, bob, carol. cbn. lia. }
  rewrite H1, H2. split; vm_compute; reflexivity.
Defined.

Lemma history_is_append_only_witness :
  exists c c',
    conversations sample_ledger_later !! 1 = Some c
    /\ conversations
         (run_all count_messages sample_ledger_later
            [(bob, SendMessage 1 "blob3" [3] 4000);
             (carol, StartConversation alice 5000);
             (bob, MarkMessagesAsRead 1 0)]) !! 1 = Some c'
    /\ history_kept c c'.
Proof.
  destruct (conversations sample_ledger_later !! 1) as [c|] eqn:Hc;
    [|vm_compute in Hc; discriminate].
  destruct (history_is_append_only count_messages 0 sample_ledger_later
              [(bob, SendMessage 1 "blob3" [3] 4000);
               (carol, StartConversation alice 5000);
               (bob, MarkMessagesAsRead 1 0)]
              1 c sample_ledger_later_reachable Hc) as (c' & H1 & H2 & _).
  exists c, c'. split; [reflexivity|]. split; assumption.
Defined.

Lemma stored_conversations_are_sound_witness :
  exists c,
    conversations sample_ledger_later !! 1 = Some c /\ sound_conversation c.
Proof.
  destruct (conversations sample_ledger_later !! 1) as [c|] eqn:Hc;
    [|vm_compute in Hc; discriminate].
  exists c. split; [reflexivity|].
  exact (stored_conversations_are_sound count_messages 0 sample_ledger_later 1 c
           sample_ledger_later_reachable Hc).
Defined.

Lemma event_log_mirrors_the_ledger_witness :
  sent_events 1 (event_log sample_ledger_later)
    = [(alice, bob, 2000); (bob, alice, 3000)]
  /\ created_events 1 (event_log sample_ledger_later) = [(alice, bob)].
Proof.
  destruct (event_log_mirrors_the_ledger count_messages 0 sample_ledger_later 1
              sample_ledger_later_reachable) as [H1 H2].
  rewrite H1, H2. split; vm_compute; reflexivity.
Defined.

Lemma mark_messages_as_read_needs_a_participant_witness :
  execute count_messages sample_ledger carol (MarkMessagesAsRead 1 0)
    = Aborted (ModuleAbort ENotParticipant)
  /\ apply_tx count_messages sample_ledger carol (MarkMessagesAsRead 1 0)
     = sample_ledger.
Proof.
  destruct (mark_messages_as_read_needs_a_participant count_messages
              sample_ledger carol 1 (fresh_conversation 1 alice bob 1000) 0
              sample_ledger_conversation) as (_ & H1 & H2).
  - vm_compute. reflexivity.
  - split; assumption.
Defined.

Lemma mark_messages_as_read_twice_witness :
  exists c1,
    mark_messages_as_read sample_thread 1 (mkTx alice 0 [] []) = Ok (tt, c1)
    /\ mark_messages_as_read c1 3 (mkTx alice 0 [] [])
       = mark_messages_as_read sample_thread (N.max 1 3) (mkTx alice 0 [] []).
Proof.
  apply (mark_messages_as_read_twice sample_thread 1 3 (mkTx alice 0 [] [])).
  - vm_compute. reflexivity.
  - vm_compute. discriminate.
Defined.

Lemma both_participants_read_everything_witness :
  exists c1 c2 m,
    mark_messages_as_read sample_thread 2 (mkTx alice 0 [] []) = Ok (tt, c1)
    /\ mark_messages_as_read c1 3 (mkTx bob 0 [] []) = Ok (tt, c2)
    /\ messages c2 !! 1%nat = Some m
    /\ is_read m = true.
Proof.
  set (c1 := match mark_messages_as_read sample_thread 2 (mkTx alice 0 [] []) with
             | Ok (_, c) => c
             | Aborted _ => sample_thread
             end).
  set (c2 := match mark_messages_as_read c1 3 (mkTx bob 0 [] []) with
             | Ok (_, c) => c
             | Aborted _ => sample_thread
             end).
  set (m := mkMessage bob "blob1" [1] 3000 true None).
  assert (H1 : mark_messages_as_read sample_thread 2 (mkTx alice 0 [] [])
               = Ok (tt, c1)) by (vm_compute; reflexivity).
  assert (H2 : mark_messages_as_read c1 3 (mkTx bob 0 [] []) = Ok (tt, c2))
    by (vm_compute; reflexivity).
  assert (Hm : messages c2 !! 1%nat = Some m) by (vm_compute; reflexivity).
  exists c1, c2, m. split; [exact H1|]. split; [exact H2|]. split; [exact Hm|].
  assert (Hlen : vector_length (messages sample_thread) <= MAX_U64)
    by (vm_compute; discriminate).
  apply (both_participants_read_everything sample_thread c1 c2 2 3
           (mkTx alice 0 [] []) (mkTx bob 0 [] []) sample_thread_sound Hlen
           eq_refl eq_refl H1 H2 1%nat m Hm); lia.
Defined.

(** ** The pipeline at work, continued *)

Lemma media_round_trip_witness :
  exists id,
    encryptAndUploadMedia sample_env sample_media sample_bound_seal
      sample_conversation sample_participants = Resolved id
    /\ decryptMedia sample_env id sample_bound_seal sample_conversation
         sample_participants (Some (lit "image/png")) None None
       = Resolved (mkBlob [137; 80; 78; 71] (lit "image/png"))
    /\ decryptMedia sample_env id sample_bound_seal sample_conversation
         sample_participants (Some (lit "Image/PNG")) None None
       = Resolved (mkBlob [137; 80; 78; 71] (lit "image/png")).
Proof.
  destruct (encryptAndUploadMedia sample_env sample_media sample_bound_seal
              sample_conversation sample_participants) as [id|t] eqn:Hup;
    [|vm_compute in Hup; discriminate].
  exists id. split; [reflexivity|]. split.
  - destruct (media_round_trip (list N) sample_env sample_bound_seal sample_media
                sample_conversation sample_participants (Some (lit "image/png"))
                None None id Hup sample_store_returns_stored
                (sample_bound_seal_inverts _ _ _))
      as (bytes & kept & Hb & Hd & _ & Hkept & _).
    cbn in Hb. injection Hb as <-. rewrite Hd. do 2 f_equal.
    apply (Hkept (lit "image/png") eq_refl); [discriminate|].
    apply (bool_decide_eq_true _). vm_compute. reflexivity.
  - destruct (media_round_trip (list N) sample_env sample_bound_seal sample_media
                sample_conversation sample_participants (Some (lit "Image/PNG"))
                None None id Hup sample_store_returns_stored
                (sample_bound_seal_inverts _ _ _))
      as (bytes & kept & Hb & Hd & -> & _).
    cbn in Hb. injection Hb as <-. rewrite Hd. vm_compute. reflexivity.
Defined.

Lemma decryptMessage_outcomes_witness :
  decryptMessage sample_env (rev (TextEncoder_encode (lit "hello"))) sample_seal
    sample_conversation sample_participants None None
  = Resolved (lit "hello").
Proof.
  destruct (decryptMessage_outcomes unit sample_env sample_seal
              (rev (TextEncoder_encode (lit "hello"))) sample_conversation
              sample_participants None None) as (H & _ & _).
  apply H.
  exists (mkResponse true (lit "OK")
            (Resolved (rev (TextEncoder_encode (lit "hello"))))),
         (rev (TextEncoder_encode (lit "hello"))),
         (TextEncoder_encode (lit "hello")).
  repeat split; vm_compute; reflexivity.
Defined.

Lemma stored_hash_verifies_the_message_witness :
  exists up,
    encryptAndUploadMessage sample_env (lit "hello") sample_seal
      sample_conversation sample_participants = Resolved up
    /\ verifyMessageHash sample_env (lit "hello") (contentHash up) = true.
Proof.
  destruct (encryptAndUploadMessage sample_env (lit "hello") sample_seal
              sample_conversation sample_participants) as [up|t] eqn:Hup;
    [|vm_compute in Hup; discriminate].
  exists up. split; [reflexivity|].
  destruct (stored_hash_verifies_the_message unit sample_env sample_seal
              (lit "hello") sample_conversation sample_participants up Hup)
    as [H _].
  exact H.
Defined.

Lemma sent_message_decrypts_and_verifies_witness :
  exists up,
    encryptAndUploadMessage sample_env (lit "hello") sample_bound_seal
      sample_conversation sample_participants = Resolved up
    /\ decryptMessage sample_env (blobId up) sample_bound_seal
         sample_conversation sample_participants None None
       = Resolved (lit "hello")
    /\ verifyMessageHash sample_env (lit "hello") (contentHash up) = true.
Proof.
  destruct (encryptAndUploadMessage sample_env (lit "hello") sample_bound_seal
              sample_conversation sample_participants) as [up|t] eqn:Hup;
    [|vm_compute in Hup; discriminate].
  exists up.
  destruct (sent_message_decrypts_and_verifies (list N) sample_env
              sample_bound_seal (lit "hello")
              sample_conversation sample_participants None None up Hup
              sample_store_returns_stored (sample_bound_seal_inverts _ _ _))
    as (p & Hd & Hv & _ & Hp).
  - vm_compute. repeat constructor.
  - vm_compute. discriminate.
  - rewrite (Hp eq_refl) in Hd, Hv.
    split; [reflexivity|]. split; [exact Hd|exact Hv].
Defined.

Lemma marked_message_fails_verification_witness :
  exists up p,
    encryptAndUploadMessage sample_env (BOM :: lit "hi") sample_bound_seal
      sample_conversation sample_participants = Resolved up
    /\ decryptMessage sample_env (blobId up) sample_bound_seal
         sample_conversation sample_participants None None = Resolved p
    /\ verifyMessageHash sample_env p (contentHash up) = false.
Proof.
  destruct (encryptAndUploadMessage sample_env (BOM :: lit "hi") sample_bound_seal
              sample_conversation sample_participants) as [up|t] eqn:Hup;
    [|vm_compute in Hup; discriminate].
  destruct (marked_message_fails_verification (list N) sample_env
              sample_bound_seal (lit "hi")
              sample_conversation sample_participants None None up Hup
              sample_store_returns_stored (sample_bound_seal_inverts _ _ _))
    as (p & Hd & _ & Hv).
  - vm_compute. repeat constructor.
  - vm_compute. discriminate.
  - exists up, p. split; [reflexivity|]. split; [exact Hd|exact Hv].
Defined.


Lemma identity_separates_conversations_witness :
  snd (createConversationIdentity (lit "0xc1") [lit "0xaa"; lit "0xbb"])
    <> snd (createConversationIdentity (lit "0xc2") [lit "0xbb"; lit "0xaa"])
  /\ snd (createConversationIdentity (lit "0xc1") [lit "0xaa"; lit "0xbb"])
     <> snd (createConversationIdentity (lit "0xc1") [lit "0xaa"; lit "0xcc"]).
Proof.
  assert (Hp : forall s, well_formed s = true -> bool_decide (dash_free s) = true ->
                         well_formed s = true /\ dash_free s).
  { intros s Hw Hd. split; [exact Hw|]. apply bool_decide_eq_true in Hd. exact Hd. }
  split.
  - intros H.
    apply (identity_separates_conversations (lit "0xc1") (lit "0xc2")
             [lit "0xaa"; lit "0xbb"] [lit "0xbb"; lit "0xaa"]) in H;
      try (vm_compute; reflexivity);
      try (apply (bool_decide_eq_true _); vm_compute; reflexivity);
      try (repeat constructor; apply Hp; vm_compute; reflexivity);
      try discriminate.
    destruct H as [H _]. vm_compute in H. discriminate.
  - intros H.
    apply (identity_separates_conversations (lit "0xc1") (lit "0xc1")
             [lit "0xaa"; lit "0xbb"] [lit "0xaa"; lit "0xcc"]) in H;
      try (vm_compute; reflexivity);
      try (apply (bool_decide_eq_true _); vm_compute; reflexivity);
      try (repeat constructor; apply Hp; vm_compute; reflexivity);
      try discriminate.
    destruct H as [_ H].
    assert (Hin : lit "0xbb" ∈ [lit "0xaa"; lit "0xcc"]).
    { rewrite <- H. right. left. }
    apply (bool_decide_eq_true_2 _) in Hin. vm_compute in Hin. discriminate.
Defined.

Lemma dashes_make_identities_collide_witness :
  snd (createConversationIdentity (lit "0xc1") [lit "0xaa-0xbb"])
    = snd (createConversationIdentity (lit "0xc1") [lit "0xaa"; lit "0xbb"])
  /\ snd (createConversationIdentity (lit "0xc1-0xaa") [lit "0xbb"])
     = snd (createConversationIdentity (lit "0xc1") [lit "0xaa"; lit "0xbb"]).
Proof.
  apply (dashes_make_identities_collide (lit "0xc1") (lit "0xaa") (lit "0xbb")).
  vm_compute. reflexivity.
Defined.

Lemma createDecryptTransaction_truncates_witness :
  let identity :=
    snd (createConversationIdentity (lit "0x00000000000000000000000000c1")
           sample_participants) in
  createDecryptTransaction identity = lit "decrypt-" ++ take 56 identity.
Proof.
  intros identity.
  destruct (createDecryptTransaction_truncates identity) as [_ H].
  apply (H (take 56 identity) (drop 56 identity)).
  - symmetry. apply take_drop.
  - vm_compute. reflexivity.
  - vm_compute. repeat constructor.
Defined.

Lemma decrypt_transaction_ignores_participants_witness :
  createDecryptTransaction
    (snd (createConversationIdentity (lit "0x00000000000000000000000000c1")
            [lit "0xaa"; lit "0xbb"]))
  = createDecryptTransaction
      (snd (createConversationIdentity (lit "0x00000000000000000000000000c2")
              [lit "0xcc"; lit "0xdd"])).
Proof.
  apply (decrypt_transaction_ignores_participants
           (lit "0x00000000000000000000000000") (lit "c1") (lit "c2")
           [lit "0xaa"; lit "0xbb"] [lit "0xcc"; lit "0xdd"]).
  - vm_compute. reflexivity.
  - vm_compute. repeat constructor.
Defined.

Lemma identity_is_lowercase_hex_witness :
  Forall is_hex_digit
    (snd (createConversationIdentity sample_conversation sample_participants)).
Proof.
  apply (identity_is_lowercase_hex sample_conversation sample_participants).
  - vm_compute. repeat constructor.
  - vm_compute. repeat constructor.
Defined.

(** ** Mentions at work *)

Lemma extractMentions_spec_witness :
  mentioned (lit "gm @bob, @0xab and @bob!") (lit "0xab")
  /\ ~ mentioned (lit "gm @bob, @0xab and @bob!") (lit "bo").
Proof.
  destruct (extractMentions_spec (lit "gm @bob, @0xab and @bob!")) as [_ H].
  split.
  - apply H. vm_compute. right. left.
  - intros Hm. apply H in Hm.
    apply (bool_decide_eq_true_2 _) in Hm. vm_compute in Hm. discriminate.
Defined.
